(** * ecs.hpp: entity ids, sparse sets and maps, component storages, registry

    A shallow embedding of [src/ecs.hpp].  Unsigned machine integers are
    values of [Z] with the wrap-around written where the source can wrap,
    [std::vector]s are lists read and written by index, and a member
    function is a function of the object and of the allocator's answers
    that yields the returned value and the object afterwards, an exception
    together with the object as the throw left it, or undefined behaviour
    (an access outside a vector). *)

From stdpp Require Import base option list numbers gmap.

Local Open Scope Z_scope.

(** ** Machine integers *)

(** [std::size_t] is taken to be 64 bits wide. *)
Definition size_t_modulus : Z := 2 ^ 64.
Definition wrap_size_t (z : Z) : Z := z mod size_t_modulus.

(** [entity_id] is [std::uint32_t], [family_id] is [std::uint16_t]. *)
Definition entity_id_modulus : Z := 2 ^ 32.
Definition family_id_modulus : Z := 2 ^ 16.

Definition entity_id_index_bits : Z := 22.
Definition entity_id_index_mask : Z := Z.shiftl 1 entity_id_index_bits - 1.
Definition entity_id_version_bits : Z := 10.
Definition entity_id_version_mask : Z := Z.shiftl 1 entity_id_version_bits - 1.

Definition entity_id_index (id : Z) : Z :=
  Z.land id entity_id_index_mask.

Definition entity_id_version (id : Z) : Z :=
  Z.land (Z.shiftr id entity_id_index_bits) entity_id_version_mask.

(** The shift is done in [entity_id], so bits above the 32nd are lost. *)
Definition entity_id_join (index version : Z) : Z :=
  Z.lor index (Z.shiftl version entity_id_index_bits mod entity_id_modulus).

(** ** Outcomes of member functions *)

Inductive exn : Set :=
| logic_error
| length_error
| bad_alloc.

(** The allocator is a list of answers to the requests still to come;
    once the list is used up every request is granted. *)
Definition heap : Type := list bool.

Inductive outcome (S A : Type) : Type :=
| Normal (a : A) (s : S) (h : heap)
| Raised (e : exn) (s : S) (h : heap)
| Undefined.
Arguments Normal {S A} a s h.
Arguments Raised {S A} e s h.
Arguments Undefined {S A}.

Definition M (S A : Type) : Type := S → heap → outcome S A.

Definition ret {S A} (a : A) : M S A := λ s h, Normal a s h.

Definition bind {S A B} (m : M S A) (k : A → M S B) : M S B :=
  λ s h,
    match m s h with
    | Normal a s' h' => k a s' h'
    | Raised e s' h' => Raised e s' h'
    | Undefined => Undefined
    end.

Definition throw {S A} (e : exn) : M S A := λ s h, Raised e s h.
Definition undefined {S A} : M S A := λ _ _, Undefined.
Definition get {S} : M S S := λ s h, Normal s s h.
Definition put {S} (s : S) : M S unit := λ _ h, Normal tt s h.

(** A [const noexcept] member returns [None] where the source reads
    outside a vector. *)
Definition defined {S A} (o : option A) : M S A :=
  match o with
  | Some a => ret a
  | None => undefined
  end.

(** One request to the allocator. *)
Definition allocate {S} : M S unit :=
  λ s h,
    match h with
    | [] => Normal tt s []
    | true :: h' => Normal tt s h'
    | false :: h' => Raised bad_alloc s h'
    end.

(** [try { m } catch (...) { handler; throw; }] *)
Definition try_rethrow {S A} (m : M S A) (handler : M S unit) : M S A :=
  λ s h,
    match m s h with
    | Raised e s' h' =>
        match handler s' h' with
        | Normal _ s'' h'' => Raised e s'' h''
        | Raised e' s'' h'' => Raised e' s'' h''
        | Undefined => Undefined
        end
    | o => o
    end.

(** Run a member function of a sub-object. *)
Definition on_member {S S' A} (proj : S → S') (upd : S' → S → S)
    (m : M S' A) : M S A :=
  λ s h,
    match m (proj s) h with
    | Normal a s' h' => Normal a (upd s' s) h'
    | Raised e s' h' => Raised e (upd s' s) h'
    | Undefined => Undefined
    end.

(** The object a call leaves, whether it returned or threw. *)
Definition left_by {S A} (o : outcome S A) : option S :=
  match o with
  | Normal _ s _ => Some s
  | Raised _ s _ => Some s
  | Undefined => None
  end.

Definition returned {S A} (o : outcome S A) : bool :=
  match o with
  | Normal _ _ _ => true
  | _ => false
  end.

Declare Scope ecs_scope.
Delimit Scope ecs_scope with ecs.
Notation "x <- m ;; k" := (bind m (λ x, k))
  (at level 100, m at next level, right associativity) : ecs_scope.
Notation "m ;; k" := (bind m (λ _, k))
  (at level 100, right associativity) : ecs_scope.

(** ** Vectors *)

(** [l[i]], read and written; [None] outside the vector. *)
Definition vec_at {A} (l : list A) (i : Z) : option A :=
  if bool_decide (0 ≤ i < Z.of_nat (length l)) then l !! Z.to_nat i else None.

Definition vec_store {A} (l : list A) (i : Z) (x : A) : option (list A) :=
  if bool_decide (0 ≤ i < Z.of_nat (length l)) then Some (<[Z.to_nat i := x]> l)
  else None.

Definition vec_back {A} (l : list A) : option A := last l.

Definition vec_pop_back {A} (l : list A) : option (list A) :=
  match l with
  | [] => None
  | _ => Some (take (length l - 1) l)
  end.

(** [push_back] may have to allocate. *)
Definition push_back {A} (x : A) : M (list A) unit :=
  (allocate;; l <- get;; put (l ++ [x]))%ecs.

Definition pop_back {A} : M (list A) unit :=
  (l <- get;; l' <- defined (vec_pop_back l);; put l')%ecs.

(** [std::copy(src.begin(), src.end(), dst.begin())] *)
Definition std_copy {A} (src dst : list A) : option (list A) :=
  if decide (length src ≤ length dst)%nat then Some (src ++ drop (length src) dst) else None.

(** The allocator grants every request. *)
Definition granted (h : heap) : Prop := Forall (λ b, b = true) h.

(** What swap-and-pop at position [i] makes of a list: the last element
    takes the place of the [i]-th and the list loses its last place. *)
Definition swap_pop {A} (i : nat) (l : list A) : list A :=
  match last l with
  | Some x => take (length l - 1) (<[i := x]> l)
  | None => l
  end.

(** ** detail::type_family *)

Module type_family.

(** The static objects of the class templates: [last_id_] of
    [type_family_base<>], and the function-local [self_id] of
    [type_family<T>::id] for each [T] whose [id()] has run.  A type is
    named by a number. *)
Record statics : Type := mk {
  last_id_ : Z;
  self_ids : gmap nat Z
}.

(** The statics when the program starts. *)
Definition initial : statics := mk 0 ∅.

(** [type_family<T>::id()]: the first call initialises [self_id] with
    [++last_id_], in [family_id]; [None] where the assertion fails. *)
Definition id (T : nat) (s : statics) : option (Z * statics) :=
  let s' :=
    match self_ids s !! T with
    | Some _ => s
    | None =>
        let n := (last_id_ s + 1) mod family_id_modulus in
        mk n (<[T := n]> (self_ids s))
    end in
  self_id ← self_ids s' !! T;
  if bool_decide (self_id > 0) then Some (self_id, s') else None.

(** The ids that calls of [id()] for the types of a list return, one
    call after the other. *)
Fixpoint ids (Ts : list nat) (s : statics) : option (list Z * statics) :=
  match Ts with
  | [] => Some ([], s)
  | T :: Ts' =>
      '(x, s') ← id T s;
      '(xs, s'') ← ids Ts' s';
      Some (x :: xs, s'')
  end.

End type_family.

(** ** detail::sparse_set *)

Module sparse_set.

Record t : Type := mk {
  dense_ : list Z;
  sparse_ : list Z;
  size_ : Z;
  capacity_ : Z
}.

Definition empty : t := mk [] [] 0 0.

Definition set_dense (d : list Z) (s : t) : t := mk d (sparse_ s) (size_ s) (capacity_ s).
Definition set_sparse (p : list Z) (s : t) : t := mk (dense_ s) p (size_ s) (capacity_ s).
Definition set_size (n : Z) (s : t) : t := mk (dense_ s) (sparse_ s) n (capacity_ s).

Section with_indexer.

(** [Indexer]: the map from a value to its position in [sparse_]. *)
Variable indexer : Z → Z.

(** What [max_size()] returns: the smaller of the two vectors'
    [max_size()], a constant of the standard library. *)
Variable vector_max_size : Z.

Definition has (s : t) (v : Z) : option bool :=
  let vi := indexer v in
  if bool_decide (vi < capacity_ s) then
    p ← vec_at (sparse_ s) vi;
    if bool_decide (p < size_ s) then
      d ← vec_at (dense_ s) p;
      Some (bool_decide (d = v))
    else Some false
  else Some false.

Definition find_index (s : t) (v : Z) : option (Z * bool) :=
  b ← has s v;
  if b : bool then
    p ← vec_at (sparse_ s) (indexer v);
    Some (p, true)
  else Some (wrap_size_t (-1), false).

Definition get_index (v : Z) : M t Z :=
  (s <- get;;
   p <- defined (find_index s v);;
   if p.2 then ret p.1 else throw logic_error)%ecs.

(** The dense range [begin() .. end()). *)
Definition elements (s : t) : list Z := take (Z.to_nat (size_ s)) (dense_ s).

Definition max_size : Z := vector_max_size.

Definition new_capacity_for_ (nsize : Z) : M t Z :=
  (s <- get;;
   let ms := max_size in
   if bool_decide (nsize > ms) then throw length_error
   else if bool_decide (capacity_ s >= ms `div` 2) then ret ms
   else ret (Z.max (wrap_size_t (capacity_ s * 2)) nsize))%ecs.

(** [std::vector<T> v(n)]: [n] value-initialised elements.  The two
    vectors of a set are taken to have one [max_size()], that of the
    set.  Where a vector of [T] can be longer than one of [std::size_t],
    as for [T = entity_id] and [T = family_id], this is so for every [n]
    up to [max_size()], all that [insert] asks for; for an [n] above it,
    which only a caller of [reserve] can pass, the program can ask the
    allocator for [ndense] before [nsparse] throws, and the set is as it
    was either way. *)
Definition vector_new (n : Z) : M t (list Z) :=
  (if bool_decide (n > vector_max_size) then throw length_error
   else (allocate;; ret (replicate (Z.to_nat n) 0)))%ecs.

Definition reserve (ncapacity : Z) : M t unit :=
  (s <- get;;
   if bool_decide (ncapacity > capacity_ s) then
     ndense <- vector_new ncapacity;;
     nsparse <- vector_new ncapacity;;
     ndense' <- defined (std_copy (dense_ s) ndense);;
     nsparse' <- defined (std_copy (sparse_ s) nsparse);;
     put (mk ndense' nsparse' (size_ s) ncapacity)
   else ret tt)%ecs.

Definition insert (v : Z) : M t bool :=
  (s <- get;;
   b <- defined (has s v);;
   if b : bool then ret false
   else
     let vi := indexer v in
     (if bool_decide (vi >= capacity_ s) then
        nc <- new_capacity_for_ (wrap_size_t (vi + 1));;
        reserve nc
      else ret tt);;
     s <- get;;
     d <- defined (vec_store (dense_ s) (size_ s) v);;
     put (set_dense d s);;
     s <- get;;
     p <- defined (vec_store (sparse_ s) vi (size_ s));;
     put (set_sparse p s);;
     s <- get;;
     put (set_size (wrap_size_t (size_ s + 1)) s);;
     ret true)%ecs.

Definition unordered_erase (v : Z) : M t bool :=
  (s <- get;;
   b <- defined (has s v);;
   if negb b then ret false
   else
     let vi := indexer v in
     index <- defined (vec_at (sparse_ s) vi);;
     moved <- defined (vec_at (dense_ s) (wrap_size_t (size_ s - 1)));;
     d <- defined (vec_store (dense_ s) index moved);;
     put (set_dense d s);;
     s <- get;;
     w <- defined (vec_at (dense_ s) index);;
     p <- defined (vec_store (sparse_ s) (indexer w) index);;
     put (set_sparse p s);;
     s <- get;;
     put (set_size (wrap_size_t (size_ s - 1)) s);;
     ret true)%ecs.

Definition clear : M t unit :=
  (s <- get;; put (set_size 0 s))%ecs.

(** [emplace] builds the value from its arguments and inserts it; a
    value of the model stands for the arguments that make it. *)
Definition emplace (args : Z) : M t bool := insert args.

(** An iterator into the dense range is its distance from [begin()];
    [end()] is at [size_]. *)
Definition find (s : t) (v : Z) : option Z :=
  let vi := indexer v in
  b ← has s v;
  if b : bool then vec_at (sparse_ s) vi else Some (size_ s).

Definition size (s : t) : Z := size_ s.

Definition capacity (s : t) : Z := capacity_ s.

(** *** Well-formed sparse sets *)

(** Both vectors have [capacity_] elements, the dense range fits, stored
    positions are sizes, and [sparse_] sends the index of every value of
    the dense range back to the place of that value. *)
Record wf (s : t) : Prop := {
  wf_size : 0 ≤ size_ s ≤ capacity_ s;
  wf_capacity : capacity_ s ≤ vector_max_size;
  wf_dense : Z.of_nat (length (dense_ s)) = capacity_ s;
  wf_sparse : Z.of_nat (length (sparse_ s)) = capacity_ s;
  wf_positions : Forall (λ p, 0 ≤ p) (sparse_ s);
  wf_slot : ∀ (i : nat) (v : Z), elements s !! i = Some v →
    indexer v < capacity_ s ∧ sparse_ s !! Z.to_nat (indexer v) = Some (Z.of_nat i)
}.

(** The set after [reserve] has grown it to [nc] places. *)
Definition grown (nc : Z) (s : t) : t :=
  mk (dense_ s ++ replicate (Z.to_nat nc - length (dense_ s)) 0)
     (sparse_ s ++ replicate (Z.to_nat nc - length (sparse_ s)) 0)
     (size_ s) nc.

(** The set after [insert] has stored [v] behind the dense range. *)
Definition placed (v : Z) (s : t) : t :=
  set_size (size_ s + 1)
    (set_sparse (<[Z.to_nat (indexer v) := size_ s]> (sparse_ s))
       (set_dense (<[Z.to_nat (size_ s) := v]> (dense_ s)) s)).

(** No other value of the dense range has the index of [v]. *)
Definition slot_free (s : t) (v : Z) : Prop :=
  ∀ u, u ∈ elements s → indexer u = indexer v → u = v.

End with_indexer.

End sparse_set.

(** ** detail::sparse_map *)

Module sparse_map.

Record t (T : Type) : Type := mk {
  keys_ : sparse_set.t;
  values_ : list T
}.
Arguments mk {T} keys_ values_.
Arguments keys_ {T} _.
Arguments values_ {T} _.

Definition empty {T} : t T := mk sparse_set.empty [].

Definition set_keys {T} (ks : sparse_set.t) (m : t T) : t T := mk ks (values_ m).
Definition set_values {T} (vs : list T) (m : t T) : t T := mk (keys_ m) vs.

Section with_indexer.

Context {T : Type}.
Variable indexer : Z → Z.
Variable vector_max_size : Z.

(** The range [begin() .. end()) is that of [keys_]. *)
Definition keys (m : t T) : list Z := sparse_set.elements (keys_ m).

Definition has (m : t T) (k : Z) : option bool :=
  sparse_set.has indexer (keys_ m) k.

Definition insert (k : Z) (v : T) : M (t T) bool :=
  (m <- get;;
   b <- defined (has m k);;
   if b : bool then ret false
   else
     on_member values_ set_values (push_back v);;
     try_rethrow
       (on_member keys_ set_keys (sparse_set.insert indexer vector_max_size k))
       (on_member values_ set_values pop_back))%ecs.

(** [emplace] builds the value in place from its arguments; a value of
    the model stands for the arguments that make it. *)
Definition emplace (k : Z) (args : T) : M (t T) bool :=
  (m <- get;;
   b <- defined (has m k);;
   if b : bool then ret false
   else
     on_member values_ set_values (push_back args);;
     try_rethrow
       (on_member keys_ set_keys (sparse_set.insert indexer vector_max_size k))
       (on_member values_ set_values pop_back))%ecs.

Definition unordered_erase (k : Z) : M (t T) bool :=
  (m <- get;;
   b <- defined (has m k);;
   if negb b then ret false
   else
     index <- on_member keys_ set_keys (sparse_set.get_index indexer k);;
     m <- get;;
     back <- defined (vec_back (values_ m));;
     vs <- defined (vec_store (values_ m) index back);;
     put (set_values vs m);;
     on_member values_ set_values pop_back;;
     on_member keys_ set_keys (sparse_set.unordered_erase indexer k);;
     ret true)%ecs.

Definition clear : M (t T) unit :=
  (on_member keys_ set_keys sparse_set.clear;;
   m <- get;; put (set_values [] m))%ecs.

(** Reading through the reference [get_value(k)] returns. *)
Definition get_value (k : Z) : M (t T) T :=
  (index <- on_member keys_ set_keys (sparse_set.get_index indexer k);;
   m <- get;;
   defined (vec_at (values_ m) index))%ecs.

(** The statement [get_value(k) = v]. *)
Definition get_value_assign (k : Z) (v : T) : M (t T) unit :=
  (index <- on_member keys_ set_keys (sparse_set.get_index indexer k);;
   m <- get;;
   vs <- defined (vec_store (values_ m) index v);;
   put (set_values vs m))%ecs.

(** [find_value]: [Some None] is the null pointer, [Some (Some x)] a
    pointer to the stored [x]. *)
Definition find_value (m : t T) (k : Z) : option (option T) :=
  ip ← sparse_set.find_index indexer (keys_ m) k;
  if (snd ip : bool) then x ← vec_at (values_ m) (fst ip); Some (Some x)
  else Some None.

Definition reserve (ncapacity : Z) : M (t T) unit :=
  (on_member keys_ set_keys (sparse_set.reserve vector_max_size ncapacity);;
   allocate)%ecs.

Definition size (m : t T) : Z := Z.of_nat (length (values_ m)).

(** *** Well-formed sparse maps *)

Record wf (m : t T) : Prop := {
  wf_keys : sparse_set.wf indexer vector_max_size (keys_ m);
  wf_values : Z.of_nat (length (values_ m)) = sparse_set.size_ (keys_ m)
}.

(** The value stored with [k]. *)
Definition lookup (m : t T) (k : Z) : option T :=
  match list_find (λ u, u = k) (keys m) with
  | Some (i, _) => values_ m !! i
  | None => None
  end.

End with_indexer.

End sparse_map.

(** ** detail::sparse_indexer and detail::entity_id_indexer *)

(** [static_cast<std::size_t>(v)] *)
Definition sparse_unsigned_indexer (v : Z) : Z := wrap_size_t v.

Definition entity_id_indexer (id : Z) : Z := entity_id_index id.

(** ** Runs of calls on a sparse set and on a sparse map *)

Inductive set_call : Type :=
| SetInsert (v : Z)
| SetUnorderedErase (v : Z)
| SetClear
| SetReserve (ncapacity : Z).

Definition run_set_call (indexer : Z → Z) (vector_max_size : Z) (c : set_call)
    : M sparse_set.t unit :=
  match c with
  | SetInsert v => (sparse_set.insert indexer vector_max_size v;; ret tt)%ecs
  | SetUnorderedErase v => (sparse_set.unordered_erase indexer v;; ret tt)%ecs
  | SetClear => sparse_set.clear
  | SetReserve ncapacity => sparse_set.reserve vector_max_size ncapacity
  end.

(** The set that a list of calls leaves, each with the answers the
    allocator gives during it; a call that throws leaves the set to the
    calls after it. *)
Fixpoint run_set_calls (indexer : Z → Z) (vector_max_size : Z)
    (cs : list (set_call * heap)) (s : sparse_set.t) : option sparse_set.t :=
  match cs with
  | [] => Some s
  | (c, h) :: cs' =>
      s' ← left_by (run_set_call indexer vector_max_size c s h);
      run_set_calls indexer vector_max_size cs' s'
  end.

(** The values a key type narrower than [std::size_t] has, and those of
    [std::size_t] itself but for the largest, whose index plus one is 0. *)
Definition is_key (v : Z) : Prop := 0 ≤ v < size_t_modulus - 1.

Definition set_call_ok (c : set_call) : Prop :=
  match c with
  | SetInsert v => is_key v
  | _ => True
  end.

Inductive map_call (T : Type) : Type :=
| MapInsert (k : Z) (v : T)
| MapEmplace (k : Z) (args : T)
| MapUnorderedErase (k : Z)
| MapClear
| MapGetValueAssign (k : Z) (v : T)
| MapReserve (ncapacity : Z).
Arguments MapInsert {T} k v.
Arguments MapEmplace {T} k args.
Arguments MapUnorderedErase {T} k.
Arguments MapClear {T}.
Arguments MapGetValueAssign {T} k v.
Arguments MapReserve {T} ncapacity.

Definition run_map_call {T} (indexer : Z → Z) (vector_max_size : Z) (c : map_call T)
    : M (sparse_map.t T) unit :=
  match c with
  | MapInsert k v => (sparse_map.insert indexer vector_max_size k v;; ret tt)%ecs
  | MapEmplace k args => (sparse_map.emplace indexer vector_max_size k args;; ret tt)%ecs
  | MapUnorderedErase k => (sparse_map.unordered_erase indexer k;; ret tt)%ecs
  | MapClear => sparse_map.clear
  | MapGetValueAssign k v => sparse_map.get_value_assign indexer k v
  | MapReserve ncapacity => sparse_map.reserve vector_max_size ncapacity
  end.

(** What a call makes of the pairing of keys with values, told in the
    words of the specification: an insert pairs a key that has no value,
    an overwrite pairs a key that has one, an erase unpairs; a call that
    throws pairs and unpairs nothing. *)
Definition pairing_after {T} (c : map_call T) (ok : bool) (g : gmap Z T) : gmap Z T :=
  if ok then
    match c with
    | MapInsert k v | MapEmplace k v =>
        match g !! k with
        | None => <[k := v]> g
        | Some _ => g
        end
    | MapUnorderedErase k => delete k g
    | MapClear => ∅
    | MapGetValueAssign k v => <[k := v]> g
    | MapReserve _ => g
    end
  else g.

Fixpoint run_map_calls {T} (indexer : Z → Z) (vector_max_size : Z)
    (cs : list (map_call T * heap)) (m : sparse_map.t T) (g : gmap Z T)
    : option (sparse_map.t T * gmap Z T) :=
  match cs with
  | [] => Some (m, g)
  | (c, h) :: cs' =>
      let o := run_map_call indexer vector_max_size c m h in
      m' ← left_by o;
      run_map_calls indexer vector_max_size cs' m' (pairing_after c (returned o) g)
  end.

Definition map_call_ok {T} (c : map_call T) : Prop :=
  match c with
  | MapInsert k _ | MapEmplace k _ => is_key k
  | _ => True
  end.

(** The map [m] holds the pairing [g]: it is well formed, its keys are
    keys, and it stores with each key what [g] pairs with it. *)
Definition map_invariant {T} (vector_max_size : Z) (m : sparse_map.t T) (g : gmap Z T)
    : Prop :=
  sparse_map.wf sparse_unsigned_indexer vector_max_size m ∧
  Forall is_key (sparse_map.keys m) ∧
  ∀ k, sparse_map.lookup m k = g !! k.

(** ** detail::component_storage *)

Module component_storage.

(** The reference [owner_] plays no part in what follows. *)
Record t (T : Type) : Type := mk {
  components_ : sparse_map.t T
}.
Arguments mk {T} components_.
Arguments components_ {T} _.

Definition empty {T} : t T := mk sparse_map.empty.

Definition set_components {T} (c : sparse_map.t T) (s : t T) : t T := mk c.

Section with_component.

Context {T : Type}.
Variable vector_max_size : Z.

Definition assign (id : Z) (args : T) : M (t T) unit :=
  (b <- on_member components_ set_components
          (sparse_map.emplace entity_id_indexer vector_max_size id args);;
   if negb b then
     on_member components_ set_components
       (sparse_map.get_value_assign entity_id_indexer id args)
   else ret tt)%ecs.

Definition remove (id : Z) : M (t T) bool :=
  on_member components_ set_components
    (sparse_map.unordered_erase entity_id_indexer id).

Definition exists_ (s : t T) (id : Z) : option bool :=
  sparse_map.has entity_id_indexer (components_ s) id.

Definition find (s : t T) (id : Z) : option (option T) :=
  sparse_map.find_value entity_id_indexer (components_ s) id.

(** The visitor is a function of what it has gathered so far, the
    entity and the component; a throw of [get_value] inside this
    [noexcept] function ends the program, which [None] covers too. *)
Definition for_each_component {A} (f : A → Z → T → A) (s : t T) (a : A) : option A :=
  foldl (λ acc id,
           a ← acc;
           match sparse_map.get_value entity_id_indexer id (components_ s) [] with
           | Normal c _ _ => Some (f a id c)
           | _ => None
           end)
        (Some a) (sparse_map.keys (components_ s)).

End with_component.

End component_storage.

(** ** registry *)

Module registry.

(** A component type is known to the registry by the family id that
    [detail::type_family<T>::id()] gives it, a non-zero [family_id].
    The components of all types are values of one type [Comp].  The
    systems of a registry play no part in what follows. *)
Record t (Comp : Type) : Type := mk {
  last_entity_id_ : Z;
  free_entity_ids_ : list Z;
  entity_ids_ : sparse_set.t;
  storages_ : sparse_map.t (component_storage.t Comp)
}.
Arguments mk {Comp} last_entity_id_ free_entity_ids_ entity_ids_ storages_.
Arguments last_entity_id_ {Comp} _.
Arguments free_entity_ids_ {Comp} _.
Arguments entity_ids_ {Comp} _.
Arguments storages_ {Comp} _.

Definition empty {Comp} : t Comp := mk 0 [] sparse_set.empty sparse_map.empty.

Section with_component.

Context {Comp : Type}.
Variable vector_max_size : Z.

Local Abbreviation storage := (component_storage.t Comp).
Local Abbreviation registry := (t Comp).

Definition set_last_entity_id (n : Z) (r : registry) : registry :=
  mk n (free_entity_ids_ r) (entity_ids_ r) (storages_ r).
Definition set_free_entity_ids (l : list Z) (r : registry) : registry :=
  mk (last_entity_id_ r) l (entity_ids_ r) (storages_ r).
Definition set_entity_ids (s : sparse_set.t) (r : registry) : registry :=
  mk (last_entity_id_ r) (free_entity_ids_ r) s (storages_ r).
Definition set_storages (m : sparse_map.t storage) (r : registry) : registry :=
  mk (last_entity_id_ r) (free_entity_ids_ r) (entity_ids_ r) m.

Definition is_entity_alive_impl_ (r : registry) (ent : Z) : option bool :=
  sparse_set.has entity_id_indexer (entity_ids_ r) ent.

Definition is_entity_alive (r : registry) (ent : Z) : option bool :=
  is_entity_alive_impl_ r ent.

Definition create_entity : M registry Z :=
  (r <- get;;
   if negb (bool_decide (free_entity_ids_ r = [])) then
     free_ent_id <- defined (vec_back (free_entity_ids_ r));;
     let new_ent_id :=
       entity_id_join
         (entity_id_index free_ent_id)
         ((entity_id_version free_ent_id + 1) mod entity_id_modulus) in
     on_member entity_ids_ set_entity_ids
       (sparse_set.insert entity_id_indexer vector_max_size new_ent_id);;
     on_member free_entity_ids_ set_free_entity_ids pop_back;;
     ret new_ent_id
   else if bool_decide (last_entity_id_ r < entity_id_index_mask) then
     put (set_last_entity_id ((last_entity_id_ r + 1) mod entity_id_modulus) r);;
     r <- get;;
     let ent := last_entity_id_ r in
     on_member entity_ids_ set_entity_ids
       (sparse_set.insert entity_id_indexer vector_max_size ent);;
     ret ent
   else throw logic_error)%ecs.

(** [None]: the null pointer.  A [noexcept] function that throws ends
    the program. *)
Definition find_storage_ (r : registry) (family : Z) : option (option storage) :=
  b ← sparse_map.has sparse_unsigned_indexer (storages_ r) family;
  if b : bool then
    match sparse_map.get_value sparse_unsigned_indexer family (storages_ r) [] with
    | Normal st _ _ => Some (Some st)
    | _ => None
    end
  else Some None.

(** Run a member function of the storage that
    [storages_.get_value(family)] owns. *)
Definition on_storage {A} (family : Z) (m : M storage A) : M registry A :=
  (index <- on_member storages_ set_storages
              (on_member sparse_map.keys_ sparse_map.set_keys
                 (sparse_set.get_index sparse_unsigned_indexer family));;
   r <- get;;
   st <- defined (vec_at (sparse_map.values_ (storages_ r)) index);;
   λ r h,
     match m st h with
     | Normal a st' h' =>
         Normal a
           (set_storages
              (sparse_map.set_values
                 (<[Z.to_nat index := st']> (sparse_map.values_ (storages_ r)))
                 (storages_ r)) r) h'
     | Raised e st' h' =>
         Raised e
           (set_storages
              (sparse_map.set_values
                 (<[Z.to_nat index := st']> (sparse_map.values_ (storages_ r)))
                 (storages_ r)) r) h'
     | Undefined => Undefined
     end)%ecs.

(** After the call [storages_.get_value(family)] is the storage. *)
Definition get_or_create_storage_ (family : Z) : M registry unit :=
  (r <- get;;
   st <- defined (find_storage_ r family);;
   match st with
   | Some _ => ret tt
   | None =>
       allocate;;
       on_member storages_ set_storages
         (sparse_map.emplace sparse_unsigned_indexer vector_max_size family
            component_storage.empty);;
       on_storage family (ret tt)
   end)%ecs.

Fixpoint remove_all_components_loop_ (ids : list Z) (ent : Z) (removed_components : Z)
    : M registry Z :=
  match ids with
  | [] => ret removed_components
  | id :: ids' =>
      (b <- on_storage id (component_storage.remove ent);;
       remove_all_components_loop_ ids' ent
         (if b : bool then wrap_size_t (removed_components + 1) else removed_components))%ecs
  end.

Definition remove_all_components_impl_ (ent : Z) : M registry Z :=
  (r <- get;;
   alive <- defined (is_entity_alive_impl_ r ent);;
   if negb alive then ret 0
   else remove_all_components_loop_ (sparse_map.keys (storages_ r)) ent 0)%ecs.

Definition remove_all_components (ent : Z) : M registry Z :=
  remove_all_components_impl_ ent.

Definition destroy_entity (ent : Z) : M registry bool :=
  (remove_all_components_impl_ ent;;
   b <- on_member entity_ids_ set_entity_ids
          (sparse_set.unordered_erase entity_id_indexer ent);;
   if b : bool then
     on_member free_entity_ids_ set_free_entity_ids (push_back ent);;
     ret true
   else ret false)%ecs.

Definition assign_component (family : Z) (ent : Z) (args : Comp) : M registry bool :=
  (r <- get;;
   alive <- defined (is_entity_alive_impl_ r ent);;
   if negb alive then ret false
   else
     get_or_create_storage_ family;;
     on_storage family (component_storage.assign vector_max_size ent args);;
     ret true)%ecs.

(** As written, [remove_component<T>] calls [remove], which is not
    [const], through a pointer to a [const] storage, so that a program
    that instantiates it is rejected; the definition is of the function
    with the pointer the non-[const] [find_storage_] returns.  It is
    among the calls of [call] below: the states a registry reaches
    without it are among those it reaches with it. *)
Definition remove_component (family : Z) (ent : Z) : M registry bool :=
  (r <- get;;
   alive <- defined (is_entity_alive_impl_ r ent);;
   if negb alive then ret false
   else
     st <- defined (find_storage_ r family);;
     match st with
     | Some _ => on_storage family (component_storage.remove ent)
     | None => ret false
     end)%ecs.

Definition exists_component (r : registry) (family : Z) (ent : Z) : option bool :=
  alive ← is_entity_alive_impl_ r ent;
  if negb alive then Some false
  else
    st ← find_storage_ r family;
    match st with
    | Some st => component_storage.exists_ st ent
    | None => Some false
    end.

Definition find_component_impl_ (r : registry) (family : Z) (ent : Z)
    : option (option Comp) :=
  st ← find_storage_ r family;
  match st with
  | Some st => component_storage.find st ent
  | None => Some None
  end.

Definition find_component (r : registry) (family : Z) (ent : Z)
    : option (option Comp) :=
  find_component_impl_ r family ent.

Definition get_component (family : Z) (ent : Z) : M registry Comp :=
  (r <- get;;
   component <- defined (find_component_impl_ r family ent);;
   match component with
   | Some c => ret c
   | None => throw logic_error
   end)%ecs.

(** [get_components<Ts...>]: the components in the order of the type
    list.  The calls of [get_component] are arguments of one call of
    [std::make_tuple], so the language does not fix their order; they are
    run here from left to right. *)
Fixpoint get_components (families : list Z) (ent : Z) : M registry (list Comp) :=
  match families with
  | [] => ret []
  | family :: families' =>
      (c <- get_component family ent;;
       cs <- get_components families' ent;;
       ret (c :: cs))%ecs
  end.

Definition find_components (r : registry) (families : list Z) (ent : Z)
    : option (list (option Comp)) :=
  mapM (λ family, find_component r family ent) families.

(** The statement [get_component<T>(ent) = v] of a caller. *)
Definition get_component_assign (family : Z) (ent : Z) (v : Comp) : M registry unit :=
  (r <- get;;
   component <- defined (find_component_impl_ r family ent);;
   match component with
   | Some _ =>
       on_storage family
         (on_member component_storage.components_ component_storage.set_components
            (sparse_map.get_value_assign entity_id_indexer ent v))
   | None => throw logic_error
   end)%ecs.

Definition for_each_component {A} (family : Z) (f : A → Z → Comp → A)
    (r : registry) (a : A) : option A :=
  st ← find_storage_ r family;
  match st with
  | Some st => component_storage.for_each_component f st a
  | None => Some a
  end.

(** [detail::tuple_contains(ss, nullptr)] *)
Fixpoint tuple_contains_nullptr (ss : list (option storage)) : bool :=
  match ss with
  | [] => false
  | s :: ss' => if s is None then true else tuple_contains_nullptr ss'
  end.

(** The overloads of [for_joined_components_impl_] that take an entity:
    probe the storages left in [ss], gathering the components in [cs];
    [Some (Some cs)] is the call [f(e, cs...)]. *)
Fixpoint for_joined_components_probe_ (e : Z) (ss : list (option storage))
    (cs : list Comp) : option (option (list Comp)) :=
  match ss with
  | [] => Some (Some cs)
  | s :: ss' =>
      st ← s;
      c ← component_storage.find st e;
      match c with
      | Some c => for_joined_components_probe_ e ss' (cs ++ [c])
      | None => Some None
      end
  end.

(** The type list is [T, Ts...]; the visitor gets the entity and the
    components in the order of the list.  The visitor handed to
    [for_each_component] probes the other storages before it calls [f];
    what it gathers is [None] once a probe has left defined behaviour. *)
Definition for_joined_components {A} (T : Z) (Ts : list Z)
    (f : A → Z → list Comp → A) (r : registry) (a : A) : option A :=
  ss ← mapM (find_storage_ r) Ts;
  if negb (tuple_contains_nullptr ss) then
    mjoin (for_each_component T
             (λ (acc : option A) e t,
                a ← acc;
                cs ← for_joined_components_probe_ e ss [t];
                match cs with
                | Some cs => Some (f a e cs)
                | None => Some a
                end)
             r (Some a))
  else Some a.

(** The registry with [st] in the place [i] of the storage table. *)
Definition update_storage (i : nat) (st : storage) (r : registry) : registry :=
  set_storages
    (sparse_map.set_values (<[i := st]> (sparse_map.values_ (storages_ r))) (storages_ r))
    r.

(** *** Well-formed registries *)

(** The entities alive: the dense range of [entity_ids_]. *)
Definition live (r : registry) : list Z := sparse_set.elements (entity_ids_ r).

(** What the registry asks of a storage: its map is well formed and
    its keys are entities alive. *)
Definition storage_ok (r : registry) (st : storage) : Prop :=
  sparse_map.wf entity_id_indexer vector_max_size (component_storage.components_ st) ∧
  ∀ e, e ∈ sparse_map.keys (component_storage.components_ st) → e ∈ live r.

Definition is_family_id (family : Z) : Prop := 0 < family < family_id_modulus.

Record wf (r : registry) : Prop := {
  wf_last : 0 ≤ last_entity_id_ r ≤ entity_id_index_mask;
  wf_entity_ids : sparse_set.wf entity_id_indexer vector_max_size (entity_ids_ r);
  wf_live : ∀ e, e ∈ live r → entity_id_index e ≤ last_entity_id_ r;
  wf_free : ∀ f, f ∈ free_entity_ids_ r →
    entity_id_index f ≤ last_entity_id_ r ∧
    entity_id_index f < sparse_set.capacity_ (entity_ids_ r);
  wf_free_NoDup : NoDup (entity_id_index <$> free_entity_ids_ r);
  wf_free_live : ∀ f e, f ∈ free_entity_ids_ r → e ∈ live r →
    entity_id_index f ≠ entity_id_index e;
  wf_storages : sparse_map.wf sparse_unsigned_indexer vector_max_size (storages_ r);
  wf_families : ∀ family, family ∈ sparse_map.keys (storages_ r) → is_family_id family;
  wf_components : ∀ st, st ∈ sparse_map.values_ (storages_ r) → storage_ok r st
}.

(** The handle [e] is dead and [create_entity] cannot bring it back:
    no id on the free list with the index of [e] but [e] itself. *)
Definition buried (e : Z) (r : registry) : Prop :=
  wf r ∧ (e ∉ live r) ∧ entity_id_index e ≤ last_entity_id_ r ∧
  ∀ f, f ∈ free_entity_ids_ r → entity_id_index f = entity_id_index e → f = e.

(** *** The states a registry can be in *)

(** The calls a client can make that change a registry. *)
Inductive call : Type :=
| CreateEntity
| DestroyEntity (ent : Z)
| AssignComponent (family : Z) (ent : Z) (args : Comp)
| RemoveComponent (family : Z) (ent : Z)
| RemoveAllComponents (ent : Z)
| GetComponentAssign (family : Z) (ent : Z) (v : Comp).

Definition call_family_ok (c : call) : Prop :=
  match c with
  | AssignComponent family _ _ | RemoveComponent family _
  | GetComponentAssign family _ _ => is_family_id family
  | _ => True
  end.

Definition run_call (c : call) : M registry unit :=
  match c with
  | CreateEntity => (create_entity;; ret tt)%ecs
  | DestroyEntity ent => (destroy_entity ent;; ret tt)%ecs
  | AssignComponent family ent args => (assign_component family ent args;; ret tt)%ecs
  | RemoveComponent family ent => (remove_component family ent;; ret tt)%ecs
  | RemoveAllComponents ent => (remove_all_components ent;; ret tt)%ecs
  | GetComponentAssign family ent v => get_component_assign family ent v
  end.

Inductive reachable : registry → Prop :=
| reachable_empty : reachable empty
| reachable_call r c h r' :
    reachable r → call_family_ok c → left_by (run_call c r h) = Some r' →
    reachable r'.

(** The registry that a list of calls leaves, each with the answers
    the allocator gives during it. *)
Fixpoint run_calls (cs : list (call * heap)) (r : registry) : option registry :=
  match cs with
  | [] => Some r
  | (c, h) :: cs' => r' ← left_by (run_call c r h); run_calls cs' r'
  end.

(** Calls of [create_entity] one after the other. *)
Fixpoint create_entities (hs : list heap) (r : registry) : option registry :=
  match hs with
  | [] => Some r
  | h :: hs' => r' ← left_by (create_entity r h); create_entities hs' r'
  end.

(** A client that destroys its entity and creates one in its place,
    [n] times over, and ends with the entity made last. *)
Fixpoint recycle (n : nat) (ent : Z) : M registry Z :=
  match n with
  | O => ret ent
  | S n' => (destroy_entity ent;; e <- create_entity;; recycle n' e)%ecs
  end.

(** The dense order of the storage of a component type: the range that
    [for_each_component] walks; empty when the type has no storage. *)
Definition dense_order (r : registry) (family : Z) : list Z :=
  match find_storage_ r family with
  | Some (Some st) => sparse_map.keys (component_storage.components_ st)
  | _ => []
  end.

End with_component.

End registry.

(** ** Small registries to run the code on *)

(** A value of [max_size()]: what [std::vector<std::size_t>] has with
    libstdc++ where [std::size_t] is 64 bits wide. *)
Definition platform_max_size : Z := 2 ^ 60 - 1.

Definition registry_after (cs : list (registry.call (Comp:=Z) * heap)) : registry.t Z :=
  default registry.empty (registry.run_calls platform_max_size cs registry.empty).

(** One entity, with id 1. *)
Definition one_entity_calls : list (registry.call (Comp:=Z) * heap) :=
  [(registry.CreateEntity, [])].
Definition one_entity : registry.t Z := registry_after one_entity_calls.

(** The entity with id 1 made and destroyed. *)
Definition one_destroyed_calls : list (registry.call (Comp:=Z) * heap) :=
  [(registry.CreateEntity, []); (registry.DestroyEntity 1, [])].
Definition one_destroyed : registry.t Z := registry_after one_destroyed_calls.

(** The index 1 used again: the entity alive has id [1 + 2^22], and a
    component of the type with family id 1. *)
Definition index_reused_calls : list (registry.call (Comp:=Z) * heap) :=
  [(registry.CreateEntity, []); (registry.DestroyEntity 1, []);
   (registry.CreateEntity, []); (registry.AssignComponent 1 4194305 7, [])].
Definition index_reused : registry.t Z := registry_after index_reused_calls.

(** The entity with id 1 and a component of the type with family id 1. *)
Definition one_assigned_calls : list (registry.call (Comp:=Z) * heap) :=
  [(registry.CreateEntity, []); (registry.AssignComponent 1 1 7, [])].
Definition one_assigned : registry.t Z := registry_after one_assigned_calls.

(** The entity with id 1 made, then destroyed by a call during which
    the allocator refuses the free list its room. *)
Definition destroy_failed_calls : list (registry.call (Comp:=Z) * heap) :=
  [(registry.CreateEntity, []); (registry.DestroyEntity 1, [false])].
Definition destroy_failed : registry.t Z := registry_after destroy_failed_calls.

(** And an entity made after that. *)
Definition after_destroy_failed_calls : list (registry.call (Comp:=Z) * heap) :=
  destroy_failed_calls ++ [(registry.CreateEntity, [])].
Definition after_destroy_failed : registry.t Z :=
  registry_after after_destroy_failed_calls.

(** Calls on a sparse set and on a sparse map, one of them failing. *)
Definition some_set_calls : list (set_call * heap) :=
  [(SetInsert 3, []); (SetInsert 5, [false]); (SetInsert 1, []); (SetInsert 4, [])].

Definition some_map_calls : list (map_call Z * heap) :=
  [(MapInsert 3 10, []); (MapEmplace 5 50, [true; false]); (MapInsert 1 11, [])].

(** The storage of the type with family id 1 in [one_assigned]. *)
Definition one_assigned_storage : component_storage.t Z :=
  default component_storage.empty (mjoin (registry.find_storage_ one_assigned 1)).

(** ** Entity ids *)

Lemma entity_id_index_mask_val : entity_id_index_mask = 2 ^ 22 - 1.
Proof. reflexivity. Qed.

Lemma entity_id_index_mod id : entity_id_index id = id mod 2 ^ 22.
Proof.
  unfold entity_id_index. rewrite entity_id_index_mask_val.
  change (2 ^ 22 - 1) with (Z.ones 22). by rewrite Z.land_ones.
Qed.

Lemma entity_id_version_mod id : entity_id_version id = (id `div` 2 ^ 22) mod 2 ^ 10.
Proof.
  unfold entity_id_version, entity_id_version_mask, entity_id_version_bits, entity_id_index_bits.
  change (Z.shiftl 1 10 - 1) with (Z.ones 10).
  rewrite Z.land_ones by done. by rewrite Z.shiftr_div_pow2.
Qed.

Lemma entity_id_index_range id : 0 ≤ entity_id_index id ≤ entity_id_index_mask.
Proof.
  rewrite entity_id_index_mod, entity_id_index_mask_val.
  pose proof (Z.mod_pos_bound id (2 ^ 22)). lia.
Qed.

Lemma entity_id_index_small id :
  0 ≤ id ≤ entity_id_index_mask → entity_id_index id = id.
Proof.
  rewrite entity_id_index_mod, entity_id_index_mask_val. intros.
  apply Z.mod_small. lia.
Qed.

Lemma entity_id_join_sum index version :
  0 ≤ index < 2 ^ 22 →
  entity_id_join index version = index + (version mod 2 ^ 10) * 2 ^ 22.
Proof.
  intros Hi. unfold entity_id_join, entity_id_index_bits, entity_id_modulus.
  rewrite Z.shiftl_mul_pow2 by done.
  change (2 ^ 32) with (2 ^ 10 * 2 ^ 22).
  rewrite Z.mul_mod_distr_r by done.
  set (k := version mod 2 ^ 10).
  rewrite <- Z.lxor_lor, <- Z.add_nocarry_lxor; try done.
  all: apply Z.bits_inj'; intros n Hn; rewrite Z.land_spec, Z.bits_0.
  all: destruct (decide (n < 22)).
  all: try (rewrite <- (Z.shiftl_mul_pow2 k 22) by done;
            rewrite Z.shiftl_spec_low by lia; apply andb_false_r).
  all: rewrite <- (Z.mod_small index (2 ^ 22)) by lia.
  all: rewrite Z.mod_pow2_bits_high by lia; done.
Qed.

Lemma entity_id_index_join index version :
  0 ≤ index < 2 ^ 22 → entity_id_index (entity_id_join index version) = index.
Proof.
  intros Hi. rewrite entity_id_join_sum by done. rewrite entity_id_index_mod.
  rewrite Z.mod_add by done. by apply Z.mod_small.
Qed.

Lemma entity_id_version_join index version :
  0 ≤ index < 2 ^ 22 →
  entity_id_version (entity_id_join index version) = version mod 2 ^ 10.
Proof.
  intros Hi. rewrite entity_id_join_sum by done. rewrite entity_id_version_mod.
  rewrite Z.div_add by done. rewrite Z.div_small by done. simpl.
  apply Z.mod_small. apply Z.mod_pos_bound. done.
Qed.

Lemma entity_id_version_range id : 0 ≤ entity_id_version id < 2 ^ 10.
Proof. rewrite entity_id_version_mod. by apply Z.mod_pos_bound. Qed.

(** The id that [create_entity] makes of a freed id differs from it. *)
Lemma entity_id_bump_ne f :
  entity_id_join (entity_id_index f)
    ((entity_id_version f + 1) mod entity_id_modulus) ≠ f.
Proof.
  intros Heq. apply (f_equal entity_id_version) in Heq.
  pose proof (entity_id_index_range f) as Hi. rewrite entity_id_index_mask_val in Hi.
  rewrite entity_id_version_join in Heq by lia.
  pose proof (entity_id_version_range f) as Hv.
  unfold entity_id_modulus in Heq.
  rewrite (Z.mod_small (_ + 1) (2 ^ 32)) in Heq by lia.
  destruct (decide (entity_id_version f = 2 ^ 10 - 1)) as [E|E].
  - rewrite E in Heq. vm_compute in Heq. done.
  - rewrite Z.mod_small in Heq by lia. lia.
Qed.

Lemma sparse_unsigned_indexer_range v : 0 ≤ sparse_unsigned_indexer v < size_t_modulus.
Proof. apply Z.mod_pos_bound. done. Qed.

Lemma entity_id_indexer_range v : 0 ≤ entity_id_indexer v < size_t_modulus.
Proof.
  pose proof (entity_id_index_range v) as H. rewrite entity_id_index_mask_val in H.
  unfold entity_id_indexer, size_t_modulus. lia.
Qed.

(** * Properties *)

(** ** Lists and the monad *)

Lemma granted_tail b h : granted (b :: h) → granted h.
Proof. intros H. by apply Forall_cons in H as [_ H]. Qed.

Lemma granted_head b h : granted (b :: h) → b = true.
Proof. intros H. by apply Forall_cons in H as [H _]. Qed.

Lemma granted_nil : granted [].
Proof. constructor. Qed.

Lemma swap_pop_lookup {A} (l : list A) (i j : nat) :
  (i < length l)%nat →
  swap_pop i l !! j =
    if decide (j < length l - 1)%nat
    then (if decide (j = i) then last l else l !! j)
    else None.
Proof.
  intros Hi. unfold swap_pop.
  destruct (last l) as [x|] eqn:Hl.
  - rewrite lookup_take. destruct (decide (j < length l - 1)%nat); [|done].
    destruct (decide (j = i)) as [->|].
    + by rewrite list_lookup_insert_eq.
    + by rewrite list_lookup_insert_ne.
  - apply last_None in Hl. subst l. simpl in Hi. lia.
Qed.

Lemma swap_pop_length {A} (l : list A) (i : nat) :
  length (swap_pop i l) = (length l - 1)%nat.
Proof.
  unfold swap_pop. destruct (last l) eqn:Hl.
  - rewrite length_take, length_insert. lia.
  - apply last_None in Hl. by subst l.
Qed.

Lemma swap_pop_elem_of {A} (l : list A) (i : nat) (v u : A) :
  NoDup l → l !! i = Some v →
  u ∈ swap_pop i l ↔ u ∈ l ∧ u ≠ v.
Proof.
  intros Hnd Hi.
  assert (i < length l)%nat as Hlt by (by eapply lookup_lt_Some).
  rewrite !list_elem_of_lookup. split.
  - intros [j Hj]. rewrite swap_pop_lookup in Hj by done.
    destruct (decide (j < length l - 1)%nat) as [Hj1|]; [|done].
    destruct (decide (j = i)) as [->|Hne].
    + rewrite last_lookup in Hj. split; [eauto|].
      intros ->. pose proof (proj1 (NoDup_alt l) Hnd _ _ _ Hj Hi). lia.
    + split; [eauto|]. intros ->. by pose proof (proj1 (NoDup_alt l) Hnd _ _ _ Hj Hi).
  - intros [[j Hj] Hne].
    assert (j < length l)%nat as Hjl by (by eapply lookup_lt_Some).
    destruct (decide (j = length l - 1)%nat) as [->|Hjn].
    + exists i. rewrite swap_pop_lookup by done.
      assert (i ≠ length l - 1)%nat by (intros ->; congruence).
      rewrite decide_True by lia. rewrite decide_True by done.
      rewrite last_lookup. rewrite <- Hj. f_equal. lia.
    + exists j. rewrite swap_pop_lookup by done.
      rewrite decide_True by lia. rewrite decide_False; [done|].
      intros ->. congruence.
Qed.

Lemma swap_pop_NoDup {A} (l : list A) (i : nat) :
  NoDup l → (i < length l)%nat → NoDup (swap_pop i l).
Proof.
  intros Hnd Hi. apply NoDup_alt. intros j k x Hj Hk.
  rewrite swap_pop_lookup in Hj, Hk by done.
  destruct (decide (j < length l - 1)%nat); [|done].
  destruct (decide (k < length l - 1)%nat); [|done].
  rewrite last_lookup in Hj, Hk.
  destruct (decide (j = i)), (decide (k = i)); subst; try done.
  - pose proof (proj1 (NoDup_alt l) Hnd _ _ _ Hj Hk). lia.
  - pose proof (proj1 (NoDup_alt l) Hnd _ _ _ Hj Hk). lia.
  - by pose proof (proj1 (NoDup_alt l) Hnd _ _ _ Hj Hk).
Qed.

Lemma swap_pop_last {A} (l : list A) :
  swap_pop (length l - 1) l = take (length l - 1) l.
Proof.
  unfold swap_pop. destruct (last l) as [x|] eqn:Hl.
  - rewrite take_insert. by rewrite decide_False by lia.
  - apply last_None in Hl. by subst l.
Qed.

Lemma vec_at_lookup {A} (l : list A) (i : Z) :
  0 ≤ i → vec_at l i = l !! Z.to_nat i.
Proof.
  intros Hi. unfold vec_at. case_bool_decide as H; [done|].
  symmetry. apply lookup_ge_None. lia.
Qed.

Lemma vec_store_Some {A} (l : list A) (i : Z) (x : A) :
  0 ≤ i < Z.of_nat (length l) → vec_store l i x = Some (<[Z.to_nat i := x]> l).
Proof. intros Hi. unfold vec_store. by rewrite bool_decide_eq_true_2. Qed.

Lemma wrap_size_t_small z : 0 ≤ z < size_t_modulus → wrap_size_t z = z.
Proof. intros. unfold wrap_size_t. by apply Z.mod_small. Qed.

Lemma allocate_spec {S} (s : S) h :
  match allocate s h with
  | Normal _ s' h' => s' = s ∧ (granted h → granted h') ∧ (h' = tail h)
  | Raised e s' h' => e = bad_alloc ∧ s' = s ∧ ¬ granted h
  | Undefined => False
  end.
Proof.
  unfold allocate. destruct h as [|[] h]; repeat split; try done.
  - apply granted_tail.
  - intros H%granted_head. done.
Qed.

Lemma take_insert_take {A} (l : list A) (n m i : nat) (x : A) :
  (n ≤ m)%nat → take n (<[i:=x]> (take m l)) = take n (<[i:=x]> l).
Proof.
  intros Hnm. rewrite !take_insert. rewrite take_take.
  replace (n `min` m)%nat with n by lia. done.
Qed.


Lemma vec_pop_back_Some {A} (l : list A) :
  (0 < length l)%nat → vec_pop_back l = Some (take (length l - 1) l).
Proof. destruct l; simpl; [lia|done]. Qed.

Lemma filter_fmap_singleton {A} (f : A → Z) (l : list A) (x : A) :
  NoDup (f <$> l) → x ∈ l → filter (λ k, f k = f x) l = [x].
Proof.
  induction l as [|y l IH]; intros Hnd Hx; [by apply elem_of_nil in Hx|].
  rewrite fmap_cons in Hnd. apply NoDup_cons in Hnd as [Hy Hnd].
  apply elem_of_cons in Hx as [->|Hx].
  - rewrite filter_cons_True by done. f_equal.
    destruct (filter (λ k, f k = f y) l) as [|z l'] eqn:Hf; [done|].
    assert (z ∈ filter (λ k, f k = f y) l) as Hz by (rewrite Hf; apply elem_of_cons; auto).
    apply list_elem_of_filter in Hz as [Hz1 Hz2].
    exfalso. apply Hy. rewrite <- Hz1. apply list_elem_of_fmap. eauto.
  - rewrite filter_cons_False; [by apply IH|].
    intros Heq. apply Hy. rewrite Heq. apply list_elem_of_fmap. eauto.
Qed.

(** ** Sparse sets *)

Section sparse_set_facts.
Import sparse_set.
Variable indexer : Z → Z.
Variable vmax : Z.
Hypothesis indexer_range : ∀ v, 0 ≤ indexer v < size_t_modulus.
Hypothesis vmax_range : 0 ≤ vmax < size_t_modulus.

Set Default Proof Using "All".

Local Abbreviation wf := (sparse_set.wf indexer vmax).
Local Abbreviation has := (sparse_set.has indexer).
Local Abbreviation slot_free := (sparse_set.slot_free indexer).

Lemma wf_empty : wf empty.
Proof.
  split; simpl; try lia; try done.
Qed.

Lemma length_elements s : wf s → length (elements s) = Z.to_nat (size_ s).
Proof.
  intros W. unfold elements. rewrite length_take.
  destruct W. lia.
Qed.

Lemma elements_lookup s (i : nat) v :
  wf s → elements s !! i = Some v ↔ (Z.of_nat i < size_ s ∧ dense_ s !! i = Some v).
Proof.
  intros W. unfold elements. rewrite lookup_take.
  destruct (decide (i < Z.to_nat (size_ s))%nat); split; intros H; try done.
  - split; [lia|done].
  - tauto.
  - lia.
Qed.

Lemma has_spec s v : wf s → has s v = Some (bool_decide (v ∈ elements s)).
Proof.
  intros W. unfold sparse_set.has. cbv zeta.
  pose proof (indexer_range v) as Hv.
  case_bool_decide as Hc.
  - destruct (lookup_lt_is_Some_2 (sparse_ s) (Z.to_nat (indexer v))) as [p Hp].
    { destruct W. lia. }
    rewrite vec_at_lookup by lia. rewrite Hp. simpl.
    assert (0 ≤ p) as Hp0.
    { eapply (Forall_lookup_1 _ _ _ _ (wf_positions _ _ _ W) Hp). }
    case_bool_decide as Hs.
    + destruct (lookup_lt_is_Some_2 (dense_ s) (Z.to_nat p)) as [d Hd].
      { destruct W. lia. }
      rewrite vec_at_lookup by lia. rewrite Hd. simpl. f_equal.
      apply bool_decide_ext. split.
      * intros ->. apply list_elem_of_lookup. exists (Z.to_nat p).
        apply elements_lookup; [done|]. split; [lia|done].
      * intros [i Hi]%list_elem_of_lookup.
        pose proof (wf_slot _ _ _ W i v Hi) as [_ Hsl].
        rewrite Hp in Hsl. injection Hsl as ->.
        apply elements_lookup in Hi as [_ Hi]; [|done].
        rewrite Nat2Z.id in Hd. congruence.
    + f_equal. symmetry. apply bool_decide_eq_false.
      intros [i Hi]%list_elem_of_lookup.
      pose proof (wf_slot _ _ _ W i v Hi) as [_ Hsl].
      rewrite Hp in Hsl. injection Hsl as ->.
      apply elements_lookup in Hi as [Hi _]; [|done]. lia.
  - f_equal. symmetry. apply bool_decide_eq_false.
    intros [i Hi]%list_elem_of_lookup.
    pose proof (wf_slot _ _ _ W i v Hi) as [Hsl _]. lia.
Qed.

Lemma elements_NoDup s : wf s → NoDup (elements s).
Proof.
  intros W. apply NoDup_alt. intros i j x Hi Hj.
  pose proof (wf_slot _ _ _ W i x Hi) as [_ H1].
  pose proof (wf_slot _ _ _ W j x Hj) as [_ H2].
  rewrite H1 in H2. injection H2. lia.
Qed.

Lemma indices_NoDup s : wf s → NoDup (indexer <$> elements s).
Proof.
  intros W. apply NoDup_alt. intros i j x Hi Hj.
  apply list_lookup_fmap_Some in Hi as (u & -> & Hi).
  apply list_lookup_fmap_Some in Hj as (w & Hw & Hj).
  pose proof (wf_slot _ _ _ W i u Hi) as [_ H1].
  pose proof (wf_slot _ _ _ W j w Hj) as [_ H2].
  rewrite Hw in H1. rewrite H1 in H2. injection H2. lia.
Qed.

Lemma slot_free_index s v :
  slot_free s v → v ∉ elements s → indexer v ∉ indexer <$> elements s.
Proof.
  intros Hf Hv (u & Hu & Hin)%list_elem_of_fmap.
  apply Hv. by rewrite <- (Hf u Hin).
Qed.

(** A free index below the capacity leaves room in the dense vector. *)
Lemma size_lt_capacity s vi :
  wf s → 0 ≤ vi < capacity_ s → vi ∉ indexer <$> elements s →
  size_ s < capacity_ s.
Proof.
  intros W Hvi Hnot.
  assert (NoDup (vi :: (indexer <$> elements s))) as Hnd.
  { constructor; [done|by apply indices_NoDup]. }
  apply (NoDup_submseteq _ (seqZ 0 (capacity_ s))) in Hnd.
  - apply submseteq_length in Hnd.
    rewrite length_seqZ in Hnd. simpl in Hnd. rewrite length_fmap in Hnd.
    rewrite length_elements in Hnd by done. destruct W. lia.
  - intros x Hx. apply elem_of_seqZ.
    apply elem_of_cons in Hx as [->|Hx]; [lia|].
    apply list_elem_of_fmap in Hx as (u & -> & [i Hi]%list_elem_of_lookup).
    pose proof (wf_slot _ _ _ W i u Hi) as [? _].
    pose proof (indexer_range u). lia.
Qed.

Lemma new_capacity_for_spec s nsize h :
  wf s → 0 ≤ nsize →
  match new_capacity_for_ vmax nsize s h with
  | Normal nc s' h' => s' = s ∧ h' = h ∧ nsize ≤ nc ≤ vmax ∧ (capacity_ s < nsize → capacity_ s < nc)
  | Raised e s' h' => e = length_error ∧ s' = s ∧ h' = h ∧ vmax < nsize
  | Undefined => False
  end.
Proof.
  intros W Hn. unfold new_capacity_for_, max_size, bind, get, ret, throw.
  pose proof W as [W1 W2 _ _ _ _].
  pose proof vmax_range as Hvm.
  repeat case_bool_decide; try (repeat split; lia).
  assert (0 ≤ capacity_ s * 2 < size_t_modulus) as Hw.
  { unfold size_t_modulus in *. Z.div_mod_to_equations. lia. }
  rewrite wrap_size_t_small by done.
  repeat split; Z.div_mod_to_equations; lia.
Qed.

Lemma reserve_spec s nc h :
  wf s → capacity_ s < nc ≤ vmax →
  match reserve vmax nc s h with
  | Normal _ s' h' => s' = grown nc s ∧ (granted h → granted h')
  | Raised e s' h' => e = bad_alloc ∧ s' = s ∧ ¬ granted h
  | Undefined => False
  end.
Proof.
  intros W Hnc. unfold reserve, vector_new, bind, get, put, ret, throw.
  rewrite bool_decide_eq_true_2 by lia.
  rewrite bool_decide_eq_false_2 by lia.
  pose proof (allocate_spec s h) as A1.
  destruct (allocate s h) as [[] s1 h1|e s1 h1|]; [|done|done].
  destruct A1 as (-> & G1 & _).
  pose proof (allocate_spec s h1) as A2.
  destruct (allocate s h1) as [[] s2 h2|e s2 h2|]; [| |done].
  - destruct A2 as (-> & G2 & _).
    unfold std_copy. rewrite !length_replicate.
    rewrite !decide_True by (destruct W; lia).
    simpl. rewrite !drop_replicate. split; [done|auto].
  - destruct A2 as (-> & -> & G2). repeat split. auto.
Qed.

Lemma reserve_any_spec s nc h :
  wf s →
  match reserve vmax nc s h with
  | Normal _ s' h' => s' = s ∨ (capacity_ s < nc ≤ vmax ∧ s' = grown nc s)
  | Raised _ s' h' => s' = s
  | Undefined => False
  end.
Proof.
  intros W.
  destruct (decide (capacity_ s < nc ≤ vmax)) as [Hnc|Hnc].
  - pose proof (reserve_spec s nc h W Hnc) as R.
    destruct (reserve vmax nc s h) as [[] s' h'|e s' h'|]; [| |done].
    + right. by destruct R as (-> & _).
    + by destruct R as (_ & -> & _).
  - unfold reserve, vector_new, bind, get, ret, throw.
    case_bool_decide as H1; [|by left].
    by rewrite bool_decide_eq_true_2 by lia.
Qed.

Lemma elements_grown s nc : wf s → elements (grown nc s) = elements s.
Proof.
  intros W. unfold elements, grown. simpl.
  apply take_app_le. destruct W. lia.
Qed.

Lemma wf_grown s nc : wf s → capacity_ s < nc ≤ vmax → wf (grown nc s).
Proof.
  intros W Hnc. pose proof W as [W1 W2 W3 W4 W5 W6].
  split.
  - simpl. lia.
  - simpl. lia.
  - simpl. rewrite length_app, length_replicate. lia.
  - simpl. rewrite length_app, length_replicate. lia.
  - simpl. apply Forall_app. split; [done|]. by apply Forall_replicate.
  - intros i v. rewrite elements_grown by done. intros Hi.
    destruct (W6 i v Hi) as [Hc Hs]. simpl. split; [lia|].
    rewrite lookup_app_l; [done|].
    pose proof (indexer_range v). lia.
Qed.

Lemma elements_placed s v :
  wf s → size_ s < capacity_ s → elements (placed indexer v s) = elements s ++ [v].
Proof.
  intros W Hs. unfold elements, placed. simpl.
  replace (Z.to_nat (size_ s + 1)) with (S (Z.to_nat (size_ s))) by (destruct W; lia).
  erewrite take_S_r.
  - f_equal. rewrite take_insert. by rewrite decide_False by lia.
  - apply list_lookup_insert_eq. destruct W. lia.
Qed.

Lemma wf_placed s v :
  wf s → indexer v < capacity_ s → indexer v ∉ indexer <$> elements s →
  wf (placed indexer v s).
Proof.
  intros W Hv Hfree.
  assert (size_ s < capacity_ s) as Hs.
  { eapply size_lt_capacity; [done| |done]. pose proof (indexer_range v). lia. }
  pose proof W as [W1 W2 W3 W4 W5 W6].
  pose proof (indexer_range v) as Hr.
  split.
  - simpl. lia.
  - done.
  - simpl. by rewrite length_insert.
  - simpl. by rewrite length_insert.
  - simpl. apply Forall_insert; [done|lia].
  - intros i u. rewrite elements_placed by done. intros Hi.
    apply lookup_app_Some in Hi as [Hi|[Hlen Hi]].
    + destruct (W6 i u Hi) as [Hc Hsl]. simpl. split; [done|].
      rewrite list_lookup_insert_ne; [done|].
      intros Heq. apply Hfree. apply list_elem_of_fmap. exists u.
      split; [|by eapply list_elem_of_lookup_2].
      pose proof (indexer_range u). lia.
    + rewrite length_elements in Hlen, Hi by done.
      apply list_lookup_singleton_Some in Hi as [Hi ->].
      simpl. split; [done|].
      rewrite list_lookup_insert_eq by lia. f_equal. lia.
Qed.

Lemma insert_spec s v h :
  wf s → slot_free s v → indexer v < size_t_modulus - 1 →
  match insert indexer vmax v s h with
  | Normal b s' h' =>
      wf s' ∧ (granted h → granted h') ∧ capacity_ s ≤ capacity_ s' ∧
      match b with
      | true =>
          (v ∉ elements s) ∧ elements s' = elements s ++ [v] ∧
          (indexer v < capacity_ s → h' = h)
      | false => v ∈ elements s ∧ s' = s ∧ h' = h
      end
  | Raised e s' h' =>
      s' = s ∧ (v ∉ elements s) ∧ capacity_ s ≤ indexer v ∧
      ((e = length_error ∧ vmax ≤ indexer v ∧ h' = h) ∨ (e = bad_alloc ∧ ¬ granted h))
  | Undefined => False
  end.
Proof.
  intros W F Hv.
  pose proof (indexer_range v) as Hr.
  unfold insert, bind, get, put, ret, defined. simpl.
  rewrite has_spec by done.
  case_bool_decide as Hin; simpl; [split_and!; try done; lia|].
  pose proof (slot_free_index _ _ F Hin) as Hfree.
  assert (∀ s1 h1, wf s1 → elements s1 = elements s → indexer v < capacity_ s1 →
    capacity_ s ≤ capacity_ s1 → (granted h → granted h1) →
    (indexer v < capacity_ s → h1 = h) →
    match
      match
        (match vec_store (dense_ s1) (size_ s1) v with
        | Some a0 => ret a0
        | None => undefined
        end) s1 h1
      with
      | Normal a0 _ h'0 =>
          match
            (match vec_store (sparse_ s1) (indexer v) (size_ s1) with
            | Some a1 => ret a1
            | None => undefined
            end) (set_dense a0 s1) h'0
          with
          | Normal a1 _ h'1 =>
              Normal true
                (set_size (wrap_size_t (size_ s1 + 1))
                   (set_sparse a1 (set_dense a0 s1)))
                h'1
          | Raised e s'1 h'1 => Raised e s'1 h'1
          | Undefined => Undefined
          end
      | Raised e s'0 h'0 => Raised e s'0 h'0
      | Undefined => Undefined
      end
    with
    | Normal b s' h' =>
        wf s' ∧ (granted h → granted h') ∧ capacity_ s ≤ capacity_ s' ∧
      match b with
      | true =>
          (v ∉ elements s) ∧ elements s' = elements s ++ [v] ∧
          (indexer v < capacity_ s → h' = h)
      | false => v ∈ elements s ∧ s' = s ∧ h' = h
      end
    | Raised e s' h' =>
        s' = s ∧ (v ∉ elements s) ∧ capacity_ s ≤ indexer v ∧
        ((e = length_error ∧ vmax ≤ indexer v ∧ h' = h) ∨ (e = bad_alloc ∧ ¬ granted h))
    | Undefined => False
    end) as Hplace.
  { intros s1 h1 W1 E1 Hc1 Hcap G1 Hh1.
    assert (indexer v ∉ indexer <$> elements s1) as Hfree1 by (by rewrite E1).
    assert (size_ s1 < capacity_ s1) as Hs1.
    { eapply size_lt_capacity; [done| |done]. lia. }
    unfold ret.
    pose proof W1 as [V1 V2 V3 V4 V5 V6].
    pose proof vmax_range as Hvm.
    rewrite vec_store_Some by lia.
    rewrite vec_store_Some by (simpl; lia).
    rewrite wrap_size_t_small by lia.
    change (set_size _ _) with (placed indexer v s1).
    split; [by apply wf_placed|]. split; [done|]. split; [done|].
    split; [done|]. split; [|done].
    rewrite elements_placed by done. by rewrite E1. }
  case_bool_decide as Hcap.
  - rewrite wrap_size_t_small by lia.
    pose proof (new_capacity_for_spec s (indexer v + 1) h W ltac:(lia)) as N.
    destruct (new_capacity_for_ vmax (indexer v + 1) s h) as [nc s1 h1|e s1 h1|]; [| |done].
    + destruct N as (-> & -> & Hnc & Hgt).
      pose proof (reserve_spec s nc h W ltac:(lia)) as R.
      destruct (reserve vmax nc s h) as [[] s2 h2|e s2 h2|]; [| |done].
      * destruct R as (-> & G).
        apply Hplace; simpl; try lia; try done.
        -- apply wf_grown; [done|lia].
        -- by apply elements_grown.
      * destruct R as (-> & -> & G). repeat split; try done; try lia. by right.
    + destruct N as (-> & -> & -> & Hnc).
      repeat split; try done; try lia. left. repeat split; try done; lia.
  - apply Hplace; try done; lia.
Qed.

Lemma unordered_erase_spec s v h :
  wf s →
  match unordered_erase indexer v s h with
  | Normal b s' h' =>
      h' = h ∧ wf s' ∧ capacity_ s' = capacity_ s ∧
      match b with
      | true =>
          ∃ i : nat, elements s !! i = Some v ∧
            elements s' = swap_pop i (elements s) ∧ size_ s' = size_ s - 1
      | false => (v ∉ elements s) ∧ s' = s
      end
  | Raised _ _ _ => False
  | Undefined => False
  end.
Proof.
  intros W.
  pose proof W as [W1 W2 W3 W4 W5 W6].
  pose proof vmax_range as Hvm.
  unfold unordered_erase, bind, get, put, ret, defined. simpl.
  rewrite has_spec by done.
  case_bool_decide as Hin; simpl; [|done].
  apply list_elem_of_lookup in Hin as [i Hi].
  pose proof (indexer_range v) as Hvr0.
  destruct (W6 i v Hi) as [Hvc Hvs]. rewrite vec_at_lookup by lia. rewrite Hvs.
  pose proof Hi as [Hisz Hid]%elements_lookup; [|done].
  rewrite wrap_size_t_small by lia.
  destruct (lookup_lt_is_Some_2 (dense_ s) (Z.to_nat (size_ s - 1))) as [moved Hm]; [lia|].
  rewrite vec_at_lookup by lia. rewrite Hm. simpl.
  assert (elements s !! Z.to_nat (size_ s - 1) = Some moved) as Hme.
  { apply elements_lookup; [done|]. split; [lia|done]. }
  destruct (W6 _ _ Hme) as [Hmc Hms].
  pose proof (indexer_range moved) as Hmr.
  pose proof (indexer_range v) as Hvr.
  rewrite vec_store_Some by lia. simpl.
  rewrite vec_at_lookup by lia. rewrite Nat2Z.id.
  rewrite list_lookup_insert_eq by lia. simpl.
  rewrite vec_store_Some by lia. simpl.
  set (s' := set_size _ _).
  assert (last (elements s) = Some moved) as Hlast.
  { rewrite last_lookup, length_elements by done.
    rewrite <- Hme. f_equal. lia. }
  assert (elements s' = swap_pop i (elements s)) as Hel.
  { unfold swap_pop. rewrite Hlast. rewrite length_elements by done.
    unfold elements at 1. simpl. unfold elements.
    rewrite take_insert_take by lia. f_equal. lia. }
  split; [done|]. split; [|split; [done|]].
  2:{ exists i. done. }
  assert (i < length (elements s))%nat as Hil.
  { rewrite length_elements by done. lia. }
  split; simpl; try lia.
  - by rewrite length_insert.
  - by rewrite length_insert.
  - apply Forall_insert; [done|lia].
  - intros j u. rewrite Hel. rewrite swap_pop_lookup by done.
    rewrite length_elements by done.
    destruct (decide (j < Z.to_nat (size_ s) - 1)%nat) as [Hj|]; [|done].
    destruct (decide (j = i)) as [->|Hne].
    + rewrite Hlast. intros [= ->]. split; [done|].
      by rewrite list_lookup_insert_eq by lia.
    + intros Hu. destruct (W6 j u Hu) as [Huc Hus].
      split; [done|].
      rewrite list_lookup_insert_ne; [done|].
      intros Heq. rewrite Heq in Hms. rewrite Hms in Hus.
      injection Hus. lia.
Qed.

Lemma unordered_erase_elem_of s v h s' h' u :
  wf s → unordered_erase indexer v s h = Normal true s' h' →
  u ∈ elements s' ↔ u ∈ elements s ∧ u ≠ v.
Proof.
  intros W E. pose proof (unordered_erase_spec s v h W) as H.
  rewrite E in H. destruct H as (_ & _ & _ & i & Hi & -> & _).
  apply swap_pop_elem_of; [by apply elements_NoDup|done].
Qed.

Lemma clear_spec s h :
  wf s → ∃ s', clear s h = Normal tt s' h ∧ wf s' ∧ elements s' = [] ∧
    capacity_ s' = capacity_ s.
Proof.
  intros [W1 W2 W3 W4 W5 W6]. eexists. split; [done|].
  split; [|done]. split; simpl; try done; lia.
Qed.

Lemma find_index_present s v (i : nat) :
  wf s → elements s !! i = Some v →
  find_index indexer s v = Some (Z.of_nat i, true).
Proof.
  intros W Hi. unfold find_index. rewrite has_spec by done. simpl.
  rewrite bool_decide_eq_true_2 by (by eapply list_elem_of_lookup_2).
  pose proof (indexer_range v). rewrite vec_at_lookup by lia.
  destruct (wf_slot _ _ _ W i v Hi) as [_ ->]. done.
Qed.

Lemma find_index_absent s v :
  wf s → v ∉ elements s →
  find_index indexer s v = Some (wrap_size_t (-1), false).
Proof.
  intros W Hi. unfold find_index. rewrite has_spec by done. simpl.
  by rewrite bool_decide_eq_false_2.
Qed.

Lemma get_index_present s v (i : nat) h :
  wf s → elements s !! i = Some v →
  get_index indexer v s h = Normal (Z.of_nat i) s h.
Proof.
  intros W Hi. unfold get_index, bind, get, defined.
  by rewrite (find_index_present s v i).
Qed.

Lemma get_index_absent s v h :
  wf s → v ∉ elements s →
  get_index indexer v s h = Raised logic_error s h.
Proof.
  intros W Hi. unfold get_index, bind, get, defined.
  by rewrite (find_index_absent s v).
Qed.

End sparse_set_facts.

(** ** Sparse maps *)

Section sparse_map_facts.
Import sparse_map.
Context {T : Type}.
Variable indexer : Z → Z.
Variable vmax : Z.
Hypothesis indexer_range : ∀ v, 0 ≤ indexer v < size_t_modulus.
Hypothesis vmax_range : 0 ≤ vmax < size_t_modulus.

Set Default Proof Using "All".

Local Abbreviation wf := (sparse_map.wf (T:=T) indexer vmax).
Local Abbreviation slot_free := (sparse_set.slot_free indexer).

Lemma map_wf_empty : wf sparse_map.empty.
Proof. split; [by apply wf_empty|done]. Qed.

Lemma map_eta (m : t T) : mk (keys_ m) (values_ m) = m.
Proof using Type. by destruct m. Qed.

Lemma length_keys (m : t T) : wf m → length (keys m) = length (values_ m).
Proof.
  intros [W1 W2]. unfold keys. rewrite (length_elements indexer vmax indexer_range vmax_range) by done. lia.
Qed.

Lemma keys_NoDup (m : t T) : wf m → NoDup (keys m).
Proof. intros [W1 W2]. by eapply (elements_NoDup indexer vmax). Qed.

Lemma map_has_spec (m : t T) k : wf m → has indexer m k = Some (bool_decide (k ∈ keys m)).
Proof. intros [W1 W2]. unfold has. by rewrite (has_spec indexer vmax). Qed.

Lemma lookup_position (m : t T) k (i : nat) :
  wf m → keys m !! i = Some k → lookup m k = values_ m !! i.
Proof.
  intros W Hi. unfold lookup.
  destruct (list_find _ _) as [[j u]|] eqn:Hf.
  - apply list_find_Some in Hf as (Hj & -> & _).
    by rewrite (proj1 (NoDup_alt _) (keys_NoDup m W) _ _ _ Hi Hj).
  - apply list_find_None in Hf. rewrite Forall_forall in Hf.
    exfalso. eapply Hf; [|done]. by eapply list_elem_of_lookup_2.
Qed.

Lemma lookup_absent (m : t T) k : k ∉ keys m → lookup m k = None.
Proof.
  intros Hk. unfold lookup.
  destruct (list_find _ _) as [[j u]|] eqn:Hf; [|done].
  apply list_find_Some in Hf as (Hj & -> & _).
  exfalso. apply Hk. by eapply list_elem_of_lookup_2.
Qed.

Lemma lookup_Some_position (m : t T) k x :
  lookup m k = Some x → ∃ i : nat, keys m !! i = Some k ∧ values_ m !! i = Some x.
Proof.
  unfold lookup. destruct (list_find _ _) as [[i u]|] eqn:Hf; [|done].
  apply list_find_Some in Hf as (Hi & -> & _). eauto.
Qed.

Lemma lookup_is_Some (m : t T) k : wf m → is_Some (lookup m k) ↔ k ∈ keys m.
Proof.
  intros W. split.
  - intros Hs. destruct (decide (k ∈ keys m)); [done|].
    rewrite lookup_absent in Hs by done. by destruct Hs.
  - intros [i Hi]%list_elem_of_lookup.
    rewrite (lookup_position m k i) by done.
    apply lookup_lt_is_Some. rewrite <- length_keys by done.
    by eapply lookup_lt_Some.
Qed.

Lemma find_value_spec (m : t T) k : wf m → find_value indexer m k = Some (lookup m k).
Proof.
  intros W. pose proof W as [W1 W2]. unfold find_value.
  destruct (decide (k ∈ keys m)) as [Hin|Hin].
  - pose proof Hin as [i Hi]%list_elem_of_lookup.
    rewrite (find_index_present indexer vmax indexer_range vmax_range _ _ i) by done. simpl.
    rewrite (lookup_position m k i) by done.
    rewrite vec_at_lookup by lia. rewrite Nat2Z.id.
    destruct (lookup_lt_is_Some_2 (values_ m) i) as [x Hx].
    { rewrite <- length_keys by done. by eapply lookup_lt_Some. }
    by rewrite Hx.
  - rewrite (find_index_absent indexer vmax indexer_range vmax_range) by done. simpl.
    by rewrite lookup_absent.
Qed.

Lemma take_snoc_length {A} (l : list A) (x : A) :
  take (length (l ++ [x]) - 1) (l ++ [x]) = l.
Proof.
  rewrite length_app. simpl.
  replace (length l + 1 - 1)%nat with (length l) by lia.
  apply take_app_length.
Qed.

Lemma map_insert_spec (m : t T) k v h :
  wf m → slot_free (keys_ m) k → indexer k < size_t_modulus - 1 →
  match insert indexer vmax k v m h with
  | Normal b m' h' =>
      wf m' ∧ (granted h → granted h') ∧
      sparse_set.capacity_ (keys_ m) ≤ sparse_set.capacity_ (keys_ m') ∧
      match b with
      | true =>
          (k ∉ keys m) ∧ keys m' = keys m ++ [k] ∧ values_ m' = values_ m ++ [v]
      | false => k ∈ keys m ∧ m' = m ∧ h' = h
      end
  | Raised e m' h' =>
      m' = m ∧ (k ∉ keys m) ∧
      ((e = length_error ∧ vmax ≤ indexer k) ∨ (e = bad_alloc ∧ ¬ granted h))
  | Undefined => False
  end.
Proof.
  intros W F Hk. pose proof W as [W1 W2].
  unfold insert, bind, get, defined. rewrite map_has_spec by done.
  unfold ret at 1.
  case_bool_decide as Hin. { unfold ret. split_and!; try done. }
  unfold on_member at 1. unfold push_back, bind, get, put.
  pose proof (allocate_spec (values_ m) h) as A.
  destruct (allocate (values_ m) h) as [[] l h1|e l h1|]; [| |done].
  - destruct A as (-> & G1 & _).
    unfold try_rethrow, on_member. simpl.
    pose proof (insert_spec indexer vmax indexer_range vmax_range (keys_ m) k h1 W1 F Hk) as I.
    destruct (sparse_set.insert indexer vmax k (keys_ m) h1) as [b ks h2|e ks h2|]; [| |done].
    + destruct I as (Wk & G2 & Hcap & I). destruct b.
      * destruct I as (_ & Hel & _). split_and!; try done; [|auto].
        split; [done|]. simpl.
        pose proof (length_elements indexer vmax indexer_range vmax_range _ Wk) as L1.
        pose proof (length_elements indexer vmax indexer_range vmax_range _ W1) as L2.
        rewrite Hel, length_app in L1. simpl in L1.
        rewrite length_app. simpl.
        destruct Wk as [[? ?] _ _ _ _ _]. destruct W1 as [[? ?] _ _ _ _ _]. lia.
      * by destruct I as (I & _).
    + destruct I as (-> & _ & _ & I).
      unfold pop_back, bind, get, put, defined, vec_pop_back. simpl.
      destruct (values_ m ++ [v]) eqn:Hv; [by destruct (values_ m)|].
      rewrite <- Hv. simpl. rewrite take_snoc_length.
      unfold set_values, set_keys. simpl. rewrite map_eta.
      split_and!; try done.
      destruct I as [(-> & I & _)|(-> & I)]; [by left|right].
      split; [done|]. intros G. by apply I, G1.
  - destruct A as (-> & -> & G). unfold set_values. rewrite map_eta.
    split_and!; try done. by right.
Qed.

Lemma map_emplace_spec (m : t T) k v h :
  wf m → slot_free (keys_ m) k → indexer k < size_t_modulus - 1 →
  match emplace indexer vmax k v m h with
  | Normal b m' h' =>
      wf m' ∧ (granted h → granted h') ∧
      sparse_set.capacity_ (keys_ m) ≤ sparse_set.capacity_ (keys_ m') ∧
      match b with
      | true =>
          (k ∉ keys m) ∧ keys m' = keys m ++ [k] ∧ values_ m' = values_ m ++ [v]
      | false => k ∈ keys m ∧ m' = m ∧ h' = h
      end
  | Raised e m' h' =>
      m' = m ∧ (k ∉ keys m) ∧
      ((e = length_error ∧ vmax ≤ indexer k) ∨ (e = bad_alloc ∧ ¬ granted h))
  | Undefined => False
  end.
Proof. apply map_insert_spec. Qed.

Lemma map_unordered_erase_spec (m : t T) k h :
  wf m →
  match unordered_erase indexer k m h with
  | Normal b m' h' =>
      h' = h ∧ wf m' ∧
      sparse_set.capacity_ (keys_ m') = sparse_set.capacity_ (keys_ m) ∧
      match b with
      | true =>
          ∃ i : nat, keys m !! i = Some k ∧
            keys m' = swap_pop i (keys m) ∧ values_ m' = swap_pop i (values_ m)
      | false => (k ∉ keys m) ∧ m' = m
      end
  | Raised _ _ _ => False
  | Undefined => False
  end.
Proof.
  intros W. pose proof W as [W1 W2].
  unfold unordered_erase, bind, get, defined. rewrite map_has_spec by done.
  unfold ret at 1.
  case_bool_decide as Hin; simpl; [|by unfold ret].
  pose proof Hin as [i Hi]%list_elem_of_lookup.
  unfold on_member at 1.
  rewrite (get_index_present indexer vmax indexer_range vmax_range _ _ i) by done.
  unfold set_keys at 1. rewrite map_eta.
  assert (i < length (values_ m))%nat as Hil.
  { rewrite <- length_keys by done. by eapply lookup_lt_Some. }
  destruct (last (values_ m)) as [x|] eqn:Hlast.
  2:{ apply last_None in Hlast. rewrite Hlast in Hil. simpl in Hil. lia. }
  unfold vec_back. rewrite Hlast. unfold ret at 1.
  rewrite vec_store_Some by (simpl; lia). rewrite Nat2Z.id.
  unfold ret at 1.
  unfold on_member at 1. unfold pop_back, bind, get, put, defined.
  simpl.
  rewrite vec_pop_back_Some by (rewrite length_insert; lia).
  unfold ret at 1. unfold on_member.
  simpl. rewrite length_insert.
  pose proof (unordered_erase_spec indexer vmax indexer_range vmax_range (keys_ m) k h W1) as E.
  destruct (sparse_set.unordered_erase indexer k (keys_ m) h) as [b ks h2|e ks h2|]; [|done|done].
  destruct E as (-> & Wk & Hcap & E). destruct b.
  2:{ by destruct E as (E & _). }
  destruct E as (j & Hj & Hel & Hsz).
  assert (j = i) as ->.
  { by apply (proj1 (NoDup_alt _) (keys_NoDup m W) _ _ _ Hj Hi). }
  unfold ret. split_and!; try done.
  - split; [done|]. simpl. rewrite length_take, length_insert. lia.
  - exists i. split_and!; try done. simpl. unfold swap_pop. by rewrite Hlast.
Qed.

Lemma map_get_value_spec (m : t T) k h :
  wf m →
  match get_value indexer k m h with
  | Normal x m' h' => m' = m ∧ h' = h ∧ lookup m k = Some x
  | Raised e m' h' => e = logic_error ∧ m' = m ∧ h' = h ∧ k ∉ keys m
  | Undefined => False
  end.
Proof.
  intros W. pose proof W as [W1 W2].
  unfold get_value, bind, get, defined, on_member.
  destruct (decide (k ∈ keys m)) as [Hin|Hin].
  - pose proof Hin as [i Hi]%list_elem_of_lookup.
    rewrite (get_index_present indexer vmax indexer_range vmax_range _ _ i) by done.
    unfold set_keys. rewrite map_eta.
    rewrite vec_at_lookup by lia. rewrite Nat2Z.id.
    rewrite <- (lookup_position m k i) by done.
    destruct (proj2 (lookup_is_Some m k W) Hin) as [x Hx].
    rewrite Hx. by unfold ret.
  - rewrite (get_index_absent indexer vmax indexer_range vmax_range) by done.
    unfold set_keys. rewrite map_eta. done.
Qed.

Lemma map_get_value_assign_spec (m : t T) k v h (i : nat) :
  wf m → keys m !! i = Some k →
  get_value_assign indexer k v m h =
    Normal tt (set_values (<[i := v]> (values_ m)) m) h.
Proof.
  intros W Hi. pose proof W as [W1 W2].
  unfold get_value_assign, bind, get, defined, on_member.
  rewrite (get_index_present indexer vmax indexer_range vmax_range _ _ i) by done.
  unfold set_keys. rewrite map_eta.
  rewrite vec_store_Some; [by rewrite Nat2Z.id|].
  apply lookup_lt_Some in Hi. rewrite length_keys in Hi by done. lia.
Qed.

Lemma map_get_value_assign_absent (m : t T) k v h :
  wf m → k ∉ keys m →
  get_value_assign indexer k v m h = Raised logic_error m h.
Proof.
  intros W Hi. pose proof W as [W1 W2].
  unfold get_value_assign, bind, get, defined, on_member.
  rewrite (get_index_absent indexer vmax indexer_range vmax_range) by done.
  unfold set_keys. by rewrite map_eta.
Qed.

Lemma wf_set_values (m : t T) vs :
  wf m → length vs = length (values_ m) → wf (set_values vs m).
Proof. intros [W1 W2] Hl. split; [done|]. simpl. lia. Qed.

Lemma map_clear_spec (m : t T) h :
  wf m → ∃ m', clear m h = Normal tt m' h ∧ wf m' ∧ keys m' = [].
Proof.
  intros [W1 W2].
  destruct (clear_spec indexer vmax indexer_range vmax_range (keys_ m) h W1)
    as (s' & E & Ws & Hel & _).
  unfold clear, bind, get, put, on_member. rewrite E. eexists. split; [done|].
  split; [|done]. split; [done|]. simpl.
  pose proof (length_elements indexer vmax indexer_range vmax_range _ Ws) as L.
  rewrite Hel in L. simpl in L. destruct Ws as [[? ?] _ _ _ _ _]. lia.
Qed.

Lemma lookup_snoc (m m' : t T) k v k' :
  wf m → wf m' → (k ∉ keys m) →
  keys m' = keys m ++ [k] → values_ m' = values_ m ++ [v] →
  lookup m' k' = if decide (k' = k) then Some v else lookup m k'.
Proof.
  intros W W' Hk Hks Hvs.
  pose proof (length_keys m W) as Hl.
  destruct (decide (k' = k)) as [->|Hne].
  - rewrite (lookup_position m' k (length (keys m))) by (done || rewrite Hks; apply list_lookup_middle; done).
    rewrite Hvs, Hl. by apply list_lookup_middle.
  - destruct (decide (k' ∈ keys m)) as [Hin|Hin].
    + pose proof Hin as [i Hi]%list_elem_of_lookup.
      rewrite (lookup_position m k' i) by done.
      rewrite (lookup_position m' k' i).
      * rewrite Hvs. apply lookup_app_l. rewrite <- Hl. by eapply lookup_lt_Some.
      * done.
      * rewrite Hks. rewrite lookup_app_l; [done|]. by eapply lookup_lt_Some.
    + rewrite !lookup_absent; try done.
      rewrite Hks. intros [?|?%list_elem_of_singleton]%elem_of_app; done.
Qed.

Lemma lookup_swap_pop (m m' : t T) k (i : nat) k' :
  wf m → wf m' → keys m !! i = Some k →
  keys m' = swap_pop i (keys m) → values_ m' = swap_pop i (values_ m) →
  lookup m' k' = if decide (k' = k) then None else lookup m k'.
Proof.
  intros W W' Hi Hks Hvs.
  pose proof (length_keys m W) as Hl.
  assert (i < length (keys m))%nat as Hil by (by eapply lookup_lt_Some).
  assert (∀ u, u ∈ keys m' ↔ u ∈ keys m ∧ u ≠ k) as Hmem.
  { intros u. rewrite Hks. apply swap_pop_elem_of; [by apply keys_NoDup|done]. }
  destruct (decide (k' = k)) as [->|Hne].
  { apply lookup_absent. rewrite Hmem. tauto. }
  destruct (decide (k' ∈ keys m)) as [Hin|Hin].
  2:{ rewrite !lookup_absent; try done. rewrite Hmem. tauto. }
  pose proof Hin as [j Hj]%list_elem_of_lookup.
  assert (j < length (keys m))%nat as Hjl by (by eapply lookup_lt_Some).
  assert (j ≠ i) as Hji by (intros ->; congruence).
  rewrite (lookup_position m k' j) by done.
  destruct (decide (j = length (keys m) - 1)%nat) as [Hlast|Hnl].
  - rewrite (lookup_position m' k' i); [|done|].
    + rewrite Hvs, swap_pop_lookup by lia.
      rewrite decide_True by lia. rewrite decide_True by done.
      rewrite last_lookup. f_equal. lia.
    + rewrite Hks, swap_pop_lookup by lia.
      rewrite decide_True by lia. rewrite decide_True by done.
      rewrite last_lookup. rewrite <- Hj. f_equal. lia.
  - rewrite (lookup_position m' k' j); [|done|].
    + rewrite Hvs, swap_pop_lookup by lia.
      rewrite decide_True by lia. by rewrite decide_False by done.
    + rewrite Hks, swap_pop_lookup by lia.
      rewrite decide_True by lia. by rewrite decide_False by done.
Qed.

Lemma lookup_set_values (m : t T) k (i : nat) v k' :
  wf m → keys m !! i = Some k →
  lookup (set_values (<[i := v]> (values_ m)) m) k' =
    if decide (k' = k) then Some v else lookup m k'.
Proof.
  intros W Hi.
  assert (wf (set_values (<[i := v]> (values_ m)) m)) as W'.
  { apply wf_set_values; [done|]. by rewrite length_insert. }
  pose proof (length_keys m W) as Hl.
  assert (i < length (keys m))%nat as Hil by (by eapply lookup_lt_Some).
  destruct (decide (k' = k)) as [->|Hne].
  - rewrite (lookup_position _ k i) by done. simpl.
    apply list_lookup_insert_eq. lia.
  - destruct (decide (k' ∈ keys m)) as [Hin|Hin].
    + pose proof Hin as [j Hj]%list_elem_of_lookup.
      rewrite (lookup_position _ k' j) by done.
      rewrite (lookup_position m k' j) by done. simpl.
      apply list_lookup_insert_ne. intros ->. congruence.
    + by rewrite !lookup_absent.
Qed.

End sparse_map_facts.

(** ** Registries *)

Section registry_facts.
Import registry.
Context {Comp : Type}.
Variable vmax : Z.
Hypothesis vmax_range : 0 ≤ vmax < size_t_modulus.

Set Default Proof Using "All".

Local Abbreviation registry := (registry.t Comp).
Local Abbreviation storage := (component_storage.t Comp).
Local Abbreviation wf := (registry.wf (Comp:=Comp) vmax).
Local Abbreviation ent X :=
  (X entity_id_indexer vmax entity_id_indexer_range vmax_range) (only parsing).
Local Abbreviation tbl X :=
  (X sparse_unsigned_indexer vmax sparse_unsigned_indexer_range vmax_range) (only parsing).
Local Abbreviation set_wf := (sparse_set.wf entity_id_indexer vmax).
Local Abbreviation comp_wf := (sparse_map.wf (T:=Comp) entity_id_indexer vmax).
Local Abbreviation table_wf := (sparse_map.wf (T:=storage) sparse_unsigned_indexer vmax).

Local Abbreviation storage_ok := (registry.storage_ok (Comp:=Comp) vmax).

Lemma registry_eta (r : registry) :
  mk (last_entity_id_ r) (free_entity_ids_ r) (entity_ids_ r) (storages_ r) = r.
Proof. by destruct r. Qed.

Lemma wf_empty_registry : wf registry.empty.
Proof.
  split; simpl; try done.
  - by apply (ent wf_empty).
  - intros e. unfold live. simpl. by intros ?%elem_of_nil.
  - intros e ?%elem_of_nil. done.
  - constructor.
  - intros f e ?%elem_of_nil. done.
  - by apply (tbl map_wf_empty).
  - intros f ?%elem_of_nil. done.
  - intros f ?%elem_of_nil. done.
Qed.

Lemma is_entity_alive_spec (r : registry) e :
  wf r → is_entity_alive_impl_ r e = Some (bool_decide (e ∈ live r)).
Proof.
  intros W. unfold is_entity_alive_impl_.
  apply (ent has_spec).
  apply W.
Qed.

Lemma live_index_inj (r : registry) e1 e2 :
  wf r → e1 ∈ live r → e2 ∈ live r →
  entity_id_index e1 = entity_id_index e2 → e1 = e2.
Proof.
  intros W [i Hi]%list_elem_of_lookup [j Hj]%list_elem_of_lookup Heq.
  pose proof (wf_entity_ids _ _ W) as Ws.
  destruct (sparse_set.wf_slot _ _ _ Ws i e1 Hi) as [_ H1].
  destruct (sparse_set.wf_slot _ _ _ Ws j e2 Hj) as [_ H2].
  unfold entity_id_indexer in *. rewrite Heq in H1. rewrite H1 in H2.
  assert (i = j) as -> by (injection H2; lia).
  unfold live in *. congruence.
Qed.

Lemma family_slot_free (r : registry) family :
  wf r → is_family_id family →
  sparse_set.slot_free sparse_unsigned_indexer (sparse_map.keys_ (storages_ r)) family.
Proof.
  intros W Hf u Hu Heq.
  pose proof (wf_families _ _ W u Hu) as Hu'.
  unfold is_family_id, family_id_modulus in *.
  unfold sparse_unsigned_indexer in Heq.
  rewrite !wrap_size_t_small in Heq by (unfold size_t_modulus; lia). done.
Qed.

Lemma entity_slot_free (r : registry) (st : storage) e :
  wf r → storage_ok r st → e ∈ live r →
  sparse_set.slot_free entity_id_indexer
    (sparse_map.keys_ (component_storage.components_ st)) e.
Proof.
  intros W [_ Hk] He u Hu Heq. eapply live_index_inj; eauto.
Qed.

Lemma find_storage_spec (r : registry) family :
  wf r → find_storage_ r family = Some (sparse_map.lookup (storages_ r) family).
Proof.
  intros W. pose proof (wf_storages _ _ W) as Wt. unfold find_storage_.
  rewrite (tbl map_has_spec) by done.
  simpl.
  pose proof (tbl map_get_value_spec (storages_ r) family [] Wt) as G.
  case_bool_decide as Hin.
  - destruct (sparse_map.get_value _ _ _ _) as [st m' h'|e m' h'|]; [| |done].
    + destruct G as (_ & _ & ->). done.
    + by destruct G as (_ & _ & _ & G).
  - by rewrite (tbl lookup_absent).
Qed.

Lemma on_storage_spec {A} (r : registry) family (m : M storage A) h (i : nat) st :
  wf r → sparse_map.keys (storages_ r) !! i = Some family →
  sparse_map.values_ (storages_ r) !! i = Some st →
  on_storage family m r h =
    match m st h with
    | Normal a st' h' => Normal a (update_storage i st' r) h'
    | Raised e st' h' => Raised e (update_storage i st' r) h'
    | Undefined => Undefined
    end.
Proof.
  intros W Hi Hst. pose proof (wf_storages _ _ W) as [Wk Wv].
  unfold on_storage, bind, get, defined. unfold on_member.
  rewrite (tbl get_index_present _ _ i) by done.
  unfold sparse_map.set_keys, set_storages. rewrite map_eta, registry_eta.
  rewrite vec_at_lookup by lia. rewrite Nat2Z.id, Hst. unfold ret. done.
Qed.

Lemma on_storage_absent {A} (r : registry) family (m : M storage A) h :
  wf r → family ∉ sparse_map.keys (storages_ r) →
  on_storage family m r h = Raised logic_error r h.
Proof.
  intros W Hi. pose proof (wf_storages _ _ W) as [Wk Wv].
  unfold on_storage, bind, get, defined. unfold on_member.
  rewrite (tbl get_index_absent) by done.
  unfold sparse_map.set_keys, set_storages. by rewrite map_eta, registry_eta.
Qed.

Lemma update_storage_id (r : registry) (i : nat) st :
  sparse_map.values_ (storages_ r) !! i = Some st → update_storage i st r = r.
Proof.
  intros Hst. unfold update_storage, set_storages, sparse_map.set_values.
  rewrite list_insert_id by done. by rewrite map_eta, registry_eta.
Qed.

Lemma live_update_storage (r : registry) (i : nat) st :
  live (update_storage i st r) = live r.
Proof. done. Qed.

Lemma wf_storages_of (r : registry) st :
  wf r → st ∈ sparse_map.values_ (storages_ r) → storage_ok r st.
Proof. intros W Hst. by apply (wf_components _ _ W). Qed.

Lemma wf_update_storage (r : registry) (i : nat) st :
  wf r → storage_ok r st → wf (update_storage i st r).
Proof.
  intros W Hok. pose proof W as [W1 W2 W3 W4 W5 W6 W7 W8 W9].
  split; try done.
  - simpl. destruct W7 as [Wk Wv]. split; [done|]. simpl. by rewrite length_insert.
  - intros st' Hst'. simpl in Hst'.
    apply list_elem_of_lookup in Hst' as [j Hj].
    destruct (decide (j = i)) as [->|Hne].
    + destruct (decide (i < length (sparse_map.values_ (storages_ r)))%nat).
      * rewrite list_lookup_insert_eq in Hj by done. by injection Hj as <-.
      * rewrite list_insert_ge in Hj by lia. apply W9. by eapply list_elem_of_lookup_2.
    + rewrite list_lookup_insert_ne in Hj by done.
      apply W9. by eapply list_elem_of_lookup_2.
Qed.

Local Abbreviation ckeys st := (sparse_map.keys (component_storage.components_ st)) (only parsing).
Local Abbreviation clookup st := (sparse_map.lookup (component_storage.components_ st)) (only parsing).

Lemma storage_assign_spec (r : registry) (st : storage) e args h :
  wf r → storage_ok r st → e ∈ live r →
  match component_storage.assign vmax e args st h with
  | Normal _ st' h' =>
      storage_ok r st' ∧ (granted h → granted h') ∧
      (∀ e', clookup st' e' = if decide (e' = e) then Some args else clookup st e') ∧
      ckeys st' = (if decide (e ∈ ckeys st) then ckeys st else ckeys st ++ [e]) ∧
      (e ∈ ckeys st → h' = h)
  | Raised err st' h' =>
      st' = st ∧ (e ∉ ckeys st) ∧
      ((err = length_error ∧ vmax ≤ entity_id_index e) ∨ (err = bad_alloc ∧ ¬ granted h))
  | Undefined => False
  end.
Proof.
  intros W Hok He. pose proof Hok as [Wc Hk].
  unfold component_storage.assign, bind. unfold on_member at 1.
  pose proof (ent map_emplace_spec (component_storage.components_ st) e args h Wc) as E.
  lapply E; [clear E; intros E|by eapply entity_slot_free].
  lapply E; [clear E; intros E|].
  2:{ pose proof (entity_id_index_range e) as Hr. rewrite entity_id_index_mask_val in Hr.
      unfold entity_id_indexer, size_t_modulus. lia. }
  destruct (sparse_map.emplace _ _ _ _ _ _) as [b c h1|err c h1|]; [| |done].
  - destruct E as (Wc' & G & _ & E). destruct b; simpl.
    + destruct E as (Hnin & Hks & Hvs). unfold ret.
      split_and!; try done.
      * split; [done|]. simpl. intros e'. rewrite Hks.
        intros [?|Hx%list_elem_of_singleton]%elem_of_app; [auto|by subst].
      * intros e'. simpl. by apply (ent lookup_snoc).
      * simpl. by rewrite decide_False.
    + destruct E as (Hin & -> & ->).
      pose proof Hin as [i Hi]%list_elem_of_lookup.
      unfold on_member. simpl. destruct st as [c]. simpl in *.
      rewrite (ent map_get_value_assign_spec c e args h i) by done.
      split_and!; try done.
      * split; simpl; [|done]. apply (ent wf_set_values); [done|by rewrite length_insert].
      * intros e'. simpl. by apply (ent lookup_set_values).
      * simpl. by rewrite decide_True.
  - destruct E as (-> & Hnin & E). simpl. destruct st. simpl. done.
Qed.

Lemma storage_remove_spec (r : registry) (st : storage) e h :
  storage_ok r st →
  match component_storage.remove e st h with
  | Normal b st' h' =>
      h' = h ∧ storage_ok r st' ∧ b = bool_decide (e ∈ ckeys st) ∧
      (∀ e', e' ∈ ckeys st' ↔ e' ∈ ckeys st ∧ e' ≠ e) ∧
      (∀ e', clookup st' e' = if decide (e' = e) then None else clookup st e') ∧
      (b = false → st' = st)
  | Raised _ _ _ => False
  | Undefined => False
  end.
Proof.
  intros [Wc Hk].
  unfold component_storage.remove, on_member.
  pose proof (ent map_unordered_erase_spec (component_storage.components_ st) e h Wc) as E.
  destruct (sparse_map.unordered_erase _ _ _ _) as [b c h1|err c h1|]; [|done|done].
  destruct E as (-> & Wc' & _ & E). destruct b; simpl.
  - destruct E as (i & Hi & Hks & Hvs).
    assert (∀ e', e' ∈ sparse_map.keys c ↔ e' ∈ ckeys st ∧ e' ≠ e) as Hmem.
    { intros e'. rewrite Hks. apply swap_pop_elem_of; [|done]. by apply (ent keys_NoDup). }
    split_and!; try done.
    + split; [done|]. simpl. intros e' He'. apply Hk. by apply Hmem.
    + symmetry. apply bool_decide_eq_true_2. by eapply list_elem_of_lookup_2.
    + intros e'. by apply (ent lookup_swap_pop _ _ e i).
  - destruct E as (Hnin & ->). destruct st as [c']. simpl in *.
    split_and!; try done.
    + symmetry. by apply bool_decide_eq_false_2.
    + intros e'. split; [|tauto]. intros H. split; [done|]. by intros ->.
    + intros e'. destruct (decide (e' = e)) as [->|]; [|done].
      by apply (ent lookup_absent).
Qed.

Lemma wf_bump_last (r : registry) :
  wf r → last_entity_id_ r < entity_id_index_mask →
  wf (set_last_entity_id (last_entity_id_ r + 1) r).
Proof.
  intros [W1 W2 W3 W4 W5 W6 W7 W8 W9] Hlt. split; simpl; try done.
  - lia.
  - intros e He. specialize (W3 e He). lia.
  - intros f Hf. destruct (W4 f Hf). split; [lia|done].
Qed.

Lemma storage_ok_live (r r' : registry) st :
  (∀ e, e ∈ live r → e ∈ live r') → storage_ok r st → storage_ok r' st.
Proof. intros Hsub [Wc Hk]. split; [done|]. eauto. Qed.

Lemma create_entity_spec (r : registry) h :
  wf r →
  match create_entity vmax r h with
  | Normal e r' h' =>
      wf r' ∧ (granted h → granted h') ∧ (e ∉ live r) ∧ live r' = live r ++ [e] ∧
      storages_ r' = storages_ r ∧
      match last (free_entity_ids_ r) with
      | Some f =>
          e = entity_id_join (entity_id_index f)
                ((entity_id_version f + 1) mod entity_id_modulus) ∧
          free_entity_ids_ r' =
            take (length (free_entity_ids_ r) - 1) (free_entity_ids_ r) ∧
          last_entity_id_ r' = last_entity_id_ r ∧ h' = h
      | None =>
          e = last_entity_id_ r + 1 ∧ last_entity_id_ r < entity_id_index_mask ∧
          last_entity_id_ r' = e ∧ free_entity_ids_ r' = []
      end
  | Raised err r' h' =>
      wf r' ∧ free_entity_ids_ r = [] ∧
      ((err = logic_error ∧ r' = r ∧ h' = h ∧
        last_entity_id_ r = entity_id_index_mask) ∨
       (last_entity_id_ r < entity_id_index_mask ∧
        r' = set_last_entity_id (last_entity_id_ r + 1) r ∧
        ((err = length_error ∧ vmax ≤ last_entity_id_ r + 1 ∧ h' = h) ∨
         (err = bad_alloc ∧ ¬ granted h))))
  | Undefined => False
  end.
Proof.
  intros W. pose proof W as [W1 W2 W3 W4 W5 W6 W7 W8 W9].
  unfold create_entity, bind, get.
  destruct (last (free_entity_ids_ r)) as [f|] eqn:Hl.
  - assert (free_entity_ids_ r ≠ []) as Hne by (intros E; by rewrite E in Hl).
    rewrite bool_decide_eq_false_2 by done. simpl.
    unfold vec_back. rewrite Hl. unfold defined, ret at 1.
    set (new := entity_id_join _ _).
    assert (f ∈ free_entity_ids_ r) as Hf.
    { rewrite last_lookup in Hl. by eapply list_elem_of_lookup_2. }
    destruct (W4 f Hf) as [Hfl Hfc].
    pose proof (entity_id_index_range f) as Hfr. rewrite entity_id_index_mask_val in Hfr.
    assert (entity_id_index new = entity_id_index f) as Hni.
    { unfold new. apply entity_id_index_join. lia. }
    assert (∀ u, u ∈ live r → entity_id_index u ≠ entity_id_index new) as Hfresh.
    { intros u Hu. rewrite Hni. intros E. by apply (W6 f u). }
    assert (new ∉ live r) as Hnl.
    { intros Hin. by apply (Hfresh new). }
    unfold on_member at 1.
    pose proof (ent insert_spec (entity_ids_ r) new h W2) as I.
    lapply I; [clear I; intros I|].
    2:{ intros u Hu E. by destruct (Hfresh u Hu). }
    lapply I; [clear I; intros I|].
    2:{ unfold entity_id_indexer, size_t_modulus. rewrite Hni. lia. }
    destruct (sparse_set.insert _ _ _ _ _) as [b s' h1|err s' h1|]; [| |done].
    2:{ destruct I as (_ & _ & Hc & _). unfold entity_id_indexer in Hc. lia. }
    destruct I as (Ws' & G & Hcap & I). destruct b; [|by destruct I].
    destruct I as (_ & Hel & Hh). rewrite Hh by (unfold entity_id_indexer; lia).
    unfold on_member, pop_back, bind, get, put, defined. simpl.
    rewrite vec_pop_back_Some.
    2:{ destruct (free_entity_ids_ r); [done|simpl; lia]. }
    unfold ret. split_and!; try done.
    split; simpl; try done.
    + intros e. unfold live. simpl. rewrite Hel.
      intros [He|He%list_elem_of_singleton]%elem_of_app; [by apply W3|].
      subst e. rewrite Hni. lia.
    + intros f' Hf'%elem_of_take. destruct Hf' as (j & Hj & _).
      destruct (W4 f' (list_elem_of_lookup_2 _ _ _ Hj)). split; [done|lia].
    + rewrite fmap_take. eapply sublist_NoDup; [done|apply sublist_take].
    + intros f' e Hf'%elem_of_take. destruct Hf' as (j & Hj & Hjl).
      unfold live. simpl. rewrite Hel.
      intros [He|He%list_elem_of_singleton]%elem_of_app.
      * apply W6; [by eapply list_elem_of_lookup_2|done].
      * subst e. rewrite Hni. intros E.
        rewrite last_lookup in Hl.
        assert ((entity_id_index <$> free_entity_ids_ r) !! j = Some (entity_id_index f')) as H1.
        { by rewrite list_lookup_fmap, Hj. }
        assert ((entity_id_index <$> free_entity_ids_ r) !! pred (length (free_entity_ids_ r))
                = Some (entity_id_index f')) as H2.
        { by rewrite list_lookup_fmap, Hl, E. }
        pose proof (proj1 (NoDup_alt _) W5 _ _ _ H1 H2). lia.
    + intros st Hst. apply (storage_ok_live r); [|by apply W9].
      intros e He. unfold live. simpl. rewrite Hel. apply elem_of_app. by left.
  - apply last_None in Hl. rewrite Hl. simpl.
    case_bool_decide as Hlast.
    2:{ unfold throw. split_and!; try done. left. split_and!; try done. lia. }
    unfold put. unfold on_member. simpl.
    rewrite Z.mod_small by (rewrite entity_id_index_mask_val in *; unfold entity_id_modulus; lia).
    set (new := last_entity_id_ r + 1).
    assert (entity_id_index new = new) as Hni.
    { apply entity_id_index_small. unfold new. lia. }
    assert (∀ u, u ∈ live r → entity_id_index u ≠ entity_id_index new) as Hfresh.
    { intros u Hu. rewrite Hni. specialize (W3 u Hu). unfold new. lia. }
    assert (new ∉ live r) as Hnl.
    { intros Hin. by apply (Hfresh new). }
    pose proof (ent insert_spec (entity_ids_ r) new h W2) as I.
    lapply I; [clear I; intros I|].
    2:{ intros u Hu E. by destruct (Hfresh u Hu). }
    lapply I; [clear I; intros I|].
    2:{ unfold entity_id_indexer, size_t_modulus. rewrite Hni.
        rewrite entity_id_index_mask_val in *. unfold new. lia. }
    pose proof (wf_bump_last r W Hlast) as Wb. fold new in Wb.
    destruct (sparse_set.insert _ _ _ _ _) as [b s' h1|err s' h1|]; [| |done].
    + destruct I as (Ws' & G & Hcap & I). destruct b; [|by destruct I].
      destruct I as (_ & Hel & Hh).
      unfold ret. split_and!; try done.
      destruct Wb as [B1 B2 B3 B4 B5 B6 B7 B8 B9].
      split; simpl in *; try done.
      * intros e. unfold live. simpl. rewrite Hel.
        intros [He|He%list_elem_of_singleton]%elem_of_app; [by apply B3|].
        subst e. rewrite Hni. lia.
      * rewrite Hl. by intros f ?%elem_of_nil.
      * rewrite Hl. by intros f e ?%elem_of_nil.
      * intros st Hst. apply (storage_ok_live r); [|by apply W9].
        intros e He. unfold live. simpl. rewrite Hel. apply elem_of_app. by left.
    + destruct I as (-> & _ & _ & I).
      assert (set_entity_ids (entity_ids_ r) (set_last_entity_id new r)
              = set_last_entity_id new r) as -> by done.
      split_and!; try done. right. split_and!; try done.
      destruct I as [(-> & I & ->)|(-> & I)]; [left|by right].
      split_and!; try done. unfold entity_id_indexer in I. by rewrite Hni in I.
Qed.

Lemma remove_all_components_loop_spec e (ids : list Z) :
  ∀ (n : nat) (r : registry) cnt h,
    wf r → drop n (sparse_map.keys (storages_ r)) = ids →
    (∀ (j : nat) st, (j < n)%nat → sparse_map.values_ (storages_ r) !! j = Some st →
       e ∉ ckeys st) →
    match remove_all_components_loop_ ids e cnt r h with
    | Normal _ r' h' =>
        h' = h ∧ wf r' ∧ entity_ids_ r' = entity_ids_ r ∧
        last_entity_id_ r' = last_entity_id_ r ∧
        free_entity_ids_ r' = free_entity_ids_ r ∧
        sparse_map.keys_ (storages_ r') = sparse_map.keys_ (storages_ r) ∧
        (∀ st, st ∈ sparse_map.values_ (storages_ r') → e ∉ ckeys st)
    | Raised _ _ _ => False
    | Undefined => False
    end.
Proof.
  induction ids as [|id ids IH]; intros n r cnt h W Hd Hdone.
  - simpl. unfold ret. split_and!; try done.
    intros st [j Hj]%list_elem_of_lookup. apply (Hdone j st); [|done].
    apply drop_nil_inv in Hd.
    pose proof (tbl length_keys (storages_ r) (wf_storages _ _ W)) as Hl.
    apply lookup_lt_Some in Hj. lia.
  - simpl. unfold bind.
    assert (sparse_map.keys (storages_ r) !! n = Some id) as Hn.
    { rewrite <- (Nat.add_0_r n), <- lookup_drop, Hd. done. }
    pose proof (tbl length_keys (storages_ r) (wf_storages _ _ W)) as Hl.
    destruct (lookup_lt_is_Some_2 (sparse_map.values_ (storages_ r)) n) as [st Hst].
    { apply lookup_lt_Some in Hn. lia. }
    rewrite (on_storage_spec r id _ h n st) by done.
    assert (storage_ok r st) as Hok.
    { apply (wf_components _ _ W). by eapply list_elem_of_lookup_2. }
    pose proof (storage_remove_spec r st e h Hok) as R.
    destruct (component_storage.remove e st h) as [b st' h'|err st' h'|]; [|done|done].
    destruct R as (-> & Hok' & _ & Hmem & _ & _).
    set (r2 := update_storage n st' r).
    specialize (IH (S n) r2 (if b then wrap_size_t (cnt + 1) else cnt) h).
    lapply IH; [clear IH; intros IH|by apply wf_update_storage].
    lapply IH; [clear IH; intros IH|].
    2:{ change (drop (S n) (sparse_map.keys (storages_ r)) = ids).
        by rewrite <- (Nat.add_1_r n), <- drop_drop, Hd. }
    lapply IH; [clear IH; intros IH|].
    2:{ intros j st2 Hj. simpl.
        destruct (decide (j = n)) as [->|Hne].
        - rewrite list_lookup_insert_eq by (by eapply lookup_lt_Some).
          intros [= <-]. rewrite Hmem. tauto.
        - rewrite list_lookup_insert_ne by done. apply Hdone. lia. }
    destruct (remove_all_components_loop_ _ _ _ _ _) as [c r' h'|err r' h'|]; [|done|done].
    destruct IH as (-> & W' & E1 & E2 & E3 & E4 & E5). split_and!; try done.
Qed.

Lemma remove_all_components_spec (r : registry) e h :
  wf r →
  match remove_all_components_impl_ e r h with
  | Normal _ r' h' =>
      h' = h ∧ wf r' ∧ entity_ids_ r' = entity_ids_ r ∧
      last_entity_id_ r' = last_entity_id_ r ∧
      free_entity_ids_ r' = free_entity_ids_ r ∧
      sparse_map.keys_ (storages_ r') = sparse_map.keys_ (storages_ r) ∧
      (∀ st, st ∈ sparse_map.values_ (storages_ r') → e ∉ ckeys st) ∧
      (e ∉ live r → r' = r)
  | Raised _ _ _ => False
  | Undefined => False
  end.
Proof.
  intros W. unfold remove_all_components_impl_, bind, get, defined.
  rewrite is_entity_alive_spec by done. unfold ret at 1.
  case_bool_decide as Hin; simpl.
  - pose proof (remove_all_components_loop_spec e _ 0 r 0 h W eq_refl) as L.
    lapply L; [clear L; intros L|intros; lia].
    destruct (remove_all_components_loop_ _ _ _ _ _) as [c r' h'|err r' h'|]; [|done|done].
    destruct L as (-> & W' & E1 & E2 & E3 & E4 & E5). split_and!; try done.
  - unfold ret. split_and!; try done.
    intros st Hst He. apply Hin. by apply (wf_components _ _ W st Hst).
Qed.

Lemma wf_after_erase (r : registry) e s' free' :
  wf r → e ∈ live r → set_wf s' →
  sparse_set.capacity_ s' = sparse_set.capacity_ (entity_ids_ r) →
  (∀ u, u ∈ sparse_set.elements s' ↔ u ∈ live r ∧ u ≠ e) →
  (∀ st, st ∈ sparse_map.values_ (storages_ r) → e ∉ ckeys st) →
  free' = free_entity_ids_ r ∨ free' = free_entity_ids_ r ++ [e] →
  wf (mk (last_entity_id_ r) free' s' (storages_ r)).
Proof.
  intros W He Ws Hcap Hmem Hgone Hfree.
  pose proof W as [W1 W2 W3 W4 W5 W6 W7 W8 W9].
  assert (entity_id_index e ≤ last_entity_id_ r ∧
          entity_id_index e < sparse_set.capacity_ (entity_ids_ r)) as [He1 He2].
  { split; [by apply W3|]. apply list_elem_of_lookup in He as [i Hi].
    by destruct (sparse_set.wf_slot _ _ _ W2 i e Hi). }
  split; simpl; try done.
  - intros u Hu. apply W3. unfold live in Hu. simpl in Hu. by apply Hmem in Hu as [? _].
  - intros f Hf. rewrite Hcap. destruct Hfree as [->| ->]; [by apply W4|].
    apply elem_of_app in Hf as [Hf|Hf%list_elem_of_singleton]; [by apply W4|by subst].
  - destruct Hfree as [->| ->]; [done|].
    rewrite fmap_app. apply NoDup_app. split_and!; [done| |apply NoDup_singleton].
    intros x (f & -> & Hf)%list_elem_of_fmap Hx%list_elem_of_singleton.
    by apply (W6 f e).
  - intros f u Hf Hu. unfold live in Hu. simpl in Hu. apply Hmem in Hu as [Hu Hne].
    assert (f ∈ free_entity_ids_ r ∨ f = e) as [Hf'| ->].
    { destruct Hfree as [->| ->]; [by left|].
      apply elem_of_app in Hf as [Hf|Hf%list_elem_of_singleton]; auto. }
    + by apply W6.
    + intros E. apply Hne. symmetry. by eapply live_index_inj.
  - intros st Hst. destruct (W9 st Hst) as [Wc Hk]. split; [done|].
    intros u Hu. unfold live. simpl. apply Hmem. split; [by apply Hk|].
    intros ->. by apply (Hgone st).
Qed.

Lemma destroy_entity_spec (r : registry) e h :
  wf r →
  match destroy_entity e r h with
  | Normal b r' h' =>
      wf r' ∧ (granted h → granted h') ∧ b = bool_decide (e ∈ live r) ∧
      last_entity_id_ r' = last_entity_id_ r ∧
      match b with
      | true =>
          (∀ u, u ∈ live r' ↔ u ∈ live r ∧ u ≠ e) ∧
          free_entity_ids_ r' = free_entity_ids_ r ++ [e]
      | false => r' = r ∧ h' = h
      end
  | Raised err r' h' =>
      err = bad_alloc ∧ ¬ granted h ∧ wf r' ∧ e ∈ live r ∧
      (∀ u, u ∈ live r' ↔ u ∈ live r ∧ u ≠ e) ∧
      free_entity_ids_ r' = free_entity_ids_ r ∧
      last_entity_id_ r' = last_entity_id_ r
  | Undefined => False
  end.
Proof.
  intros W. unfold destroy_entity, bind.
  pose proof (remove_all_components_spec r e h W) as R.
  destruct (remove_all_components_impl_ e r h) as [c r1 h1|err r1 h1|]; [|done|done].
  destruct R as (-> & W1 & E1 & E2 & E3 & E4 & Hgone & Hsame).
  unfold on_member at 1.
  pose proof (ent unordered_erase_spec (entity_ids_ r1) e h (wf_entity_ids _ _ W1)) as U.
  pose proof (ent unordered_erase_elem_of (entity_ids_ r1) e h) as Umem.
  destruct (sparse_set.unordered_erase _ _ _ _) as [b s' h2|err s' h2|]; [|done|done].
  destruct U as (-> & Ws' & Hcap & U). destruct b.
  - destruct U as (i & Hi & _ & _).
    assert (e ∈ live r) as He.
    { unfold live. rewrite <- E1. by eapply list_elem_of_lookup_2. }
    assert (∀ u, u ∈ sparse_set.elements s' ↔ u ∈ live r1 ∧ u ≠ e) as Hmem.
    { intros u. by apply (Umem s' h u (wf_entity_ids _ _ W1)). }
    assert (live r1 = live r) as Hlive by (unfold live; by rewrite E1).
    rewrite <- Hlive in He.
    unfold on_member, push_back, bind, get, put. simpl.
    pose proof (allocate_spec (free_entity_ids_ r1) h) as A.
    destruct (allocate _ _) as [[] l h3|err l h3|]; [| |done].
    + destruct A as (-> & G & _). unfold ret.
      split_and!; try done.
      * apply (wf_after_erase r1 e s' _ W1 He Ws' Hcap Hmem Hgone). by right.
      * symmetry. apply bool_decide_eq_true_2. by rewrite <- Hlive.
      * intros u. unfold live at 1. simpl. by rewrite Hmem, Hlive.
      * simpl. by rewrite E3.
    + destruct A as (-> & -> & G).
      split_and!; try done.
      * apply (wf_after_erase r1 e s' _ W1 He Ws' Hcap Hmem Hgone). by left.
      * by rewrite <- Hlive.
      * intros u. unfold live at 1. simpl. by rewrite Hmem, Hlive.
  - destruct U as (Hnin & ->).
    assert (e ∉ live r) as He by (unfold live; by rewrite <- E1).
    rewrite (Hsame He). unfold set_entity_ids. rewrite registry_eta. unfold ret.
    split_and!; try done.
    symmetry. by apply bool_decide_eq_false_2.
Qed.

Lemma find_component_spec (r : registry) family e :
  wf r →
  find_component_impl_ r family e =
    Some (st ← sparse_map.lookup (storages_ r) family; clookup st e).
Proof.
  intros W. unfold find_component_impl_. rewrite find_storage_spec by done. simpl.
  destruct (sparse_map.lookup (storages_ r) family) as [st|] eqn:Hst; [|done].
  simpl. unfold component_storage.find.
  apply (tbl lookup_Some_position) in Hst as (i & _ & Hi).
  apply (ent find_value_spec).
  by apply (wf_components _ _ W st (list_elem_of_lookup_2 _ _ _ Hi)).
Qed.

Lemma exists_component_spec (r : registry) family e :
  wf r →
  exists_component r family e =
    Some (bool_decide (e ∈ live r) &&
          match sparse_map.lookup (storages_ r) family with
          | Some st => bool_decide (e ∈ ckeys st)
          | None => false
          end).
Proof.
  intros W. unfold exists_component. rewrite is_entity_alive_spec by done. simpl.
  case_bool_decide as Hl; simpl; [|done].
  rewrite find_storage_spec by done. simpl.
  destruct (sparse_map.lookup (storages_ r) family) as [st|] eqn:Hst; [|done].
  pose proof Hst as (i & _ & Hi)%(tbl lookup_Some_position).
  destruct (wf_components _ _ W st (list_elem_of_lookup_2 _ _ _ Hi)) as [Wc _].
  unfold component_storage.exists_. by rewrite (ent map_has_spec) by done.
Qed.

Lemma get_or_create_storage_spec (r : registry) family h :
  wf r → is_family_id family →
  match get_or_create_storage_ vmax family r h with
  | Normal _ r' h' =>
      wf r' ∧ (granted h → granted h') ∧
      entity_ids_ r' = entity_ids_ r ∧ last_entity_id_ r' = last_entity_id_ r ∧
      free_entity_ids_ r' = free_entity_ids_ r ∧
      match sparse_map.lookup (storages_ r) family with
      | Some st => r' = r ∧ h' = h
      | None =>
          sparse_map.keys (storages_ r') = sparse_map.keys (storages_ r) ++ [family] ∧
          sparse_map.values_ (storages_ r') =
            sparse_map.values_ (storages_ r) ++ [component_storage.empty]
      end
  | Raised err r' h' =>
      r' = r ∧ sparse_map.lookup (storages_ r) family = None ∧
      ((err = length_error ∧ vmax ≤ family) ∨ (err = bad_alloc ∧ ¬ granted h))
  | Undefined => False
  end.
Proof.
  intros W Hfam. pose proof W as [W1 W2 W3 W4 W5 W6 W7 W8 W9].
  unfold get_or_create_storage_, bind, get, defined.
  rewrite find_storage_spec by done. unfold ret at 1.
  destruct (sparse_map.lookup (storages_ r) family) as [st|] eqn:Hst.
  { unfold ret. split_and!; done. }
  assert (family ∉ sparse_map.keys (storages_ r)) as Hnin.
  { intros Hin%(tbl lookup_is_Some); [|done]. rewrite Hst in Hin. by destruct Hin. }
  pose proof (allocate_spec r h) as A.
  destruct (allocate r h) as [[] r0 h1|err r0 h1|]; [| |done].
  2:{ destruct A as (-> & -> & G). split_and!; try done. by right. }
  destruct A as (-> & G1 & _).
  unfold on_member at 1.
  pose proof (tbl map_emplace_spec (storages_ r) family component_storage.empty h1 W7) as E.
  lapply E; [clear E; intros E|by apply family_slot_free].
  assert (sparse_unsigned_indexer family = family) as Hix.
  { unfold sparse_unsigned_indexer. apply wrap_size_t_small.
    unfold is_family_id, family_id_modulus, size_t_modulus in *. lia. }
  lapply E; [clear E; intros E|].
  2:{ rewrite Hix. unfold is_family_id, family_id_modulus, size_t_modulus in *. lia. }
  destruct (sparse_map.emplace _ _ _ _ _ _) as [b m' h2|err m' h2|]; [| |done].
  - destruct E as (Wm' & G2 & _ & E). destruct b; [|by destruct E].
    destruct E as (_ & Hks & Hvs).
    set (r1 := set_storages m' r).
    assert (wf r1) as Wr1.
    { split; try done.
      - intros f. simpl. rewrite Hks.
        intros [?|Hx%list_elem_of_singleton]%elem_of_app; [by apply W8|by subst].
      - intros st. simpl. rewrite Hvs.
        intros [?|Hx%list_elem_of_singleton]%elem_of_app; [by apply W9|subst].
        split; [by apply (ent map_wf_empty)|]. by intros e ?%elem_of_nil. }
    pose proof (tbl length_keys (storages_ r) W7) as Hl.
    rewrite (on_storage_spec r1 family _ h2 (length (sparse_map.keys (storages_ r)))
               component_storage.empty Wr1).
    2:{ simpl. rewrite Hks. by apply list_lookup_middle. }
    2:{ simpl. rewrite Hvs. by apply list_lookup_middle. }
    unfold ret. rewrite update_storage_id.
    2:{ simpl. rewrite Hvs. by apply list_lookup_middle. }
    split_and!; try done. auto.
  - destruct E as (-> & _ & E).
    unfold set_storages. rewrite registry_eta. split_and!; try done.
    destruct E as [(-> & E)|(-> & E)]; [left|right]; split; try done.
    + by rewrite <- Hix.
    + intros G. by apply E, G1.
Qed.

(** The keys of the storage of [family], in dense order; none when
    there is no storage. *)
Local Abbreviation fkeys r family :=
  (match sparse_map.lookup (storages_ r) family with
   | Some st => ckeys st
   | None => []
   end) (only parsing).

Lemma table_lookup_update (r : registry) (i : nat) family st' family' :
  wf r → sparse_map.keys (storages_ r) !! i = Some family →
  sparse_map.lookup (storages_ (update_storage i st' r)) family' =
    if decide (family' = family) then Some st'
    else sparse_map.lookup (storages_ r) family'.
Proof.
  intros W Hi. by apply (tbl lookup_set_values); [apply W|].
Qed.

Lemma assign_component_spec (r : registry) family e args h :
  wf r → is_family_id family →
  match assign_component vmax family e args r h with
  | Normal b r' h' =>
      wf r' ∧ (granted h → granted h') ∧ b = bool_decide (e ∈ live r) ∧
      entity_ids_ r' = entity_ids_ r ∧ last_entity_id_ r' = last_entity_id_ r ∧
      free_entity_ids_ r' = free_entity_ids_ r ∧
      match b with
      | true =>
          ∃ st', sparse_map.lookup (storages_ r') family = Some st' ∧
            (∀ e', clookup st' e' =
               if decide (e' = e) then Some args
               else st ← sparse_map.lookup (storages_ r) family; clookup st e') ∧
            ckeys st' =
              (if decide (e ∈ fkeys r family) then fkeys r family
               else fkeys r family ++ [e]) ∧
            (e ∈ fkeys r family → h' = h)
      | false => r' = r ∧ h' = h
      end
  | Raised err r' h' =>
      wf r' ∧ e ∈ live r ∧
      entity_ids_ r' = entity_ids_ r ∧ last_entity_id_ r' = last_entity_id_ r ∧
      free_entity_ids_ r' = free_entity_ids_ r ∧
      (e ∉ fkeys r family) ∧
      (err = length_error ∨ (err = bad_alloc ∧ ¬ granted h))
  | Undefined => False
  end.
Proof.
  intros W Hfam. unfold assign_component, bind, get, defined.
  rewrite is_entity_alive_spec by done. unfold ret at 1.
  case_bool_decide as He; simpl; [|by unfold ret].
  pose proof (get_or_create_storage_spec r family h W Hfam) as G.
  destruct (get_or_create_storage_ vmax family r h) as [[] r1 h1|err r1 h1|]; [| |done].
  2:{ destruct G as (-> & Hnone & G). rewrite Hnone. split_and!; try done.
      - by intros ?%elem_of_nil.
      - destruct G as [[-> _]|G]; [by left|by right]. }
  destruct G as (W1 & G1 & E1 & E2 & E3 & G).
  assert (e ∈ live r1) as He1 by (unfold live; by rewrite E1).
  assert (∃ (i : nat) st1,
            sparse_map.keys (storages_ r1) !! i = Some family ∧
            sparse_map.values_ (storages_ r1) !! i = Some st1 ∧
            ckeys st1 = fkeys r family ∧
            (∀ e', clookup st1 e' = st ← sparse_map.lookup (storages_ r) family; clookup st e') ∧
            (e ∈ fkeys r family → h1 = h))
    as (i & st1 & Hi & Hst1 & Hks1 & Hlk1 & Hh1).
  { destruct (sparse_map.lookup (storages_ r) family) as [st|] eqn:Hst.
    - destruct G as (-> & ->).
      apply (tbl lookup_Some_position) in Hst as (i & Hi & Hst). eauto 10.
    - destruct G as (Hks & Hvs).
      pose proof (tbl length_keys (storages_ r) (wf_storages _ _ W)) as Hl.
      exists (length (sparse_map.keys (storages_ r))), component_storage.empty.
      split_and!; try done.
      + rewrite Hks. by apply list_lookup_middle.
      + rewrite Hvs. by apply list_lookup_middle.
      + by intros ?%elem_of_nil. }
  assert (storage_ok r1 st1) as Hok1.
  { apply (wf_components _ _ W1). by eapply list_elem_of_lookup_2. }
  rewrite (on_storage_spec r1 family _ h1 i st1) by done.
  pose proof (storage_assign_spec r1 st1 e args h1 W1 Hok1 He1) as A.
  destruct (component_storage.assign vmax e args st1 h1) as [[] st' h2|err st' h2|]; [| |done].
  - destruct A as (Hok' & G2 & Hlk & Hks & Hh2).
    unfold ret. split_and!; try done.
    + by apply wf_update_storage.
    + auto.
    + exists st'. split_and!.
      * rewrite (table_lookup_update r1 i family) by done. by rewrite decide_True.
      * intros e'. rewrite Hlk. destruct (decide (e' = e)); [done|apply Hlk1].
      * rewrite Hks, Hks1. done.
      * intros Hin. rewrite Hh2, Hh1; try done. by rewrite Hks1.
  - destruct A as (-> & Hnin & A). rewrite update_storage_id by done.
    split_and!; try done.
    + by rewrite <- Hks1.
    + destruct A as [[-> _]|[-> A]]; [by left|right]. split; [done|].
      intros Gh. by apply A, G1.
Qed.

Lemma remove_component_spec (r : registry) family e h :
  wf r → is_family_id family →
  match remove_component family e r h with
  | Normal b r' h' =>
      h' = h ∧ wf r' ∧
      entity_ids_ r' = entity_ids_ r ∧ last_entity_id_ r' = last_entity_id_ r ∧
      free_entity_ids_ r' = free_entity_ids_ r ∧
      b = bool_decide (e ∈ live r) && bool_decide (e ∈ fkeys r family)
  | Raised _ _ _ => False
  | Undefined => False
  end.
Proof.
  intros W Hfam. unfold remove_component, bind, get, defined.
  rewrite is_entity_alive_spec by done. unfold ret at 1.
  case_bool_decide as He; simpl; [|by unfold ret].
  rewrite find_storage_spec by done. unfold ret at 1.
  destruct (sparse_map.lookup (storages_ r) family) as [st|] eqn:Hst.
  2:{ unfold ret. split_and!; try done. }
  apply (tbl lookup_Some_position) in Hst as (i & Hi & Hst).
  rewrite (on_storage_spec r family _ h i st) by done.
  assert (storage_ok r st) as Hok.
  { apply (wf_components _ _ W). by eapply list_elem_of_lookup_2. }
  pose proof (storage_remove_spec r st e h Hok) as R.
  destruct (component_storage.remove e st h) as [b st' h'|err st' h'|]; [|done|done].
  destruct R as (-> & Hok' & -> & _). split_and!; try done.
  by apply wf_update_storage.
Qed.

Lemma get_component_assign_spec (r : registry) family e v h :
  wf r → is_family_id family →
  match get_component_assign family e v r h with
  | Normal _ r' h' =>
      h' = h ∧ wf r' ∧
      entity_ids_ r' = entity_ids_ r ∧ last_entity_id_ r' = last_entity_id_ r ∧
      free_entity_ids_ r' = free_entity_ids_ r
  | Raised err r' h' => err = logic_error ∧ r' = r ∧ h' = h
  | Undefined => False
  end.
Proof.
  intros W Hfam. unfold get_component_assign, bind, get, defined.
  rewrite find_component_spec by done. unfold ret at 1.
  destruct (sparse_map.lookup (storages_ r) family) as [st|] eqn:Hst; simpl; [|done].
  apply (tbl lookup_Some_position) in Hst as (i & Hi & Hst).
  assert (storage_ok r st) as [Wc Hk].
  { apply (wf_components _ _ W). by eapply list_elem_of_lookup_2. }
  destruct (clookup st e) as [c|] eqn:Hc; [|done].
  assert (e ∈ ckeys st) as Hin.
  { apply (ent lookup_is_Some); [done|]. by rewrite Hc. }
  apply list_elem_of_lookup in Hin as [j Hj].
  rewrite (on_storage_spec r family _ h i st) by done.
  unfold on_member.
  rewrite (ent map_get_value_assign_spec _ e v h j) by done.
  split_and!; try done.
  apply wf_update_storage; [done|]. split; simpl; [|done].
  apply (ent wf_set_values); [done|]. by rewrite length_insert.
Qed.

(** Every state a registry can be in is well formed. *)
Lemma reachable_wf (r : registry) : reachable vmax r → wf r.
Proof.
  induction 1 as [|r c h r' Hr IH Hfam Hrun].
  - apply wf_empty_registry.
  - destruct c as [|e|family e args|family e|e|family e v]; simpl in *.
    + unfold bind in Hrun. pose proof (create_entity_spec r h IH) as S.
      destruct (create_entity vmax r h); simpl in Hrun; [| |done].
      * injection Hrun as <-. apply S.
      * injection Hrun as <-. apply S.
    + unfold bind in Hrun. pose proof (destroy_entity_spec r e h IH) as S.
      destruct (destroy_entity e r h); simpl in Hrun; [| |done].
      * injection Hrun as <-. apply S.
      * injection Hrun as <-. apply S.
    + unfold bind in Hrun. pose proof (assign_component_spec r family e args h IH Hfam) as S.
      destruct (assign_component vmax family e args r h); simpl in Hrun; [| |done].
      * injection Hrun as <-. apply S.
      * injection Hrun as <-. apply S.
    + unfold bind in Hrun. pose proof (remove_component_spec r family e h IH Hfam) as S.
      destruct (remove_component family e r h); simpl in Hrun; [|done|done].
      injection Hrun as <-. apply S.
    + unfold bind in Hrun. pose proof (remove_all_components_spec r e h IH) as S.
      unfold remove_all_components in Hrun.
      destruct (remove_all_components_impl_ e r h); simpl in Hrun; [|done|done].
      injection Hrun as <-. apply S.
    + pose proof (get_component_assign_spec r family e v h IH Hfam) as S.
      destruct (get_component_assign family e v r h); simpl in Hrun; [| |done].
      * injection Hrun as <-. apply S.
      * injection Hrun as <-. by destruct S as (_ & -> & _).
Qed.

End registry_facts.
(** ** The registry: what the specification says *)

Section registry_claims.
Import registry.
Context {Comp : Type}.
Variable vmax : Z.
Hypothesis vmax_range : 0 ≤ vmax < size_t_modulus.

Set Default Proof Using "All".

Local Abbreviation registry := (registry.t Comp).
Local Abbreviation storage := (component_storage.t Comp).
Local Abbreviation wf := (registry.wf (Comp:=Comp) vmax).
Local Abbreviation ent X :=
  (X entity_id_indexer vmax entity_id_indexer_range vmax_range) (only parsing).
Local Abbreviation tbl X :=
  (X sparse_unsigned_indexer vmax sparse_unsigned_indexer_range vmax_range) (only parsing).

Lemma reachable_run_calls (cs : list (call * heap)) :
  ∀ r r' : registry,
    reachable vmax r → Forall (λ c, call_family_ok c.1) cs →
    run_calls vmax cs r = Some r' → reachable vmax r'.
Proof.
  induction cs as [|[c h] cs IH]; intros r r' Hr Hok Hrun; simpl in *.
  - by injection Hrun as <-.
  - apply Forall_cons in Hok as [Hc Hok].
    destruct (left_by (run_call vmax c r h)) as [r1|] eqn:Hl; [|done].
    simpl in Hrun. eapply IH; [|done|done]. by eapply reachable_call.
Qed.

Lemma alive_false_not_live (r : registry) e :
  wf r → is_entity_alive r e = Some false → e ∉ live r.
Proof.
  intros W. unfold is_entity_alive. rewrite (is_entity_alive_spec vmax) by done.
  intros [= H]. by apply bool_decide_eq_false in H.
Qed.

Lemma alive_true_live (r : registry) e :
  wf r → is_entity_alive r e = Some true → e ∈ live r.
Proof.
  intros W. unfold is_entity_alive. rewrite (is_entity_alive_spec vmax) by done.
  intros [= H]. by apply bool_decide_eq_true in H.
Qed.

(** C1.  A handle that is not alive, because its index is free or
    because the index went to another entity that is alive, gives no
    access to components: for every component type [find_component]
    returns the null pointer and [get_component] throws
    component-not-found, leaving the registry as it was. *)
Theorem stale_handle_no_component (r : registry) (e family : Z) (h : heap) :
  reachable vmax r → is_family_id family →
  is_entity_alive r e = Some false →
  find_component r family e = Some None ∧
  get_component family e r h = Raised logic_error r h.
Proof.
  intros Hr Hfam Ha. pose proof (reachable_wf vmax vmax_range r Hr) as W.
  pose proof (alive_false_not_live r e W Ha) as He.
  assert (find_component_impl_ r family e = Some None) as Hf.
  { rewrite (find_component_spec vmax) by done. f_equal.
    destruct (sparse_map.lookup (storages_ r) family) as [st|] eqn:Hst; [|done].
    simpl. apply (tbl lookup_Some_position) in Hst as (i & _ & Hi).
    destruct (wf_components _ _ W st (list_elem_of_lookup_2 _ _ _ Hi)) as [Wc Hk].
    apply (ent lookup_absent). intros Hin. by apply He, Hk. }
  split; [done|].
  unfold get_component, bind, get, defined. by rewrite Hf.
Qed.

(** C10.  [assign_component] on a handle that is not alive returns
    false and leaves the registry as it was: no storage is made and no
    component is touched. *)
Theorem assign_component_not_alive (r : registry) (e family : Z) (args : Comp) (h : heap) :
  is_entity_alive r e = Some false →
  assign_component vmax family e args r h = Normal false r h.
Proof using Type.
  intros Ha. unfold assign_component, bind, get, defined.
  unfold is_entity_alive in Ha. by rewrite Ha.
Qed.

(** C3.  [create_entity] on a registry with freed ids takes the id [f]
    freed last off the free list and returns the entity with the index
    of [f] and the generation of [f] plus one modulo [2^10], now alive.
    With no freed id and [last_entity_id_] below [2^22 - 1] it raises
    [last_entity_id_] by one and returns that index with generation 0,
    now alive, when the allocator grants what the live set asks for.
    With no freed id and the index space used up it throws. *)
Theorem create_entity_cases (r : registry) (h : heap) :
  reachable vmax r → entity_id_index_mask < vmax →
  match last (free_entity_ids_ r) with
  | Some f =>
      ∃ e r',
        create_entity vmax r h = Normal e r' h ∧
        entity_id_index e = entity_id_index f ∧
        entity_id_version e = (entity_id_version f + 1) mod 2 ^ 10 ∧
        free_entity_ids_ r' =
          take (length (free_entity_ids_ r) - 1) (free_entity_ids_ r) ∧
        last_entity_id_ r' = last_entity_id_ r ∧
        live r' = live r ++ [e] ∧ is_entity_alive r' e = Some true
  | None =>
      if bool_decide (last_entity_id_ r < 2 ^ 22 - 1) then
        granted h →
        ∃ e r' h',
          create_entity vmax r h = Normal e r' h' ∧
          last_entity_id_ r' = last_entity_id_ r + 1 ∧
          e = last_entity_id_ r' ∧
          entity_id_index e = last_entity_id_ r' ∧ entity_id_version e = 0 ∧
          free_entity_ids_ r' = [] ∧
          live r' = live r ++ [e] ∧ is_entity_alive r' e = Some true
      else create_entity vmax r h = Raised logic_error r h
  end.
Proof.
  intros Hr Hvmax. pose proof (reachable_wf vmax vmax_range r Hr) as W.
  pose proof (create_entity_spec vmax vmax_range r h W) as S.
  assert (∀ e (r' : registry), wf r' → live r' = live r ++ [e] →
            is_entity_alive r' e = Some true) as Halive.
  { intros e r' W' Hl. unfold is_entity_alive.
    rewrite (is_entity_alive_spec vmax) by done. f_equal.
    apply bool_decide_eq_true_2. rewrite Hl. apply elem_of_app. right.
    by apply list_elem_of_singleton. }
  destruct (last (free_entity_ids_ r)) as [f|] eqn:Hl.
  - destruct (create_entity vmax r h) as [e r' h'|err r' h'|]; [| |done].
    + destruct S as (W' & _ & _ & Hlive & _ & -> & Hfree & Hlast & ->).
      pose proof (entity_id_index_range f) as Hfr. rewrite entity_id_index_mask_val in Hfr.
      eexists _, r'. split_and!; try done.
      * apply entity_id_index_join. lia.
      * rewrite entity_id_version_join by lia.
        pose proof (entity_id_version_range f).
        unfold entity_id_modulus. rewrite (Z.mod_small _ (2 ^ 32)) by lia. done.
      * by apply Halive.
    + destruct S as (_ & Hnil & _). rewrite Hnil in Hl. done.
  - rewrite <- entity_id_index_mask_val.
    case_bool_decide as Hlast.
    + intros Gh.
      destruct (create_entity vmax r h) as [e r' h'|err r' h'|]; [| |done].
      * destruct S as (W' & _ & _ & Hlive & _ & -> & _ & Hl' & Hfree).
        eexists _, r', h'. split_and!; try done.
        -- rewrite Hl'. apply entity_id_index_small. destruct W. lia.
        -- rewrite entity_id_version_mod. rewrite Z.div_small; [done|].
           rewrite entity_id_index_mask_val in Hlast. destruct W. lia.
        -- by apply Halive.
      * destruct S as (_ & _ & [(_ & _ & _ & Hm)|(_ & _ & [(_ & Hv & _)|(_ & Hg)])]); [lia|lia|done].
    + destruct (create_entity vmax r h) as [e r' h'|err r' h'|]; [| |done].
      * by destruct S as (_ & _ & _ & _ & _ & _ & ? & _).
      * destruct S as (_ & _ & [(-> & -> & -> & _)|(? & _)]); [done|lia].
Qed.

(** What a [create_entity] that throws leaves.  It throws only when no
    id is freed, so no id leaves the free list; the live set and the
    storages are as they were; [last_entity_id_] is as it was when the
    index space is used up, and one higher when the live set could not
    grow. *)
Lemma create_entity_throw_cases (r r' : registry) (h h' : heap) (err : exn) :
  reachable vmax r → create_entity vmax r h = Raised err r' h' →
  free_entity_ids_ r = [] ∧ free_entity_ids_ r' = [] ∧
  entity_ids_ r' = entity_ids_ r ∧ storages_ r' = storages_ r ∧
  (err = logic_error → r' = r) ∧
  (err ≠ logic_error → last_entity_id_ r' = last_entity_id_ r + 1).
Proof.
  intros Hr Hc. pose proof (reachable_wf vmax vmax_range r Hr) as W.
  pose proof (create_entity_spec vmax vmax_range r h W) as S. rewrite Hc in S.
  destruct S as (_ & Hnil & [(-> & -> & _)|(_ & -> & [(-> & _)|(-> & _)])]);
    split_and!; try done.
Qed.

Local Abbreviation buried := (registry.buried (Comp:=Comp) vmax).

Lemma buried_create_entity (e : Z) (r : registry) h :
  buried e r →
  ∃ r', left_by (create_entity vmax r h) = Some r' ∧ buried e r'.
Proof.
  intros (W & Hd & Hle & Hfree).
  pose proof (create_entity_spec vmax vmax_range r h W) as S.
  destruct (create_entity vmax r h) as [e2 r' h'|err r' h'|]; [| |done].
  - exists r'. split; [done|].
    destruct S as (W' & _ & _ & Hlive & _ & S). split; [done|].
    destruct (last (free_entity_ids_ r)) as [f|] eqn:Hl.
    + destruct S as (-> & Hf' & Hlast & _).
      assert (f ∈ free_entity_ids_ r) as Hf.
      { rewrite last_lookup in Hl. by eapply list_elem_of_lookup_2. }
      split_and!.
      * rewrite Hlive. intros [?|Heq%list_elem_of_singleton]%elem_of_app; [done|].
        pose proof (entity_id_index_range f) as Hfr. rewrite entity_id_index_mask_val in Hfr.
        assert (entity_id_index f = entity_id_index e) as Hfe.
        { rewrite Heq. rewrite entity_id_index_join by lia. done. }
        rewrite <- (Hfree f Hf Hfe) in Heq. symmetry in Heq.
        by apply entity_id_bump_ne in Heq.
      * by rewrite Hlast.
      * intros f'. rewrite Hf'. intros (j & Hj & _)%elem_of_take.
        apply Hfree. by eapply list_elem_of_lookup_2.
    + destruct S as (-> & Hlt & Hlast & Hf'). split_and!.
      * rewrite Hlive. intros [?|Heq%list_elem_of_singleton]%elem_of_app; [done|].
        rewrite Heq in Hle. rewrite entity_id_index_small in Hle; [lia|].
        destruct W. lia.
      * rewrite Hlast. lia.
      * rewrite Hf'. by intros f' ?%elem_of_nil.
  - exists r'. split; [done|].
    destruct S as (W' & Hnil & [(_ & -> & _)|(_ & -> & _)]); [done|].
    split_and!; try done. simpl. lia.
Qed.

(** C4.  Once [destroy_entity(e)] has returned true, [e] is not alive,
    and it is not alive after any run of [create_entity] calls that
    follows, whether they return or throw, and whichever entities they
    make. *)
Theorem destroyed_entity_stays_dead (r r1 : registry) (e : Z) (h h1 : heap)
    (hs : list heap) :
  reachable vmax r →
  destroy_entity e r h = Normal true r1 h1 →
  ∃ r2, create_entities vmax hs r1 = Some r2 ∧ is_entity_alive r2 e = Some false.
Proof.
  intros Hr Hd. pose proof (reachable_wf vmax vmax_range r Hr) as W.
  pose proof (destroy_entity_spec vmax vmax_range r e h W) as S. rewrite Hd in S.
  destruct S as (W1 & _ & Hb & Hlast & Hmem & Hfree).
  symmetry in Hb. apply bool_decide_eq_true in Hb.
  assert (buried e r1) as Hbur.
  { split_and!; try done.
    - rewrite Hmem. tauto.
    - rewrite Hlast. by apply (wf_live _ _ W).
    - intros f. rewrite Hfree.
      intros [Hf|Hf%list_elem_of_singleton]%elem_of_app; [|done].
      intros Heq. by destruct (wf_free_live _ _ W f e Hf Hb). }
  clear Hd Hmem Hfree Hlast W1. revert r1 Hbur.
  induction hs as [|h2 hs IH]; intros r1 Hbur; simpl.
  - exists r1. split; [done|]. destruct Hbur as (W1 & Hnl & _).
    unfold is_entity_alive. rewrite (is_entity_alive_spec vmax) by done.
    by rewrite bool_decide_eq_false_2.
  - destruct (buried_create_entity e r1 h2 Hbur) as (r' & -> & Hbur'). simpl.
    by apply IH.
Qed.

(** C6, as the code has it.  [destroy_entity] on a handle that is not
    alive returns false and leaves the registry as it was: it removes no
    component, whatever entity may hold the index of the handle. *)
Theorem destroy_entity_not_alive (r : registry) (e : Z) (h : heap) :
  reachable vmax r → is_entity_alive r e = Some false →
  destroy_entity e r h = Normal false r h.
Proof.
  intros Hr Ha. pose proof (reachable_wf vmax vmax_range r Hr) as W.
  pose proof (alive_false_not_live r e W Ha) as He.
  pose proof (destroy_entity_spec vmax vmax_range r e h W) as S.
  destruct (destroy_entity e r h) as [b r' h'|err r' h'|]; [| |done].
  - destruct S as (_ & _ & -> & _ & S).
    rewrite bool_decide_eq_false_2 in * by done. by destruct S as (-> & ->).
  - by destruct S as (_ & _ & _ & ? & _).
Qed.

Lemma dense_order_spec (r : registry) family :
  wf r →
  dense_order r family =
    match sparse_map.lookup (storages_ r) family with
    | Some st => sparse_map.keys (component_storage.components_ st)
    | None => []
    end.
Proof.
  intros W. unfold dense_order. rewrite (find_storage_spec vmax) by done.
  by destruct (sparse_map.lookup _ _).
Qed.

(** C9.  Assigning twice overwrites: when [assign_component<T>(e, a)]
    has returned true, [assign_component<T>(e, b)] returns true as well
    and asks nothing of the allocator; afterwards [get_component<T>(e)]
    is the component made from [b], and the storage of [T] has exactly
    one entry at the index of [e], that of [e] itself. *)
Theorem assign_twice_overwrites (r r1 : registry) (e family : Z) (a b : Comp)
    (h h1 h2 h3 : heap) :
  reachable vmax r → is_family_id family →
  is_entity_alive r e = Some true →
  assign_component vmax family e a r h = Normal true r1 h1 →
  ∃ r2,
    assign_component vmax family e b r1 h2 = Normal true r2 h2 ∧
    get_component family e r2 h3 = Normal b r2 h3 ∧
    find_component r2 family e = Some (Some b) ∧
    filter (λ k, entity_id_index k = entity_id_index e) (dense_order r2 family) = [e].
Proof.
  intros Hr Hfam Ha H1. pose proof (reachable_wf vmax vmax_range r Hr) as W.
  pose proof (alive_true_live r e W Ha) as He.
  pose proof (assign_component_spec vmax vmax_range r family e a h W Hfam) as S1.
  rewrite H1 in S1. destruct S1 as (W1 & _ & _ & E1 & _ & _ & st1 & Hst1 & _ & Hks1 & _).
  assert (e ∈ sparse_map.keys (component_storage.components_ st1)) as Hin1.
  { rewrite Hks1. case_decide; [done|]. apply elem_of_app. right.
    by apply list_elem_of_singleton. }
  pose proof (assign_component_spec vmax vmax_range r1 family e b h2 W1 Hfam) as S2.
  rewrite Hst1 in S2.
  destruct (assign_component vmax family e b r1 h2) as [b2 r2 h2'|err r2 h2'|]; [| |done].
  2:{ by destruct S2 as (_ & _ & _ & _ & _ & ? & _). }
  destruct S2 as (W2 & _ & -> & _ & _ & _ & S2).
  rewrite bool_decide_eq_true_2 in * by (unfold live; by rewrite E1).
  destruct S2 as (st2 & Hst2 & Hlk2 & Hks2 & Hh2).
  rewrite (Hh2 Hin1). exists r2.
  assert (find_component_impl_ r2 family e = Some (Some b)) as Hf.
  { rewrite (find_component_spec vmax) by done. rewrite Hst2. simpl.
    rewrite Hlk2. by rewrite decide_True. }
  split_and!; try done.
  - unfold get_component, bind, get, defined. by rewrite Hf.
  - rewrite dense_order_spec, Hst2 by done.
    rewrite decide_True in Hks2 by done. rewrite Hks2.
    apply (tbl lookup_Some_position) in Hst1 as (i & _ & Hi).
    destruct (wf_components _ _ W1 st1 (list_elem_of_lookup_2 _ _ _ Hi)) as [[Wc _] _].
    pose proof (ent indices_NoDup _ Wc) as Hnd.
    unfold entity_id_indexer in Hnd. unfold sparse_map.keys in *.
    by apply filter_fmap_singleton.
Qed.

(** The components of [e] for the types [Ts], in order; none when one
    is missing. *)
Local Abbreviation components_of r Ts e :=
  (mapM (λ Ti, st ← sparse_map.lookup (storages_ r) Ti;
               sparse_map.lookup (component_storage.components_ st) e) Ts)
  (only parsing).

Lemma mapM_find_storage (r : registry) (Ts : list Z) :
  wf r → mapM (find_storage_ r) Ts = Some (sparse_map.lookup (storages_ r) <$> Ts).
Proof.
  intros W. apply mapM_Some. apply Forall2_fmap_r, Forall_Forall2_diag.
  apply Forall_forall. intros Ti _. by apply (find_storage_spec vmax).
Qed.

Lemma tuple_contains_nullptr_spec (ss : list (option storage)) :
  tuple_contains_nullptr ss = true ↔ None ∈ ss.
Proof.
  induction ss as [|[st|] ss IH]; simpl.
  - split; [done|by intros ?%elem_of_nil].
  - rewrite IH. split; [by right|]. by intros [?|?]%elem_of_cons.
  - split; [by left|done].
Qed.

Lemma probe_spec (r : registry) e (Ts : list Z) :
  wf r → Forall (λ Ti, is_Some (sparse_map.lookup (storages_ r) Ti)) Ts →
  ∀ cs,
  for_joined_components_probe_ e (sparse_map.lookup (storages_ r) <$> Ts) cs =
    Some (cs' ← components_of r Ts e; Some (cs ++ cs')).
Proof.
  intros W. induction Ts as [|Ti Ts IH]; intros Hall cs; simpl.
  - by rewrite app_nil_r.
  - apply Forall_cons in Hall as [[st Hst] Hall]. rewrite Hst. simpl.
    pose proof Hst as (i & _ & Hi)%(tbl lookup_Some_position).
    destruct (wf_components _ _ W st (list_elem_of_lookup_2 _ _ _ Hi)) as [Wc _].
    unfold component_storage.find. rewrite (ent find_value_spec) by done. simpl.
    destruct (sparse_map.lookup (component_storage.components_ st) e) as [c|]; simpl; [|done].
    rewrite IH by done.
    destruct (mapM _ Ts); simpl; [|done]. by rewrite <- app_assoc.
Qed.

Lemma components_of_is_Some (r : registry) (Ts : list Z) e :
  wf r → e ∈ live r →
  is_Some (components_of r Ts e) ↔
  Forall (λ Ti, exists_component r Ti e = Some true) Ts.
Proof.
  intros W He. rewrite mapM_is_Some. apply Forall_proper; [|done].
  intros Ti. simpl. rewrite (exists_component_spec vmax) by done.
  rewrite bool_decide_eq_true_2 by done. simpl.
  destruct (sparse_map.lookup (storages_ r) Ti) as [st|] eqn:Hst; simpl.
  - pose proof Hst as (i & _ & Hi)%(tbl lookup_Some_position).
    destruct (wf_components _ _ W st (list_elem_of_lookup_2 _ _ _ Hi)) as [Wc _].
    rewrite (ent lookup_is_Some) by done.
    split; [intros H; by rewrite bool_decide_eq_true_2|].
    intros [= H]. by apply bool_decide_eq_true in H.
  - split; [by intros []|done].
Qed.

(** C2.  [for_joined_components<T, Ts...>] calls the visitor once for
    each entry of [visits], in order.  The entities of [visits] are those
    of the dense order of the storage of [T] that have a component of
    every type of the list, in that order; none is there twice; they are
    the entities that are alive and have every component; the visitor
    gets the components of the entity in the order of the list; and when
    one of the types has no storage the visitor is not called. *)
Theorem for_joined_components_visits (r : registry) (T : Z) (Ts : list Z) :
  reachable vmax r →
  ∃ visits : list (Z * list Comp),
    (∀ (A : Type) (f : A → Z → list Comp → A) (a : A),
       for_joined_components T Ts f r a =
         Some (foldl (λ acc v, f acc v.1 v.2) a visits)) ∧
    visits.*1 =
      filter (λ e, Forall (λ Ti, exists_component r Ti e = Some true) (T :: Ts))
        (dense_order r T) ∧
    NoDup visits.*1 ∧
    (∀ e, e ∈ visits.*1 ↔
       is_entity_alive r e = Some true ∧
       ∀ Ti, Ti ∈ T :: Ts → exists_component r Ti e = Some true) ∧
    (∀ e cs, (e, cs) ∈ visits →
       Forall2 (λ Ti c, find_component r Ti e = Some (Some c)) (T :: Ts) cs) ∧
    ((∃ Ti, Ti ∈ T :: Ts ∧ find_storage_ r Ti = Some None) → visits = []).
Proof.
  intros Hr. pose proof (reachable_wf vmax vmax_range r Hr) as W.
  set (visit := λ e : Z, cs ← components_of r (T :: Ts) e; Some (e, cs)).
  exists (omap visit (dense_order r T)).
  assert (∀ e, e ∈ dense_order r T → e ∈ live r) as Hlive.
  { intros e. rewrite dense_order_spec by done.
    destruct (sparse_map.lookup (storages_ r) T) as [st|] eqn:Hst; [|by intros ?%elem_of_nil].
    apply (tbl lookup_Some_position) in Hst as (i & _ & Hi).
    destruct (wf_components _ _ W st (list_elem_of_lookup_2 _ _ _ Hi)) as [_ Hk].
    apply Hk. }
  assert (∀ l, (∀ e, e ∈ l → e ∈ live r) →
            (omap visit l).*1 =
            filter (λ e, Forall (λ Ti, exists_component r Ti e = Some true) (T :: Ts)) l)
    as Hfilter.
  { induction l as [|e l IH]; intros Hl; [done|].
    rewrite filter_cons. simpl.
    assert (e ∈ live r) as He by (apply Hl; by left).
    pose proof (components_of_is_Some r (T :: Ts) e W He) as Hiff.
    specialize (IH (λ e' H, Hl e' (list_elem_of_further _ _ _ H))).
    unfold visit at 1. destruct (components_of r (T :: Ts) e) as [cs|] eqn:Hcs.
    - simpl. rewrite decide_True by (apply Hiff; eauto). simpl. by f_equal.
    - simpl. rewrite decide_False; [done|]. intros H%Hiff. by destruct H. }
  specialize (Hfilter _ Hlive).
  assert (∀ e, e ∈ (omap visit (dense_order r T)).*1 ↔
            is_entity_alive r e = Some true ∧
            ∀ Ti, Ti ∈ T :: Ts → exists_component r Ti e = Some true) as Hmem.
  { intros e. rewrite Hfilter, list_elem_of_filter, Forall_forall. split.
    - intros [Hall He]. split; [|done]. unfold is_entity_alive.
      rewrite (is_entity_alive_spec vmax) by done. f_equal.
      apply bool_decide_eq_true_2. by apply Hlive.
    - intros [_ Hall]. split; [done|].
      specialize (Hall T (list_elem_of_here _ _)).
      rewrite (exists_component_spec vmax) in Hall by done.
      rewrite dense_order_spec by done.
      destruct (sparse_map.lookup (storages_ r) T) as [st|].
      + injection Hall as Hall. apply andb_true_iff in Hall as [_ Hall].
        by apply bool_decide_eq_true in Hall.
      + injection Hall as Hall. by apply andb_true_iff in Hall as [_ Hall]. }
  assert ((∃ Ti, Ti ∈ T :: Ts ∧ sparse_map.lookup (storages_ r) Ti = None) →
          omap visit (dense_order r T) = []) as Hempty.
  { intros (Ti & HTi & Hnone).
    assert (∀ e, e ∉ (omap visit (dense_order r T)).*1) as Hno.
    { intros e [_ He]%Hmem. specialize (He Ti HTi).
      rewrite (exists_component_spec vmax) in He by done.
      rewrite Hnone in He. by rewrite andb_false_r in He. }
    destruct (omap visit (dense_order r T)) as [|[e cs] l]; [done|].
    exfalso. apply (Hno e). by left. }
  split_and!; try done.
  - (* the calls of the visitor *)
    intros A f a. unfold for_joined_components.
    rewrite mapM_find_storage by done. simpl.
    destruct (tuple_contains_nullptr _) eqn:Hnull; simpl.
    { apply tuple_contains_nullptr_spec in Hnull.
      apply list_elem_of_fmap in Hnull as (Ti & Hnone & HTi).
      rewrite Hempty; [done|]. exists Ti. split; [by right|done]. }
    assert (Forall (λ Ti, is_Some (sparse_map.lookup (storages_ r) Ti)) Ts) as Hall.
    { apply Forall_forall. intros Ti HTi.
      destruct (sparse_map.lookup (storages_ r) Ti) eqn:Hst; [done|].
      assert (tuple_contains_nullptr (sparse_map.lookup (storages_ r) <$> Ts) = true) as H.
      { apply tuple_contains_nullptr_spec. apply list_elem_of_fmap. eauto. }
      congruence. }
    unfold for_each_component. rewrite (find_storage_spec vmax) by done. simpl.
    rewrite dense_order_spec by done.
    destruct (sparse_map.lookup (storages_ r) T) as [st|] eqn:Hst; [|done].
    pose proof Hst as (i & _ & Hi)%(tbl lookup_Some_position).
    destruct (wf_components _ _ W st (list_elem_of_lookup_2 _ _ _ Hi)) as [Wc _].
    unfold component_storage.for_each_component.
    match goal with
    | |- mjoin (foldl ?F _ ?l) = _ =>
        assert (∀ l' a', (∀ e, e ∈ l' → e ∈ l) →
                  foldl F (Some (Some a')) l' =
                  Some (Some (foldl (λ acc v, f acc v.1 v.2) a' (omap visit l')))) as Hfold
    end.
    { induction l' as [|e l' IH]; intros a' Hl'; [done|].
      simpl.
      assert (e ∈ sparse_map.keys (component_storage.components_ st)) as He.
      { apply Hl'. by left. }
      pose proof (ent map_get_value_spec (component_storage.components_ st) e [] Wc) as G.
      destruct (sparse_map.get_value _ _ _ _) as [c m' h'|err m' h'|]; [| |done].
      2:{ by destruct G as (_ & _ & _ & G). }
      destruct G as (_ & _ & Hc).
      rewrite probe_spec by done. simpl.
      unfold visit at 1. simpl. rewrite Hst. simpl. rewrite Hc. simpl.
      destruct (mapM _ Ts) as [cs|]; simpl.
      - apply IH. intros e' He'. apply Hl'. by right.
      - apply IH. intros e' He'. apply Hl'. by right. }
    rewrite Hfold by done. done.
  - rewrite Hfilter. apply list.NoDup_filter.
    rewrite dense_order_spec by done.
    destruct (sparse_map.lookup (storages_ r) T) as [st|] eqn:Hst; [|constructor].
    pose proof Hst as (i & _ & Hi)%(tbl lookup_Some_position).
    destruct (wf_components _ _ W st (list_elem_of_lookup_2 _ _ _ Hi)) as [Wc _].
    by apply (ent keys_NoDup).
  - intros e cs (e' & _ & Hv)%list_elem_of_omap.
    unfold visit in Hv.
    destruct (components_of r (T :: Ts) e') as [cs'|] eqn:Hcs; [|done].
    simpl in Hv. injection Hv as -> ->.
    apply mapM_Some_1 in Hcs.
    eapply Forall2_impl; [done|]. intros Ti c Hc. simpl in Hc.
    unfold find_component. rewrite (find_component_spec vmax) by done. by rewrite Hc.
  - intros (Ti & HTi & Hnone). apply Hempty. exists Ti. split; [done|].
    rewrite (find_storage_spec vmax) in Hnone by done. by injection Hnone.
Qed.

End registry_claims.

(** ** Sparse sets and maps: what the specification says *)

Section container_claims.
Variable vmax : Z.
Hypothesis vmax_range : 0 ≤ vmax < size_t_modulus.

Set Default Proof Using "All".

Local Abbreviation key X :=
  (X sparse_unsigned_indexer vmax sparse_unsigned_indexer_range vmax_range) (only parsing).

Lemma sparse_unsigned_indexer_key v : is_key v → sparse_unsigned_indexer v = v.
Proof.
  intros Hv. unfold sparse_unsigned_indexer. apply wrap_size_t_small.
  unfold is_key in Hv. lia.
Qed.

Lemma key_slot_free s v :
  Forall is_key (sparse_set.elements s) → is_key v →
  sparse_set.slot_free sparse_unsigned_indexer s v.
Proof.
  intros Hs Hv u Hu Heq. rewrite Forall_forall in Hs.
  by rewrite !sparse_unsigned_indexer_key in Heq by auto.
Qed.

Lemma run_set_call_invariant s c h :
  sparse_set.wf sparse_unsigned_indexer vmax s →
  Forall is_key (sparse_set.elements s) → set_call_ok c →
  ∃ s', left_by (run_set_call sparse_unsigned_indexer vmax c s h) = Some s' ∧
    sparse_set.wf sparse_unsigned_indexer vmax s' ∧
    Forall is_key (sparse_set.elements s').
Proof.
  intros W Hk Hc. destruct c as [v|v| |n]; simpl in Hc; unfold run_set_call.
  - pose proof (key insert_spec s v h W (key_slot_free s v Hk Hc)) as I.
    lapply I; [clear I; intros I|].
    2:{ rewrite sparse_unsigned_indexer_key by done. unfold is_key in Hc. lia. }
    unfold bind.
    destruct (sparse_set.insert _ _ _ _ _) as [b s' h'|e s' h'|]; [| |done].
    + exists s'. split; [done|]. destruct I as (W' & _ & _ & I). split; [done|].
      destruct b.
      * destruct I as (_ & -> & _). apply Forall_app. split; [done|]. by constructor.
      * by destruct I as (_ & -> & _).
    + exists s'. split; [done|]. by destruct I as (-> & _).
  - pose proof (key unordered_erase_spec s v h W) as E.
    pose proof (key unordered_erase_elem_of s v h) as Em.
    unfold bind.
    destruct (sparse_set.unordered_erase _ _ _ _) as [b s' h'|e s' h'|]; [|done|done].
    exists s'. split; [done|]. destruct E as (_ & W' & _ & E). split; [done|].
    destruct b.
    + rewrite Forall_forall in *. intros u Hu. apply Hk.
      by apply (Em s' h' u W eq_refl) in Hu as [? _].
    + by destruct E as (_ & ->).
  - destruct (key clear_spec s h W) as (s' & -> & W' & Hel & _).
    exists s'. split; [done|]. split; [done|]. rewrite Hel. constructor.
  - pose proof (key reserve_any_spec s n h W) as R.
    destruct (sparse_set.reserve vmax n s h) as [[] s' h'|e s' h'|]; [| |done].
    + exists s'. split; [done|]. destruct R as [->|(Hn & ->)]; [done|].
      split; [by apply (key wf_grown)|]. by rewrite (key elements_grown).
    + exists s'. split; [done|]. by rewrite R.
Qed.


Section with_value.
Context {T : Type}.

Local Abbreviation map_invariant := (map_invariant (T:=T) vmax).

Lemma map_insert_pairing (m : sparse_map.t T) (g : gmap Z T) k v h :
  map_invariant m g → is_key k →
  let o := sparse_map.insert sparse_unsigned_indexer vmax k v m h in
  ∃ m', left_by o = Some m' ∧
    map_invariant m' (pairing_after (MapInsert k v) (returned o) g) ∧
    (returned o = false → m' = m).
Proof.
  intros (W & Hk & Hg) Hkey o.
  pose proof (key map_insert_spec m k v h W (key_slot_free _ k Hk Hkey)) as I.
  lapply I; [clear I; intros I|].
  2:{ rewrite sparse_unsigned_indexer_key by done. unfold is_key in Hkey. lia. }
  fold o in I. destruct o as [b m' h'|e m' h'|]; [| |done].
  - exists m'. split; [done|]. split; [|done].
    destruct I as (W' & _ & _ & I). simpl. destruct b.
    + destruct I as (Hnin & Hks & Hvs).
      assert (g !! k = None) as ->.
      { rewrite <- Hg. by apply (key lookup_absent). }
      split_and!; try done.
      * rewrite Hks. apply Forall_app. split; [done|]. by constructor.
      * intros k'. rewrite (key lookup_snoc m m' k v k') by done.
        destruct (decide (k' = k)) as [->|Hne].
        -- by rewrite lookup_insert_eq.
        -- by rewrite lookup_insert_ne.
    + destruct I as (Hin & -> & _).
      assert (is_Some (g !! k)) as [x ->].
      { rewrite <- Hg. by apply (key lookup_is_Some). }
      done.
  - exists m'. split; [done|]. destruct I as (-> & _). done.
Qed.

Lemma run_map_call_invariant (m : sparse_map.t T) (g : gmap Z T) c h :
  map_invariant m g → map_call_ok c →
  let o := run_map_call sparse_unsigned_indexer vmax c m h in
  ∃ m', left_by o = Some m' ∧ map_invariant m' (pairing_after c (returned o) g).
Proof.
  intros Hinv Hc. pose proof Hinv as (W & Hk & Hg).
  destruct c as [k v|k v|k| |k v|n]; simpl in Hc; unfold run_map_call; cbv zeta.
  - destruct (map_insert_pairing m g k v h Hinv Hc) as (m' & Hl & Hinv' & _).
    unfold bind.
    destruct (sparse_map.insert _ _ _ _ _ _) as [b m1 h1|e m1 h1|]; by eauto.
  - destruct (map_insert_pairing m g k v h Hinv Hc) as (m' & Hl & Hinv' & _).
    unfold bind. change (sparse_map.emplace ?a ?b ?c ?d) with (sparse_map.insert a b c d).
    destruct (sparse_map.insert _ _ _ _ _ _) as [b m1 h1|e m1 h1|]; by eauto.
  - pose proof (key map_unordered_erase_spec m k h W) as E. unfold bind.
    destruct (sparse_map.unordered_erase _ _ _ _) as [b m' h'|e m' h'|]; [|done|done].
    exists m'. split; [done|]. simpl.
    destruct E as (_ & W' & _ & E). destruct b.
    + destruct E as (i & Hi & Hks & Hvs). split_and!; try done.
      * rewrite Forall_forall in *. intros u Hu. apply Hk.
        rewrite Hks in Hu.
        by apply (swap_pop_elem_of _ _ k u (key keys_NoDup m W) Hi) in Hu as [? _].
      * intros k'. rewrite (key lookup_swap_pop m m' k i k') by done.
        destruct (decide (k' = k)) as [->|Hne].
        -- by rewrite lookup_delete_eq.
        -- by rewrite lookup_delete_ne.
    + destruct E as (Hnin & ->). split_and!; try done.
      intros k'. destruct (decide (k' = k)) as [->|Hne].
      * rewrite lookup_delete_eq. by apply (key lookup_absent).
      * by rewrite lookup_delete_ne.
  - destruct (key map_clear_spec m h W) as (m' & Hcl & W' & Hks).
    rewrite Hcl.
    exists m'. split; [done|]. simpl. split_and!; try done.
    + rewrite Hks. constructor.
    + intros k. rewrite lookup_empty. apply (key lookup_absent).
      rewrite Hks. by intros ?%elem_of_nil.
  - destruct (decide (k ∈ sparse_map.keys m)) as [Hin|Hnin].
    + pose proof Hin as [i Hi]%list_elem_of_lookup.
      rewrite (key map_get_value_assign_spec m k v h i) by done.
      eexists. split; [done|]. simpl. split_and!; try done.
      * apply (key wf_set_values); [done|]. by rewrite length_insert.
      * intros k'. rewrite (key lookup_set_values m k i v k') by done.
        destruct (decide (k' = k)) as [->|Hne].
        -- by rewrite lookup_insert_eq.
        -- by rewrite lookup_insert_ne.
    + rewrite (key map_get_value_assign_absent m k v h) by done.
      exists m. by split.
  - unfold sparse_map.reserve, bind, on_member.
    destruct W as [Wk Wv].
    pose proof (key reserve_any_spec (sparse_map.keys_ m) n h Wk) as R.
    destruct (sparse_set.reserve vmax n (sparse_map.keys_ m) h) as [[] s' h'|e s' h'|]; [| |done].
    + assert (map_invariant (sparse_map.set_keys s' m) g) as Hinv'.
      { destruct R as [->|(Hn & ->)].
        - unfold sparse_map.set_keys. by rewrite map_eta.
        - split_and!; try done.
          + split; [by apply (key wf_grown)|done].
          + unfold sparse_map.keys. simpl. by rewrite (key elements_grown).
          + intros k. rewrite <- Hg. unfold sparse_map.lookup, sparse_map.keys. simpl.
            by rewrite (key elements_grown). }
      destruct (allocate _ h') as [[] m1 h1|e m1 h1|] eqn:Ha.
      * pose proof (allocate_spec (sparse_map.set_keys s' m) h') as A. rewrite Ha in A.
        destruct A as (-> & _). eexists. split; [done|]. done.
      * pose proof (allocate_spec (sparse_map.set_keys s' m) h') as A. rewrite Ha in A.
        destruct A as (_ & -> & _). eexists. split; [done|]. done.
      * pose proof (allocate_spec (sparse_map.set_keys s' m) h') as A. by rewrite Ha in A.
    + rewrite R. unfold sparse_map.set_keys. rewrite map_eta.
      exists m. by split.
Qed.


End with_value.

End container_claims.

(** ** The code run on small registries *)

Lemma platform_max_size_range : 0 ≤ platform_max_size < size_t_modulus.
Proof. by vm_compute. Qed.

Lemma registry_after_reachable (cs : list (registry.call (Comp:=Z) * heap)) :
  Forall (λ c, registry.call_family_ok c.1) cs →
  registry.run_calls platform_max_size cs registry.empty ≠ None →
  registry.reachable platform_max_size (registry_after cs).
Proof.
  intros Hok Hr. unfold registry_after.
  destruct (registry.run_calls _ _ _) as [r|] eqn:Hrun; [|done]. simpl.
  eapply (reachable_run_calls platform_max_size platform_max_size_range cs);
    [apply registry.reachable_empty|done|done].
Qed.

Lemma one_entity_reachable : registry.reachable platform_max_size one_entity.
Proof.
  apply (registry_after_reachable one_entity_calls); [repeat constructor|by vm_compute].
Qed.

Lemma one_destroyed_reachable : registry.reachable platform_max_size one_destroyed.
Proof.
  apply (registry_after_reachable one_destroyed_calls); [repeat constructor|by vm_compute].
Qed.

Lemma index_reused_reachable : registry.reachable platform_max_size index_reused.
Proof.
  apply (registry_after_reachable index_reused_calls); [|by vm_compute].
  repeat constructor; by vm_compute.
Qed.

Lemma one_assigned_reachable : registry.reachable platform_max_size one_assigned.
Proof.
  apply (registry_after_reachable one_assigned_calls); [|by vm_compute].
  repeat constructor; by vm_compute.
Qed.

Lemma stale_handle_no_component_witness :
  registry.find_component index_reused 1 1 = Some None ∧
  registry.get_component 1 1 index_reused [] = Raised logic_error index_reused [].
Proof.
  apply (stale_handle_no_component platform_max_size platform_max_size_range).
  - apply index_reused_reachable.
  - by vm_compute.
  - by vm_compute.
Defined.

(** C6, as the specification has it, fails.  In [index_reused] the
    handle with id 1 is not alive and the entity alive at index 1 has a
    component; [destroy_entity] on the handle returns false and the
    component at index 1 is still there. *)
Lemma destroy_entity_stale_keeps_components :
  registry.reachable platform_max_size index_reused ∧
  registry.is_entity_alive index_reused 1 = Some false ∧
  entity_id_index 4194305 = entity_id_index 1 ∧
  registry.destroy_entity 1 index_reused [] = Normal false index_reused [] ∧
  registry.exists_component index_reused 1 4194305 = Some true ∧
  registry.find_component index_reused 1 4194305 = Some (Some 7).
Proof. split; [apply index_reused_reachable|]. by vm_compute. Qed.

Lemma destroy_entity_not_alive_witness :
  registry.destroy_entity 1 index_reused [] = Normal false index_reused [].
Proof.
  apply (destroy_entity_not_alive platform_max_size platform_max_size_range).
  - apply index_reused_reachable.
  - by vm_compute.
Defined.

(** C7 fails where the live set cannot grow.  On the empty registry,
    with an allocator that refuses the first request, [create_entity]
    throws and leaves [last_entity_id_] at 1, not at 0 as it was. *)
Theorem create_entity_failure_keeps_bump :
  registry.create_entity platform_max_size (registry.empty (Comp:=Z)) [false] =
    Raised bad_alloc (registry.mk 1 [] sparse_set.empty sparse_map.empty) [] ∧
  registry.last_entity_id_ (registry.empty (Comp:=Z)) = 0.
Proof. by vm_compute. Qed.

Lemma assign_component_not_alive_witness :
  registry.assign_component platform_max_size 2 1 9 index_reused [] =
    Normal false index_reused [].
Proof.
  apply (assign_component_not_alive platform_max_size). by vm_compute.
Defined.

Lemma create_entity_cases_witness :
  ∃ e r',
    registry.create_entity platform_max_size one_destroyed [] = Normal e r' [] ∧
    entity_id_index e = entity_id_index 1 ∧
    entity_id_version e = (entity_id_version 1 + 1) mod 2 ^ 10 ∧
    registry.free_entity_ids_ r' =
      take (length (registry.free_entity_ids_ one_destroyed) - 1)
        (registry.free_entity_ids_ one_destroyed) ∧
    registry.last_entity_id_ r' = registry.last_entity_id_ one_destroyed ∧
    registry.live r' = registry.live one_destroyed ++ [e] ∧
    registry.is_entity_alive r' e = Some true.
Proof.
  apply (create_entity_cases platform_max_size platform_max_size_range one_destroyed []).
  - apply one_destroyed_reachable.
  - by vm_compute.
Defined.

Lemma destroyed_entity_stays_dead_witness :
  ∃ r2,
    registry.create_entities platform_max_size [[]; [false]; []] one_destroyed = Some r2 ∧
    registry.is_entity_alive r2 1 = Some false.
Proof.
  apply (destroyed_entity_stays_dead platform_max_size platform_max_size_range
           one_entity one_destroyed 1 [] []).
  - apply one_entity_reachable.
  - by vm_compute.
Defined.

Lemma assign_twice_overwrites_witness :
  ∃ r2,
    registry.assign_component platform_max_size 1 1 8 one_assigned [] = Normal true r2 [] ∧
    registry.get_component 1 1 r2 [] = Normal 8 r2 [] ∧
    registry.find_component r2 1 1 = Some (Some 8) ∧
    filter (λ k, entity_id_index k = entity_id_index 1) (registry.dense_order r2 1) = [1].
Proof.
  apply (assign_twice_overwrites platform_max_size platform_max_size_range
           one_entity one_assigned 1 1 7 8 [] [] [] []).
  - apply one_entity_reachable.
  - by vm_compute.
  - by vm_compute.
  - by vm_compute.
Defined.

Lemma for_joined_components_visits_witness :
  ∃ visits : list (Z * list Z),
    (∀ (A : Type) (f : A → Z → list Z → A) (a : A),
       registry.for_joined_components 1 [] f index_reused a =
         Some (foldl (λ acc v, f acc v.1 v.2) a visits)) ∧
    visits.*1 =
      filter (λ e, Forall (λ Ti, registry.exists_component index_reused Ti e = Some true) [1])
        (registry.dense_order index_reused 1) ∧
    NoDup visits.*1 ∧
    (∀ e, e ∈ visits.*1 ↔
       registry.is_entity_alive index_reused e = Some true ∧
       ∀ Ti, Ti ∈ [1] → registry.exists_component index_reused Ti e = Some true) ∧
    (∀ e cs, (e, cs) ∈ visits →
       Forall2 (λ Ti c, registry.find_component index_reused Ti e = Some (Some c)) [1] cs) ∧
    ((∃ Ti, Ti ∈ [1] ∧ registry.find_storage_ index_reused Ti = Some None) → visits = []).
Proof.
  apply (for_joined_components_visits platform_max_size platform_max_size_range).
  apply index_reused_reachable.
Defined.

(** The largest value of [std::size_t] is no key: its index plus one
    wraps to 0, [new_capacity_for_] asks for no room, and [insert] writes
    outside the vectors. *)
Remark insert_size_max_undefined :
  sparse_set.insert sparse_unsigned_indexer platform_max_size (size_t_modulus - 1)
    sparse_set.empty [] = Undefined.
Proof. by vm_compute. Qed.

(** The value before it is a key: [insert] throws and the set stays. *)
Remark insert_below_size_max_throws :
  sparse_set.insert sparse_unsigned_indexer platform_max_size (size_t_modulus - 2)
    sparse_set.empty [] = Raised length_error sparse_set.empty [].
Proof. by vm_compute. Qed.

(** With [entity_id_indexer] two ids of one index can both be inserted,
    and [sparse_] then leads to the second only; the registry never does
    so, see [registry.wf]. *)
Remark insert_ids_of_one_index :
  run_set_calls entity_id_indexer platform_max_size
    [(SetInsert 1, []); (SetInsert 4194305, [])] sparse_set.empty =
    Some (sparse_set.mk [1; 4194305] [0; 1] 2 2).
Proof. by vm_compute. Qed.





(** ** Lists and ids *)

Lemma filter_none {A} (P : A → Prop) `{∀ x, Decision (P x)} (l : list A) :
  (∀ x, x ∈ l → ¬ P x) → filter P l = [].
Proof.
  induction l as [|x l IH]; intros Hl; [done|].
  rewrite filter_cons, decide_False by (apply Hl; by left).
  apply IH. intros y Hy. apply Hl. by right.
Qed.

Lemma filter_length_Forall2 {A B} (R : A → B → Prop) (P : A → Prop) (Q : B → Prop)
    `{∀ x, Decision (P x)} `{∀ y, Decision (Q y)} (l : list A) (k : list B) :
  Forall2 R l k → (∀ x y, R x y → P x ↔ Q y) →
  length (filter P l) = length (filter Q k).
Proof.
  intros HF HR. induction HF as [|x y l k Hxy HF IH]; [done|].
  rewrite !filter_cons. destruct (decide (P x)) as [Hp|Hp].
  - rewrite decide_True by (by apply (HR x y)). simpl. by rewrite IH.
  - rewrite decide_False; [done|]. intros Hq. by apply Hp, (HR x y).
Qed.

Lemma entity_id_eq (a b : Z) :
  0 ≤ a < entity_id_modulus → 0 ≤ b < entity_id_modulus →
  entity_id_index a = entity_id_index b →
  entity_id_version a = entity_id_version b → a = b.
Proof.
  rewrite !entity_id_index_mod, !entity_id_version_mod. unfold entity_id_modulus.
  intros Ha Hb Hi Hv.
  rewrite (Z.mod_small (a `div` 2 ^ 22)) in Hv
    by (split; [apply Z.div_pos; lia|apply Z.div_lt_upper_bound; lia]).
  rewrite (Z.mod_small (b `div` 2 ^ 22)) in Hv
    by (split; [apply Z.div_pos; lia|apply Z.div_lt_upper_bound; lia]).
  rewrite (Z.div_mod a (2 ^ 22)), (Z.div_mod b (2 ^ 22)) by lia. by rewrite Hi, Hv.
Qed.

Lemma NoDup_bounded_length (l : list Z) (n : Z) :
  NoDup l → (∀ x, x ∈ l → 1 ≤ x ≤ n) → Z.of_nat (length l) ≤ Z.max 0 n.
Proof.
  intros Hnd Hb.
  assert (l ⊆+ seqZ 1 n) as Hsub.
  { apply NoDup_submseteq; [done|]. intros x Hx%Hb. apply elem_of_seqZ. lia. }
  apply submseteq_length in Hsub. rewrite length_seqZ in Hsub. lia.
Qed.

(** ** The registry: what a call leaves of the other entities *)

Section registry_frames.
Import registry.
Context {Comp : Type}.
Variable vmax : Z.
Hypothesis vmax_range : 0 ≤ vmax < size_t_modulus.

Set Default Proof Using "All".

Local Abbreviation registry := (registry.t Comp).
Local Abbreviation storage := (component_storage.t Comp).
Local Abbreviation wf := (registry.wf (Comp:=Comp) vmax).
Local Abbreviation storage_ok := (registry.storage_ok (Comp:=Comp) vmax).
Local Abbreviation ent X :=
  (X entity_id_indexer vmax entity_id_indexer_range vmax_range) (only parsing).
Local Abbreviation tbl X :=
  (X sparse_unsigned_indexer vmax sparse_unsigned_indexer_range vmax_range) (only parsing).
Local Abbreviation reg X := (X vmax vmax_range) (only parsing).
Local Abbreviation ckeys st := (sparse_map.keys (component_storage.components_ st)) (only parsing).
Local Abbreviation clookup st := (sparse_map.lookup (component_storage.components_ st)) (only parsing).

(** The component of type [family] that [e] has. *)
Local Abbreviation comp_at r family e :=
  (sparse_map.lookup (storages_ r) family ≫= λ st, clookup st e) (only parsing).

Lemma storage_of_lookup (r : registry) family st :
  wf r → sparse_map.lookup (storages_ r) family = Some st → storage_ok r st.
Proof.
  intros W (i & _ & Hi)%(tbl lookup_Some_position).
  apply (wf_components _ _ W). by eapply list_elem_of_lookup_2.
Qed.

Lemma comp_at_not_live (r : registry) family e :
  wf r → e ∉ live r → comp_at r family e = None.
Proof.
  intros W He. destruct (sparse_map.lookup (storages_ r) family) as [st|] eqn:Hst; [|done].
  simpl. apply (ent lookup_absent). intros Hin. apply He.
  by apply (storage_of_lookup r family st W Hst).
Qed.

Lemma comp_at_is_Some (r : registry) family e :
  wf r → exists_component r family e = Some (bool_decide (is_Some (comp_at r family e))).
Proof.
  intros W. rewrite (reg exists_component_spec) by done. f_equal.
  destruct (sparse_map.lookup (storages_ r) family) as [st|] eqn:Hst; simpl.
  - destruct (storage_of_lookup r family st W Hst) as [Wc Hk].
    pose proof (ent lookup_is_Some (component_storage.components_ st) e Wc) as Hiff.
    destruct (decide (e ∈ ckeys st)) as [Hin|Hnin].
    + rewrite !bool_decide_eq_true_2; [done|by apply Hiff|done|by apply Hk].
    + rewrite (bool_decide_eq_false_2 (e ∈ ckeys st)) by done. rewrite andb_false_r.
      symmetry. apply bool_decide_eq_false_2. by intros ?%Hiff.
  - by rewrite andb_false_r.
Qed.

Lemma find_component_frame (r r' : registry) family family' e e' :
  wf r → wf r' → comp_at r' family' e' = comp_at r family e →
  find_component r' family' e' = find_component r family e.
Proof.
  intros W W' H. unfold find_component. rewrite !(reg find_component_spec) by done.
  by rewrite H.
Qed.

Lemma is_entity_alive_frame (r r' : registry) e :
  entity_ids_ r' = entity_ids_ r → is_entity_alive r' e = is_entity_alive r e.
Proof. intros H. unfold is_entity_alive, is_entity_alive_impl_. by rewrite H. Qed.

Lemma is_entity_alive_live (r : registry) e :
  wf r → is_entity_alive r e = Some true ↔ e ∈ live r.
Proof.
  intros W. unfold is_entity_alive. rewrite (reg is_entity_alive_spec) by done.
  split; [intros [= H]; by apply bool_decide_eq_true in H|].
  intros H. by rewrite bool_decide_eq_true_2.
Qed.

Lemma is_entity_alive_not_live (r : registry) e :
  wf r → is_entity_alive r e = Some false ↔ e ∉ live r.
Proof.
  intros W. unfold is_entity_alive. rewrite (reg is_entity_alive_spec) by done.
  split; [intros [= H]; by apply bool_decide_eq_false in H|].
  intros H. by rewrite bool_decide_eq_false_2.
Qed.

Lemma create_entity_storages (r : registry) h :
  wf r →
  match create_entity vmax r h with
  | Normal _ r' _ => storages_ r' = storages_ r
  | Raised _ r' _ => storages_ r' = storages_ r
  | Undefined => False
  end.
Proof.
  intros W. pose proof (reg create_entity_spec r h W) as S.
  destruct (create_entity vmax r h) as [e r' h'|err r' h'|]; [| |done].
  - apply S.
  - destruct S as (_ & _ & [(_ & -> & _)|(_ & -> & _)]); done.
Qed.

Lemma clookup_empty e : clookup (component_storage.empty (T:=Comp)) e = None.
Proof. apply (ent lookup_absent). by intros ?%elem_of_nil. Qed.

Lemma get_or_create_storage_frame (r : registry) family h :
  wf r → is_family_id family →
  match get_or_create_storage_ vmax family r h with
  | Normal _ r' _ => ∀ family' e', comp_at r' family' e' = comp_at r family' e'
  | Raised _ r' _ => r' = r
  | Undefined => False
  end.
Proof.
  intros W Hfam. pose proof (reg get_or_create_storage_spec r family h W Hfam) as G.
  destruct (get_or_create_storage_ vmax family r h) as [[] r' h'|err r' h'|]; [| |done].
  2:{ apply G. }
  destruct G as (W' & _ & _ & _ & _ & G). intros family' e'.
  destruct (sparse_map.lookup (storages_ r) family) as [st|] eqn:Hst.
  { by destruct G as [-> _]. }
  destruct G as [Hks Hvs].
  assert (family ∉ sparse_map.keys (storages_ r)) as Hnin.
  { intros Hin%(tbl lookup_is_Some); [|apply W]. rewrite Hst in Hin. by destruct Hin. }
  rewrite (tbl lookup_snoc (storages_ r) (storages_ r') family component_storage.empty family')
    by (done || apply W || apply W').
  destruct (decide (family' = family)) as [->|Hne]; [|done].
  rewrite Hst. simpl. apply clookup_empty.
Qed.

Lemma comp_at_update_storage (r : registry) (i : nat) family st st' family' e' :
  wf r → sparse_map.keys (storages_ r) !! i = Some family →
  sparse_map.values_ (storages_ r) !! i = Some st →
  comp_at (update_storage i st' r) family' e' =
    if decide (family' = family) then clookup st' e' else comp_at r family' e'.
Proof.
  intros W Hi Hst. rewrite (reg table_lookup_update r i family) by done.
  by destruct (decide (family' = family)).
Qed.

Lemma lookup_at_position (r : registry) (i : nat) family st :
  wf r → sparse_map.keys (storages_ r) !! i = Some family →
  sparse_map.values_ (storages_ r) !! i = Some st →
  sparse_map.lookup (storages_ r) family = Some st.
Proof.
  intros W Hi Hst. rewrite (tbl lookup_position _ _ i) by (done || apply W). done.
Qed.

Lemma assign_component_frame (r : registry) family e args h :
  wf r → is_family_id family →
  match assign_component vmax family e args r h with
  | Normal b r' _ =>
      b = true →
      ∀ family' e', comp_at r' family' e' =
        if decide (family' = family ∧ e' = e) then Some args else comp_at r family' e'
  | Raised _ r' _ => ∀ family' e', comp_at r' family' e' = comp_at r family' e'
  | Undefined => False
  end.
Proof.
  intros W Hfam. unfold assign_component, bind, get, defined.
  rewrite (reg is_entity_alive_spec) by done. unfold ret at 1.
  case_bool_decide as He; simpl; [|by unfold ret].
  pose proof (reg get_or_create_storage_spec r family h W Hfam) as G.
  pose proof (get_or_create_storage_frame r family h W Hfam) as F.
  destruct (get_or_create_storage_ vmax family r h) as [[] r1 h1|err r1 h1|]; [| |done].
  2:{ by subst r1. }
  destruct G as (W1 & G1 & E1 & E2 & E3 & G).
  assert (e ∈ live r1) as He1 by (unfold live; by rewrite E1).
  assert (∃ (i : nat) st1,
            sparse_map.keys (storages_ r1) !! i = Some family ∧
            sparse_map.values_ (storages_ r1) !! i = Some st1)
    as (i & st1 & Hi & Hst1).
  { destruct (sparse_map.lookup (storages_ r) family) as [st|] eqn:Hst.
    - destruct G as (-> & ->).
      apply (tbl lookup_Some_position) in Hst as (i & Hi & Hst). eauto.
    - destruct G as (Hks & Hvs).
      pose proof (tbl length_keys (storages_ r) (wf_storages _ _ W)) as Hl.
      exists (length (sparse_map.keys (storages_ r))), component_storage.empty.
      split.
      + rewrite Hks. by apply list_lookup_middle.
      + rewrite Hvs. by apply list_lookup_middle. }
  assert (storage_ok r1 st1) as Hok1.
  { apply (wf_components _ _ W1). by eapply list_elem_of_lookup_2. }
  pose proof (lookup_at_position r1 i family st1 W1 Hi Hst1) as Hlk1.
  rewrite (reg on_storage_spec r1 family _ h1 i st1) by done.
  pose proof (reg storage_assign_spec r1 st1 e args h1 W1 Hok1 He1) as A.
  destruct (component_storage.assign vmax e args st1 h1) as [[] st' h2|err st' h2|]; [| |done].
  - destruct A as (Hok' & G2 & Hlk & Hks & Hh2).
    unfold ret. intros _ family' e'.
    rewrite (comp_at_update_storage r1 i family st1) by done.
    destruct (decide (family' = family)) as [->|Hne].
    + rewrite Hlk. destruct (decide (e' = e)) as [->|Hne'].
      * by rewrite decide_True.
      * rewrite decide_False by tauto. rewrite <- F, Hlk1. done.
    + rewrite decide_False by tauto. apply F.
  - destruct A as (-> & _). rewrite (reg update_storage_id) by done. apply F.
Qed.

Lemma remove_all_components_loop_frame e (ids : list Z) :
  ∀ (n : nat) (r : registry) cnt h,
    wf r → drop n (sparse_map.keys (storages_ r)) = ids →
    0 ≤ cnt → cnt + Z.of_nat (length ids) < size_t_modulus →
    match remove_all_components_loop_ ids e cnt r h with
    | Normal c r' h' =>
        c = cnt + Z.of_nat (length (filter (λ st, e ∈ ckeys st)
                                      (drop n (sparse_map.values_ (storages_ r))))) ∧
        (∀ family' e', e' ≠ e → comp_at r' family' e' = comp_at r family' e')
    | Raised _ _ _ => True
    | Undefined => True
    end.
Proof.
  induction ids as [|id ids IH]; intros n r cnt h W Hd Hc0 Hc1.
  - simpl. unfold ret. split; [|done].
    pose proof (tbl length_keys (storages_ r) (wf_storages _ _ W)) as Hl.
    apply drop_nil_inv in Hd. rewrite drop_ge by lia. simpl. lia.
  - simpl. unfold bind.
    assert (sparse_map.keys (storages_ r) !! n = Some id) as Hn.
    { rewrite <- (Nat.add_0_r n), <- lookup_drop, Hd. done. }
    pose proof (tbl length_keys (storages_ r) (wf_storages _ _ W)) as Hl.
    destruct (lookup_lt_is_Some_2 (sparse_map.values_ (storages_ r)) n) as [st Hst].
    { apply lookup_lt_Some in Hn. lia. }
    rewrite (reg on_storage_spec r id _ h n st) by done.
    assert (storage_ok r st) as Hok.
    { apply (wf_components _ _ W). by eapply list_elem_of_lookup_2. }
    pose proof (reg storage_remove_spec r st e h Hok) as R.
    destruct (component_storage.remove e st h) as [b st' h'|err st' h'|]; [|done|done].
    destruct R as (-> & Hok' & -> & _ & Hlk & _).
    set (r2 := update_storage n st' r).
    set (cnt' := if bool_decide (e ∈ ckeys st) then wrap_size_t (cnt + 1) else cnt).
    simpl in Hc1.
    assert (cnt' = cnt + (if bool_decide (e ∈ ckeys st) then 1 else 0)) as Hcnt.
    { unfold cnt'. case_bool_decide; [|lia]. rewrite wrap_size_t_small; lia. }
    specialize (IH (S n) r2 cnt' h).
    lapply IH; [clear IH; intros IH|by apply (reg wf_update_storage)].
    lapply IH; [clear IH; intros IH|].
    2:{ change (drop (S n) (sparse_map.keys (storages_ r)) = ids).
        by rewrite <- (Nat.add_1_r n), <- drop_drop, Hd. }
    lapply IH; [clear IH; intros IH|case_bool_decide; lia].
    lapply IH; [clear IH; intros IH|case_bool_decide; lia].
    destruct (remove_all_components_loop_ _ _ _ _ _) as [c r' h'|err r' h'|]; [|done|done].
    destruct IH as (-> & Hframe). split.
    + rewrite (drop_S _ st n) by done. rewrite filter_cons.
      change (sparse_map.values_ (storages_ r2))
        with (<[n := st']> (sparse_map.values_ (storages_ r))).
      rewrite drop_insert_lt by lia. rewrite Hcnt.
      case_bool_decide as Hin.
      * rewrite decide_True by done. simpl length. lia.
      * rewrite decide_False by done. lia.
    + intros family' e' Hne. rewrite Hframe by done. unfold r2.
      rewrite (comp_at_update_storage r n id st) by done.
      destruct (decide (family' = id)) as [->|]; [|done].
      rewrite Hlk, decide_False by done.
      by rewrite (lookup_at_position r n id st).
Qed.

Lemma remove_all_components_frame (r : registry) e h :
  wf r →
  match remove_all_components_impl_ e r h with
  | Normal c r' h' =>
      c = Z.of_nat (length (filter (λ st, e ∈ ckeys st) (sparse_map.values_ (storages_ r)))) ∧
      (∀ family' e', comp_at r' family' e' =
         if decide (e' = e) then None else comp_at r family' e')
  | Raised _ _ _ => False
  | Undefined => False
  end.
Proof.
  intros W. pose proof (reg remove_all_components_spec r e h W) as S.
  revert S. unfold remove_all_components_impl_, bind, get, defined.
  rewrite (reg is_entity_alive_spec) by done. unfold ret at 1.
  case_bool_decide as Hin; simpl.
  - pose proof (remove_all_components_loop_frame e _ 0 r 0 h W eq_refl) as L.
    lapply L; [clear L; intros L|lia].
    lapply L; [clear L; intros L|].
    2:{ pose proof (tbl length_keys (storages_ r) (wf_storages _ _ W)) as Hl.
        pose proof (tbl length_elements (sparse_map.keys_ (storages_ r))
                      (sparse_map.wf_keys _ _ _ (wf_storages _ _ W))) as Hl2.
        pose proof (sparse_set.wf_size _ _ _ (sparse_map.wf_keys _ _ _ (wf_storages _ _ W))).
        pose proof (sparse_set.wf_capacity _ _ _ (sparse_map.wf_keys _ _ _ (wf_storages _ _ W))).
        rewrite drop_0. unfold sparse_map.keys in *. lia. }
    destruct (remove_all_components_loop_ _ _ _ _ _) as [c r' h'|err r' h'|]; [|done|done].
    intros (-> & W' & _ & _ & _ & _ & Hgone & _). destruct L as (-> & Hframe).
    split; [by rewrite drop_0|].
    intros family' e'. destruct (decide (e' = e)) as [->|Hne]; [|by apply Hframe].
    destruct (sparse_map.lookup (storages_ r') family') as [st|] eqn:Hst; [|done].
    simpl. apply (ent lookup_absent).
    apply (tbl lookup_Some_position) in Hst as (i & _ & Hi).
    apply Hgone. by eapply list_elem_of_lookup_2.
  - unfold ret. intros _. split.
    + rewrite filter_none; [done|]. intros st Hst He. apply Hin.
      by apply (wf_components _ _ W st Hst).
    + intros family' e'. destruct (decide (e' = e)) as [->|]; [|done].
      by apply comp_at_not_live.
Qed.

Lemma destroy_entity_frame (r : registry) e h :
  wf r →
  match destroy_entity e r h with
  | Normal _ r' _ =>
      ∀ family' e', comp_at r' family' e' =
        if decide (e' = e) then None else comp_at r family' e'
  | Raised _ r' _ =>
      ∀ family' e', comp_at r' family' e' =
        if decide (e' = e) then None else comp_at r family' e'
  | Undefined => False
  end.
Proof.
  intros W. unfold destroy_entity, bind.
  pose proof (remove_all_components_frame r e h W) as F.
  pose proof (reg remove_all_components_spec r e h W) as S.
  destruct (remove_all_components_impl_ e r h) as [c r1 h1|err r1 h1|]; [|done|done].
  destruct F as (_ & F). destruct S as (_ & W1 & _). unfold on_member at 1.
  pose proof (ent unordered_erase_spec (entity_ids_ r1) e h1 (wf_entity_ids _ _ W1)) as U.
  destruct (sparse_set.unordered_erase _ _ _ _) as [b s' h2|err s' h2|]; [|done|done].
  destruct b; [|by unfold ret].
  unfold on_member, push_back, bind, get, put. simpl.
  pose proof (allocate_spec (free_entity_ids_ r1) h2) as A.
  destruct (allocate _ _) as [[] l h3|err l h3|]; [by unfold ret|done|done].
Qed.

(** What one call makes of the entities: nothing, a fresh index, a
    freed id used again, or an entity destroyed. *)
Lemma entity_step (r r' : registry) (c : call) (h : heap) :
  wf r → call_family_ok c → left_by (run_call vmax c r h) = Some r' →
  (entity_ids_ r' = entity_ids_ r ∧ free_entity_ids_ r' = free_entity_ids_ r ∧
   last_entity_id_ r' = last_entity_id_ r) ∨
  (free_entity_ids_ r = [] ∧ free_entity_ids_ r' = [] ∧
   last_entity_id_ r < entity_id_index_mask ∧
   last_entity_id_ r' = last_entity_id_ r + 1 ∧
   (live r' = live r ++ [last_entity_id_ r + 1] ∨ live r' = live r)) ∨
  (∃ f, last (free_entity_ids_ r) = Some f ∧
     free_entity_ids_ r' = take (length (free_entity_ids_ r) - 1) (free_entity_ids_ r) ∧
     live r' = live r ++ [entity_id_join (entity_id_index f)
                            ((entity_id_version f + 1) mod entity_id_modulus)] ∧
     last_entity_id_ r' = last_entity_id_ r) ∨
  (∃ e, e ∈ live r ∧ (∀ u, u ∈ live r' ↔ u ∈ live r ∧ u ≠ e) ∧
     (free_entity_ids_ r' = free_entity_ids_ r ++ [e] ∨
      free_entity_ids_ r' = free_entity_ids_ r) ∧
     last_entity_id_ r' = last_entity_id_ r).
Proof.
  intros W Hfam Hrun.
  destruct c as [|e|family e args|family e|e|family e v]; simpl in *.
  - unfold bind in Hrun. pose proof (reg create_entity_spec r h W) as S.
    destruct (create_entity vmax r h) as [e r1 h1|err r1 h1|]; simpl in Hrun; [| |done].
    + injection Hrun as <-. destruct S as (_ & _ & _ & Hl & _ & S).
      destruct (last (free_entity_ids_ r)) as [f|] eqn:Hf.
      * destruct S as (-> & Hfr & Hla & _). right; right; left. exists f. by rewrite Hl.
      * destruct S as (-> & Hlt & Hla & Hfr). right; left.
        apply last_None in Hf. rewrite Hl. split_and!; try done. by left.
    + injection Hrun as <-. destruct S as (_ & Hnil & S).
      destruct S as [(_ & -> & _)|(Hlt & -> & _)]; [by left|].
      right; left. rewrite Hnil. split_and!; try done. by right.
  - unfold bind in Hrun. pose proof (reg destroy_entity_spec r e h W) as S.
    destruct (destroy_entity e r h) as [b r1 h1|err r1 h1|]; simpl in Hrun; [| |done].
    + injection Hrun as <-. destruct S as (_ & _ & Hb & Hla & S). destruct b.
      * destruct S as [Hmem Hfr]. right; right; right. exists e.
        symmetry in Hb. apply bool_decide_eq_true in Hb. split_and!; try done. by left.
      * destruct S as [-> _]. by left.
    + injection Hrun as <-. destruct S as (_ & _ & _ & He & Hmem & Hfr & Hla).
      right; right; right. exists e. split_and!; try done. by right.
  - unfold bind in Hrun. pose proof (reg assign_component_spec r family e args h W Hfam) as S.
    destruct (assign_component vmax family e args r h); simpl in Hrun; [| |done].
    + injection Hrun as <-. left. by destruct S as (_ & _ & _ & ? & ? & ? & _).
    + injection Hrun as <-. left. by destruct S as (_ & _ & ? & ? & ? & _).
  - unfold bind in Hrun. pose proof (reg remove_component_spec r family e h W Hfam) as S.
    destruct (remove_component family e r h); simpl in Hrun; [|done|done].
    injection Hrun as <-. left. by destruct S as (_ & _ & ? & ? & ? & _).
  - unfold bind in Hrun. pose proof (reg remove_all_components_spec r e h W) as S.
    unfold remove_all_components in Hrun.
    destruct (remove_all_components_impl_ e r h); simpl in Hrun; [|done|done].
    injection Hrun as <-. left. by destruct S as (_ & _ & ? & ? & ? & _).
  - pose proof (reg get_component_assign_spec r family e v h W Hfam) as S.
    destruct (get_component_assign family e v r h); simpl in Hrun; [| |done].
    + injection Hrun as <-. left. by destruct S as (_ & _ & ? & ? & ?).
    + injection Hrun as <-. left. by destruct S as (_ & -> & _).
Qed.

(** The ids a registry knows, alive or freed, are values of
    [entity_id] and none has the index 0. *)
Lemma reachable_ids (r : registry) :
  reachable vmax r →
  ∀ x, x ∈ live r ++ free_entity_ids_ r →
    0 < entity_id_index x ∧ 0 ≤ x < entity_id_modulus.
Proof.
  induction 1 as [|r c h r' Hr IH Hfam Hrun].
  - intros x. unfold live. simpl. by intros ?%elem_of_nil.
  - pose proof (reg reachable_wf r Hr) as W.
    destruct (entity_step r r' c h W Hfam Hrun)
      as [(E1 & E2 & E3)|[(F1 & F2 & Hlt & Hla & Hl)|[(f & Hf & Hfr & Hl & Hla)|(e & He & Hmem & Hfr & Hla)]]];
      intros x Hx.
    + apply IH. unfold live in *. by rewrite <- E1, <- E2.
    + rewrite F2, app_nil_r in Hx. rewrite F1, app_nil_r in IH.
      destruct Hl as [Hl|Hl]; rewrite Hl in Hx; [|by apply IH].
      apply elem_of_app in Hx as [Hx|Hx%list_elem_of_singleton]; [by apply IH|]. subst x.
      pose proof (wf_last _ _ W) as [H0 _]. rewrite entity_id_index_mask_val in Hlt.
      rewrite entity_id_index_small by (rewrite entity_id_index_mask_val; lia).
      unfold entity_id_modulus. lia.
    + assert (f ∈ free_entity_ids_ r) as Hfin.
      { apply last_Some in Hf as [l' ->]. apply elem_of_app. right. by left. }
      rewrite Hl, Hfr in Hx.
      apply elem_of_app in Hx as [[Hx|Hx%list_elem_of_singleton]%elem_of_app|Hx].
      * apply IH. apply elem_of_app. by left.
      * subst x. destruct (IH f) as [Hi _]; [apply elem_of_app; by right|].
        pose proof (entity_id_index_range f) as Hr2. rewrite entity_id_index_mask_val in Hr2.
        rewrite entity_id_index_join by lia. split; [done|].
        rewrite entity_id_join_sum by lia.
        pose proof (Z.mod_pos_bound ((entity_id_version f + 1) mod entity_id_modulus) (2 ^ 10)).
        unfold entity_id_modulus in *. lia.
      * apply IH. apply elem_of_app. right. by eapply subseteq_take.
    + apply elem_of_app in Hx as [Hx|Hx].
      * apply IH. apply elem_of_app. left. by apply Hmem in Hx as [? _].
      * destruct Hfr as [Hfr|Hfr]; rewrite Hfr in Hx.
        -- apply elem_of_app in Hx as [Hx|Hx%list_elem_of_singleton].
           ++ apply IH. apply elem_of_app. by right.
           ++ subst x. apply IH. apply elem_of_app. by left.
        -- apply IH. apply elem_of_app. by right.
Qed.

(** X1.  The entity that [create_entity] returns was not alive before
    the call and is alive after it; it has no component of any type,
    whoever held its index before; the other handles are alive or not as
    they were, and every entity keeps its components.  A call that
    throws changes neither. *)
Theorem create_entity_fresh_entity (r : registry) (h : heap) :
  reachable vmax r →
  match create_entity vmax r h with
  | Normal e r' h' =>
      is_entity_alive r e = Some false ∧ is_entity_alive r' e = Some true ∧
      (∀ family, find_component r' family e = Some None ∧
                 exists_component r' family e = Some false) ∧
      (∀ e', e' ≠ e → is_entity_alive r' e' = is_entity_alive r e') ∧
      (∀ family e', find_component r' family e' = find_component r family e')
  | Raised _ r' h' =>
      (∀ e', is_entity_alive r' e' = is_entity_alive r e') ∧
      (∀ family e', find_component r' family e' = find_component r family e')
  | Undefined => False
  end.
Proof.
  intros Hr. pose proof (reg reachable_wf r Hr) as W.
  pose proof (reg create_entity_spec r h W) as S.
  pose proof (create_entity_storages r h W) as F.
  destruct (create_entity vmax r h) as [e r' h'|err r' h'|]; [| |done].
  - destruct S as (W' & _ & Hnew & Hl & _ & _).
    assert (∀ family e', comp_at r' family e' = comp_at r family e') as Hc.
    { intros family e'. by rewrite F. }
    split_and!.
    + by apply is_entity_alive_not_live.
    + apply is_entity_alive_live; [done|]. rewrite Hl. apply elem_of_app. right. by left.
    + intros family. unfold find_component.
      rewrite (reg find_component_spec) by done. rewrite comp_at_is_Some by done.
      rewrite Hc, comp_at_not_live by done. done.
    + intros e' Hne. unfold is_entity_alive.
      rewrite !(reg is_entity_alive_spec) by done. f_equal.
      apply bool_decide_ext. rewrite Hl, elem_of_app, list_elem_of_singleton. tauto.
    + intros family e'. by apply find_component_frame.
  - destruct S as (W' & _ & S). split.
    + intros e'. apply is_entity_alive_frame.
      destruct S as [(_ & -> & _)|(_ & -> & _)]; done.
    + intros family e'. apply find_component_frame; try done. by rewrite F.
Qed.

(** X2.  [destroy_entity] on an entity that is alive returns true, or
    throws [std::bad_alloc] when the free list cannot grow.  Either way
    the entity is not alive afterwards and has no component of any type,
    the other handles are alive or not as they were and the other
    entities keep their components.  When the call returns the id is the
    last of the free list; when it throws the free list is as it was, so
    the id is neither alive nor free. *)
Theorem destroy_entity_alive_cases (r : registry) (e : Z) (h : heap) :
  reachable vmax r → is_entity_alive r e = Some true →
  match destroy_entity e r h with
  | Normal b r' h' =>
      b = true ∧ free_entity_ids_ r' = free_entity_ids_ r ++ [e] ∧
      is_entity_alive r' e = Some false ∧
      (∀ family, find_component r' family e = Some None) ∧
      (∀ e', e' ≠ e → is_entity_alive r' e' = is_entity_alive r e') ∧
      (∀ family e', e' ≠ e → find_component r' family e' = find_component r family e')
  | Raised err r' h' =>
      err = bad_alloc ∧ ¬ granted h ∧ free_entity_ids_ r' = free_entity_ids_ r ∧
      is_entity_alive r' e = Some false ∧
      (∀ family, find_component r' family e = Some None) ∧
      (∀ e', e' ≠ e → is_entity_alive r' e' = is_entity_alive r e') ∧
      (∀ family e', e' ≠ e → find_component r' family e' = find_component r family e')
  | Undefined => False
  end.
Proof.
  intros Hr Ha. pose proof (reg reachable_wf r Hr) as W.
  apply is_entity_alive_live in Ha; [|done].
  pose proof (reg destroy_entity_spec r e h W) as S.
  pose proof (destroy_entity_frame r e h W) as F.
  assert (∀ r', wf r' → (∀ u, u ∈ live r' ↔ u ∈ live r ∧ u ≠ e) →
            (∀ family' e', comp_at r' family' e' =
               if decide (e' = e) then None else comp_at r family' e') →
            is_entity_alive r' e = Some false ∧
            (∀ family, find_component r' family e = Some None) ∧
            (∀ e', e' ≠ e → is_entity_alive r' e' = is_entity_alive r e') ∧
            (∀ family e', e' ≠ e → find_component r' family e' = find_component r family e'))
    as Hpost.
  { intros r' W' Hmem Hc. split_and!.
    - apply is_entity_alive_not_live; [done|]. rewrite Hmem. tauto.
    - intros family. unfold find_component. rewrite (reg find_component_spec) by done.
      by rewrite Hc, decide_True.
    - intros e' Hne. unfold is_entity_alive.
      rewrite !(reg is_entity_alive_spec) by done. f_equal.
      apply bool_decide_ext. rewrite Hmem. tauto.
    - intros family e' Hne. apply find_component_frame; try done.
      by rewrite Hc, decide_False. }
  destruct (destroy_entity e r h) as [b r' h'|err r' h'|]; [| |done].
  - destruct S as (W' & _ & Hb & _ & S).
    rewrite bool_decide_eq_true_2 in Hb by done. subst b.
    destruct S as [Hmem Hfr]. split_and!; try done; by apply Hpost.
  - destruct S as (-> & G & W' & _ & Hmem & Hfr & _).
    split_and!; try done; by apply Hpost.
Qed.

(** X3.  [remove_all_components] never throws and asks nothing of the
    allocator.  It returns the number of component types of which the
    entity had a component; afterwards the entity has no component, the
    set of entities alive is as it was and the other entities keep their
    components.  On a handle that is not alive it returns 0 and leaves
    the registry as it was. *)
Theorem remove_all_components_counts (r : registry) (e : Z) (h : heap) :
  reachable vmax r →
  ∃ n r',
    remove_all_components e r h = Normal n r' h ∧
    n = Z.of_nat (length (filter (λ family, exists_component r family e = Some true)
                            (sparse_map.keys (storages_ r)))) ∧
    (∀ family, find_component r' family e = Some None) ∧
    (∀ e', is_entity_alive r' e' = is_entity_alive r e') ∧
    (∀ family e', e' ≠ e → find_component r' family e' = find_component r family e') ∧
    (is_entity_alive r e = Some false → n = 0 ∧ r' = r).
Proof.
  intros Hr. pose proof (reg reachable_wf r Hr) as W.
  pose proof (reg remove_all_components_spec r e h W) as S.
  pose proof (remove_all_components_frame r e h W) as F.
  unfold remove_all_components.
  destruct (remove_all_components_impl_ e r h) as [n r' h'|err r' h'|]; [|done|done].
  destruct S as (-> & W' & E1 & _ & _ & _ & _ & Hsame). destruct F as (Hn & Hc).
  exists n, r'. split_and!; try done.
  - rewrite Hn. f_equal. symmetry.
    apply (filter_length_Forall2
             (λ family st, sparse_map.lookup (storages_ r) family = Some st)).
    + apply Forall2_same_length_lookup. split.
      * by apply (tbl length_keys), W.
      * intros i family st Hi Hst. by apply (lookup_at_position r i).
    + intros family st Hst. rewrite comp_at_is_Some by done. rewrite Hst. simpl.
      destruct (storage_of_lookup r family st W Hst) as [Wc _].
      rewrite <- (ent lookup_is_Some) by done.
      split; [intros [= H]; by apply bool_decide_eq_true in H|].
      intros H. by rewrite bool_decide_eq_true_2.
  - intros family. unfold find_component. rewrite (reg find_component_spec) by done.
    by rewrite Hc, decide_True.
  - intros e'. by apply is_entity_alive_frame.
  - intros family e' Hne. apply find_component_frame; try done.
    by rewrite Hc, decide_False.
  - intros Ha. apply is_entity_alive_not_live in Ha; [|done]. split; [|by apply Hsame].
    rewrite Hn. rewrite filter_none; [done|]. intros st Hst He. apply Ha.
    by apply (wf_components _ _ W st Hst).
Qed.

(** X4.  [component_storage<T>::remove] on a storage of a registry
    never throws and asks nothing of the allocator.  It returns what
    [exists] says of the entity before the call; afterwards [exists] is
    false and [find] is null for the entity, and for every other entity
    [exists] and [find] are as before.  When it returns true the entity
    that was last in the order that [for_each_component] walks has taken
    the place of the one removed, and the others have kept theirs; when
    it returns false the storage is as it was. *)
Theorem component_storage_remove_cases (r : registry) (family e : Z) (st : storage)
    (h : heap) :
  reachable vmax r → find_storage_ r family = Some (Some st) →
  ∃ b st',
    component_storage.remove e st h = Normal b st' h ∧
    component_storage.exists_ st e = Some b ∧
    component_storage.exists_ st' e = Some false ∧
    component_storage.find st' e = Some None ∧
    (∀ e', e' ≠ e →
       component_storage.exists_ st' e' = component_storage.exists_ st e' ∧
       component_storage.find st' e' = component_storage.find st e') ∧
    (b = true →
       ∃ i : nat, ckeys st !! i = Some e ∧ ckeys st' = swap_pop i (ckeys st)) ∧
    (b = false → st' = st).
Proof.
  intros Hr Hst. pose proof (reg reachable_wf r Hr) as W.
  rewrite (reg find_storage_spec) in Hst by done. injection Hst as Hst.
  pose proof (storage_of_lookup r family st W Hst) as Hok. pose proof Hok as [Wc _].
  pose proof (reg storage_remove_spec r st e h Hok) as R.
  pose proof (ent map_unordered_erase_spec (component_storage.components_ st) e h Wc) as E.
  unfold component_storage.remove, on_member in *.
  destruct (sparse_map.unordered_erase _ _ _ _) as [b c h1|err c h1|]; [|done|done].
  destruct R as (-> & [Wc' _] & Hb & Hmem & Hlk & Hsame).
  destruct E as (_ & _ & _ & E).
  eexists b, _. split; [done|]. unfold component_storage.exists_, component_storage.find.
  split_and!.
  - rewrite (ent map_has_spec) by done. by rewrite Hb.
  - rewrite (ent map_has_spec) by done. rewrite bool_decide_eq_false_2; [done|].
    intros Hin%Hmem. by destruct Hin.
  - rewrite (ent find_value_spec) by done. by rewrite Hlk, decide_True.
  - intros e' Hne. split.
    + rewrite !(ent map_has_spec) by done. f_equal. apply bool_decide_ext.
      rewrite Hmem. tauto.
    + rewrite !(ent find_value_spec) by done. by rewrite Hlk, decide_False.
  - intros ->. destruct E as (i & Hi & Hks & _). by exists i.
  - done.
Qed.

(** X5.  [assign_component<T>] on an entity that is alive returns true,
    or throws when a storage has to grow and cannot.  When it returns,
    the entity has the component made from the arguments, and every
    other component of every entity is as it was.  It throws only when
    the entity had no component of type [T]; every component is then as
    it was before the call.  The set of entities alive is as it was
    either way. *)
Theorem assign_component_alive_cases (r : registry) (family e : Z) (args : Comp)
    (h : heap) :
  reachable vmax r → is_family_id family → is_entity_alive r e = Some true →
  match assign_component vmax family e args r h with
  | Normal b r' h' =>
      b = true ∧
      find_component r' family e = Some (Some args) ∧
      exists_component r' family e = Some true ∧
      (∀ e', is_entity_alive r' e' = is_entity_alive r e') ∧
      (∀ family' e', (family', e') ≠ (family, e) →
         find_component r' family' e' = find_component r family' e')
  | Raised err r' h' =>
      (err = length_error ∨ (err = bad_alloc ∧ ¬ granted h)) ∧
      exists_component r family e = Some false ∧
      (∀ e', is_entity_alive r' e' = is_entity_alive r e') ∧
      (∀ family' e', find_component r' family' e' = find_component r family' e')
  | Undefined => False
  end.
Proof.
  intros Hr Hfam Ha. pose proof (reg reachable_wf r Hr) as W.
  apply is_entity_alive_live in Ha; [|done].
  pose proof (reg assign_component_spec r family e args h W Hfam) as S.
  pose proof (assign_component_frame r family e args h W Hfam) as F.
  destruct (assign_component vmax family e args r h) as [b r' h'|err r' h'|]; [| |done].
  - destruct S as (W' & _ & Hb & E1 & _). rewrite bool_decide_eq_true_2 in Hb by done.
    specialize (F Hb). split_and!; try done.
    + unfold find_component. rewrite (reg find_component_spec) by done.
      by rewrite F, decide_True.
    + rewrite comp_at_is_Some by done. rewrite F, decide_True by done.
      by rewrite bool_decide_eq_true_2.
    + intros e'. by apply is_entity_alive_frame.
    + intros family' e' Hne. apply find_component_frame; try done.
      rewrite F, decide_False; [done|]. intros [-> ->]. done.
  - destruct S as (W' & _ & E1 & _ & _ & Hnin & Herr). split_and!; try done.
    + rewrite (reg exists_component_spec) by done. f_equal.
      destruct (sparse_map.lookup (storages_ r) family) as [st|]; [|by rewrite andb_false_r].
      rewrite (bool_decide_eq_false_2 (e ∈ ckeys st)) by done. by rewrite andb_false_r.
    + intros e'. by apply is_entity_alive_frame.
    + intros family' e'. by apply find_component_frame.
Qed.

(** X6.  In every state of a registry [exists_component<T>(e)],
    [find_component<T>(e)] and [get_component<T>(e)] agree:
    [exists_component] is true exactly when [find_component] is not
    null, [get_component] then returns the component [find_component]
    points to and throws otherwise, leaving the registry as it is; and
    an entity that has a component is alive. *)
Theorem exists_find_get_component_agree (r : registry) (family e : Z) (h : heap) :
  reachable vmax r →
  ∃ c : option Comp,
    find_component r family e = Some c ∧
    exists_component r family e = Some (bool_decide (is_Some c)) ∧
    get_component family e r h =
      match c with
      | Some x => Normal x r h
      | None => Raised logic_error r h
      end ∧
    (is_Some c → is_entity_alive r e = Some true).
Proof.
  intros Hr. pose proof (reg reachable_wf r Hr) as W.
  exists (comp_at r family e). split_and!.
  - unfold find_component. by rewrite (reg find_component_spec).
  - by apply comp_at_is_Some.
  - unfold get_component, bind, get, defined.
    rewrite (reg find_component_spec) by done. unfold ret at 1.
    by destruct (comp_at r family e).
  - intros Hc. apply is_entity_alive_live; [done|].
    destruct (decide (e ∈ live r)) as [|Hn]; [done|].
    rewrite comp_at_not_live in Hc by done. by destruct Hc.
Qed.

Lemma get_component_comp_at (r : registry) family e h :
  wf r →
  get_component family e r h =
    match comp_at r family e with
    | Some x => Normal x r h
    | None => Raised logic_error r h
    end.
Proof.
  intros W. unfold get_component, bind, get, defined.
  rewrite (reg find_component_spec) by done. unfold ret at 1.
  by destruct (comp_at r family e).
Qed.

(** X7.  [find_components<Ts...>] returns the pointers that
    [find_component] returns for the types of the list, in order.
    [get_components<Ts...>] returns the components they point to when
    none is null; when one is null it throws, and the registry is as it
    was. *)
Theorem get_components_cases (r : registry) (families : list Z) (e : Z) (h : heap) :
  reachable vmax r →
  ∃ ps : list (option Comp),
    find_components r families e = Some ps ∧
    Forall2 (λ family p, find_component r family e = Some p) families ps ∧
    get_components families e r h =
      match mapM (λ p, p) ps with
      | Some cs => Normal cs r h
      | None => Raised logic_error r h
      end.
Proof.
  intros Hr. pose proof (reg reachable_wf r Hr) as W.
  exists ((λ family, comp_at r family e) <$> families).
  assert (Forall2 (λ family p, find_component r family e = Some p) families
            ((λ family, comp_at r family e) <$> families)) as HF.
  { apply Forall2_fmap_r, Forall_Forall2_diag, Forall_forall. intros family _.
    unfold find_component. by rewrite (reg find_component_spec). }
  split_and!; [by apply mapM_Some|done|].
  clear HF. induction families as [|family families IH]; [done|].
  simpl. unfold bind at 1. rewrite get_component_comp_at by done.
  destruct (comp_at r family e) as [c|]; simpl; [|done].
  unfold bind at 1. rewrite IH.
  by destruct (mapM _ _).
Qed.

(** X8.  [for_each_component<T>] calls the visitor once for each entry
    of [visits], in order: the entities of the storage of [T] in its
    dense order, each with its component.  None is there twice, and they
    are the entities for which [exists_component<T>] is true; a type
    with no storage has no visit.  The overload for a registry that is
    [const] is meant, with a visitor that does not change the registry. *)
Theorem for_each_component_visits (r : registry) (family : Z) :
  reachable vmax r →
  ∃ visits : list (Z * Comp),
    (∀ (A : Type) (f : A → Z → Comp → A) (a : A),
       for_each_component family f r a =
         Some (foldl (λ acc v, f acc v.1 v.2) a visits)) ∧
    visits.*1 = dense_order r family ∧
    NoDup visits.*1 ∧
    (∀ e, e ∈ visits.*1 ↔ exists_component r family e = Some true) ∧
    (∀ e c, (e, c) ∈ visits → find_component r family e = Some (Some c)) ∧
    (find_storage_ r family = Some None → visits = []).
Proof.
  intros Hr. pose proof (reg reachable_wf r Hr) as W.
  set (visit := λ e : Z, c ← comp_at r family e; Some (e, c)).
  exists (omap visit (dense_order r family)).
  assert (dense_order r family =
          match sparse_map.lookup (storages_ r) family with
          | Some st => ckeys st
          | None => []
          end) as Hd.
  { unfold dense_order. by rewrite (reg find_storage_spec). }
  assert (∀ e, e ∈ dense_order r family ↔ is_Some (comp_at r family e)) as Hin.
  { intros e. rewrite Hd.
    destruct (sparse_map.lookup (storages_ r) family) as [st|] eqn:Hst; simpl.
    - destruct (storage_of_lookup r family st W Hst) as [Wc _].
      by rewrite (ent lookup_is_Some).
    - split; [by intros ?%elem_of_nil|by intros []]. }
  assert (∀ l, (∀ e, e ∈ l → e ∈ dense_order r family) → (omap visit l).*1 = l) as Hfst.
  { induction l as [|e l IH]; intros Hl; [done|]. simpl.
    destruct (proj1 (Hin e) (Hl e (list_elem_of_here _ _))) as [c Hc].
    unfold visit at 1. rewrite Hc. simpl. f_equal. apply IH.
    intros e' He'. apply Hl. by right. }
  specialize (Hfst _ (λ e H, H)).
  split_and!.
  - intros A f a. unfold for_each_component. rewrite (reg find_storage_spec) by done.
    simpl. rewrite Hd. unfold visit.
    destruct (sparse_map.lookup (storages_ r) family) as [st|] eqn:Hst; [|done].
    destruct (storage_of_lookup r family st W Hst) as [Wc _].
    unfold component_storage.for_each_component.
    match goal with
    | |- foldl ?F _ ?l = _ =>
        assert (∀ l' a', (∀ e, e ∈ l' → e ∈ l) →
                  foldl F (Some a') l' =
                  Some (foldl (λ acc v, f acc v.1 v.2) a'
                          (omap (λ e, c ← clookup st e; Some (e, c)) l'))) as Hfold
    end.
    { induction l' as [|e l' IH]; intros a' Hl'; [done|].
      simpl.
      pose proof (ent map_get_value_spec (component_storage.components_ st) e [] Wc) as G.
      destruct (sparse_map.get_value _ _ _ _) as [c m' h'|err m' h'|]; [| |done].
      2:{ destruct G as (_ & _ & _ & G). exfalso. apply G, Hl'. by left. }
      destruct G as (_ & _ & Hc). rewrite Hc. simpl.
      apply IH. intros e' He'. apply Hl'. by right. }
    by apply Hfold.
  - done.
  - rewrite Hfst, Hd.
    destruct (sparse_map.lookup (storages_ r) family) as [st|] eqn:Hst; [|constructor].
    destruct (storage_of_lookup r family st W Hst) as [Wc _].
    by apply (ent keys_NoDup).
  - intros e. rewrite Hfst, Hin, comp_at_is_Some by done.
    split; [intros H; by rewrite bool_decide_eq_true_2|].
    intros [= H]. by apply bool_decide_eq_true in H.
  - intros e c (e' & _ & Hv)%list_elem_of_omap. unfold visit in Hv.
    destruct (comp_at r family e') as [c'|] eqn:Hc; [|done].
    simpl in Hv. injection Hv as -> ->.
    unfold find_component. by rewrite (reg find_component_spec), Hc.
  - rewrite (reg find_storage_spec) by done. intros [= Hnone].
    by rewrite Hd, Hnone.
Qed.

Lemma recycle_spec (n : nat) :
  ∀ (r : registry) e h,
    reachable vmax r → e ∈ live r → granted h →
    ∃ e' r' h',
      recycle vmax n e r h = Normal e' r' h' ∧
      reachable vmax r' ∧ e' ∈ live r' ∧ granted h' ∧
      entity_id_index e' = entity_id_index e ∧
      entity_id_version e' = (entity_id_version e + Z.of_nat n) mod 2 ^ 10.
Proof.
  induction n as [|n IH]; intros r e h Hr He Hg.
  - exists e, r, h. simpl. unfold ret. split_and!; try done.
    rewrite Z.add_0_r. symmetry. apply Z.mod_small, entity_id_version_range.
  - pose proof (reg reachable_wf r Hr) as W.
    simpl. unfold bind at 1.
    pose proof (reg destroy_entity_spec r e h W) as D.
    destruct (destroy_entity e r h) as [b r1 h1|err r1 h1|] eqn:Hd; [| |done].
    2:{ by destruct D as (_ & D & _). }
    destruct D as (W1 & G1 & Hb & _ & D).
    rewrite bool_decide_eq_true_2 in Hb by done. subst b. destruct D as [_ Hfr].
    assert (reachable vmax r1) as Hr1.
    { apply (reachable_call vmax r (DestroyEntity e) h r1); [done|done|].
      simpl. unfold bind. by rewrite Hd. }
    unfold bind at 1.
    pose proof (reg create_entity_spec r1 h1 W1) as C.
    destruct (create_entity vmax r1 h1) as [e1 r2 h2|err r2 h2|] eqn:Hc; [| |done].
    2:{ destruct C as (_ & C & _). rewrite Hfr in C. by destruct (free_entity_ids_ r). }
    destruct C as (W2 & _ & _ & Hl & _ & C).
    rewrite Hfr, last_snoc in C. destruct C as (He1 & _ & _ & ->).
    assert (reachable vmax r2) as Hr2.
    { apply (reachable_call vmax r1 CreateEntity h1 r2); [done|done|].
      simpl. unfold bind. by rewrite Hc. }
    destruct (IH r2 e1 h1 Hr2) as (e' & r' & h' & Hrun & Hr' & He' & Hg' & Hi & Hv).
    { rewrite Hl. apply elem_of_app. right. by left. }
    { by apply G1. }
    exists e', r', h'. split_and!; try done.
    + pose proof (entity_id_index_range e) as Hx. rewrite entity_id_index_mask_val in Hx.
      rewrite Hi, He1. apply entity_id_index_join. lia.
    + pose proof (entity_id_index_range e) as Hx. rewrite entity_id_index_mask_val in Hx.
      rewrite Hv, He1, entity_id_version_join by lia.
      unfold entity_id_modulus.
      change (2 ^ 32) with (2 ^ 10 * 2 ^ 22).
      rewrite Z.rem_mul_r by lia.
      rewrite Z.mul_comm, Z.mod_add by lia. rewrite Z.mod_mod by lia.
      rewrite Z.add_mod_idemp_l by lia. f_equal. lia.
Qed.

(** X9.  The generation of an index wraps.  A client that destroys its
    entity and creates one in its place, [n] times over with an
    allocator that grants every request, ends with an entity alive at
    the index it began with and with the generation [n] higher modulo
    [2^10].  After a multiple of 1024 rounds this is the id the client
    began with, which is alive again; after any other number of rounds
    the id it began with is not alive. *)
Theorem recycle_wraps_generation (r : registry) (e : Z) (n : nat) (h : heap) :
  reachable vmax r → is_entity_alive r e = Some true → granted h →
  ∃ e' r' h',
    recycle vmax n e r h = Normal e' r' h' ∧
    is_entity_alive r' e' = Some true ∧
    entity_id_index e' = entity_id_index e ∧
    entity_id_version e' = (entity_id_version e + Z.of_nat n) mod 2 ^ 10 ∧
    (Z.of_nat n mod 1024 = 0 → e' = e) ∧
    (Z.of_nat n mod 1024 ≠ 0 → is_entity_alive r' e = Some false).
Proof.
  intros Hr Ha Hg. pose proof (reg reachable_wf r Hr) as W.
  apply is_entity_alive_live in Ha; [|done].
  destruct (recycle_spec n r e h Hr Ha Hg) as (e' & r' & h' & Hrun & Hr' & He' & _ & Hi & Hv).
  pose proof (reg reachable_wf r' Hr') as W'.
  exists e', r', h'. split_and!; try done.
  - by apply is_entity_alive_live.
  - intros Hn. apply entity_id_eq; try done.
    + apply (reachable_ids r' Hr'). apply elem_of_app. by left.
    + apply (reachable_ids r Hr). apply elem_of_app. by left.
    + rewrite Hv. change (2 ^ 10) with 1024.
      rewrite <- Z.add_mod_idemp_r, Hn, Z.add_0_r by lia.
      apply Z.mod_small. apply entity_id_version_range.
  - intros Hn. apply is_entity_alive_not_live; [done|]. intros He.
    assert (e = e') as <- by (by apply (reg live_index_inj r')).
    apply Hn. pose proof (entity_id_version_range e) as Hx.
    change (2 ^ 10) with 1024 in *.
    clear -Hv Hx. revert Hv. generalize (entity_id_version e) (Z.of_nat n) Hx.
    intros v m Hv Hm. apply Z.mod_small in Hv. rewrite <- Hv in Hm at 1.
    revert Hm. clear. intros. Z.div_mod_to_equations. lia.
Qed.

(** X10.  No entity with the index 0 is ever alive: [create_entity]
    takes fresh indices from 1 upwards and uses freed ids again with
    their index.  The id 0 of a handle made by [entity(owner)] is such
    an id. *)
Theorem index_zero_never_alive (r : registry) (e : Z) :
  reachable vmax r → entity_id_index e = 0 → is_entity_alive r e = Some false.
Proof.
  intros Hr H0. pose proof (reg reachable_wf r Hr) as W.
  apply is_entity_alive_not_live; [done|]. intros He.
  destruct (reachable_ids r Hr e) as [Hpos _]; [apply elem_of_app; by left|]. lia.
Qed.

(** X11.  Two entities alive at the same time never have the same
    index. *)
Theorem alive_entities_distinct_indices (r : registry) (e1 e2 : Z) :
  reachable vmax r →
  is_entity_alive r e1 = Some true → is_entity_alive r e2 = Some true →
  entity_id_index e1 = entity_id_index e2 → e1 = e2.
Proof.
  intros Hr H1 H2. pose proof (reg reachable_wf r Hr) as W.
  apply is_entity_alive_live in H1, H2; try done. by apply (reg live_index_inj r).
Qed.

(** X12.  Every index from 1 to [last_entity_id_] belongs to at most
    one id, alive or freed: the entities alive and the ids of the free
    list together are no more than [last_entity_id_], which is at most
    [2^22 - 1]. *)
Theorem entity_count_bounded (r : registry) :
  reachable vmax r →
  sparse_set.size (entity_ids_ r) + Z.of_nat (length (free_entity_ids_ r))
    ≤ last_entity_id_ r ∧
  last_entity_id_ r ≤ 2 ^ 22 - 1.
Proof.
  intros Hr. pose proof (reg reachable_wf r Hr) as W.
  pose proof W as [W1 W2 W3 W4 W5 W6 W7 W8 W9].
  split; [|rewrite entity_id_index_mask_val in W1; apply W1].
  pose proof (ent length_elements (entity_ids_ r) W2) as Hl.
  pose proof (sparse_set.wf_size _ _ _ W2) as Hs.
  assert (Z.of_nat (length (entity_id_index <$> live r ++ free_entity_ids_ r))
          ≤ Z.max 0 (last_entity_id_ r)) as Hle.
  { apply NoDup_bounded_length.
    - rewrite fmap_app. apply NoDup_app. split_and!.
      + apply (ent indices_NoDup (entity_ids_ r) W2).
      + intros x (e & -> & He)%list_elem_of_fmap (f & Heq & Hf)%list_elem_of_fmap.
        by apply (W6 f e).
      + done.
    - intros x (y & -> & Hy)%list_elem_of_fmap.
      destruct (reachable_ids r Hr y Hy) as [Hpos _]. split; [lia|].
      apply elem_of_app in Hy as [Hy|Hy]; [by apply W3|by apply W4]. }
  rewrite length_fmap, length_app in Hle. unfold sparse_set.size, live in *. lia.
Qed.

Lemma lost_index_step (r r' : registry) (c : call) (h : heap) (i : Z) :
  wf r → call_family_ok c → left_by (run_call vmax c r h) = Some r' →
  i ≤ last_entity_id_ r ∧
  (∀ x, x ∈ live r ++ free_entity_ids_ r → entity_id_index x ≠ i) →
  i ≤ last_entity_id_ r' ∧
  (∀ x, x ∈ live r' ++ free_entity_ids_ r' → entity_id_index x ≠ i).
Proof.
  intros W Hfam Hrun [Hi Hlost].
  destruct (entity_step r r' c h W Hfam Hrun)
    as [(E1 & E2 & E3)|[(F1 & F2 & Hlt & Hla & Hl)|[(f & Hf & Hfr & Hl & Hla)|(e & He & Hmem & Hfr & Hla)]]].
  - unfold live in *. by rewrite E1, E2, E3.
  - split; [lia|]. intros x Hx. rewrite F2, app_nil_r in Hx. rewrite F1, app_nil_r in Hlost.
    destruct Hl as [Hl|Hl]; rewrite Hl in Hx; [|by apply Hlost].
    apply elem_of_app in Hx as [Hx|Hx%list_elem_of_singleton]; [by apply Hlost|]. subst x.
    pose proof (wf_last _ _ W) as [H0 _].
    rewrite entity_id_index_small by lia. lia.
  - split; [lia|]. intros x Hx.
    assert (f ∈ free_entity_ids_ r) as Hfin.
    { apply last_Some in Hf as [l' ->]. apply elem_of_app. right. by left. }
    rewrite Hl, Hfr in Hx.
    apply elem_of_app in Hx as [[Hx|Hx%list_elem_of_singleton]%elem_of_app|Hx].
    + apply Hlost. apply elem_of_app. by left.
    + subst x. pose proof (entity_id_index_range f) as Hr2.
      rewrite entity_id_index_mask_val in Hr2.
      rewrite entity_id_index_join by lia. apply Hlost. apply elem_of_app. by right.
    + apply Hlost. apply elem_of_app. right. by eapply subseteq_take.
  - split; [lia|]. intros x Hx. apply elem_of_app in Hx as [Hx|Hx].
    + apply Hlost. apply elem_of_app. left. by apply Hmem in Hx as [? _].
    + destruct Hfr as [Hfr|Hfr]; rewrite Hfr in Hx.
      * apply elem_of_app in Hx as [Hx|Hx%list_elem_of_singleton].
        -- apply Hlost. apply elem_of_app. by right.
        -- subst x. apply Hlost. apply elem_of_app. by left.
      * apply Hlost. apply elem_of_app. by right.
Qed.

Lemma lost_index_run (cs : list (call * heap)) (i : Z) :
  ∀ r r' : registry,
    reachable vmax r → Forall (λ c, call_family_ok c.1) cs →
    run_calls vmax cs r = Some r' →
    i ≤ last_entity_id_ r ∧
    (∀ x, x ∈ live r ++ free_entity_ids_ r → entity_id_index x ≠ i) →
    ∀ x, x ∈ live r' → entity_id_index x ≠ i.
Proof.
  induction cs as [|[c h] cs IH]; intros r r' Hr Hok Hrun Hlost; simpl in *.
  - injection Hrun as <-. intros x Hx. apply Hlost. apply elem_of_app. by left.
  - apply Forall_cons in Hok as [Hc Hok]. simpl in Hc.
    destruct (left_by (run_call vmax c r h)) as [r1|] eqn:Hstep; [|done]. simpl in Hrun.
    apply (IH r1 r'); try done.
    + by apply (reachable_call vmax r c h r1).
    + apply (lost_index_step r r1 c h i); try done. by apply (reg reachable_wf).
Qed.

(** X13.  A [destroy_entity] that throws has lost the index of its
    entity for good.  The entity is off the set of entities alive and
    its id is not on the free list, and whatever calls follow, no entity
    with that index is alive again. *)
Theorem destroy_entity_throw_loses_index (r r1 r2 : registry) (e x : Z) (h h1 : heap)
    (err : exn) (cs : list (call * heap)) :
  reachable vmax r → destroy_entity e r h = Raised err r1 h1 →
  Forall (λ c, call_family_ok c.1) cs → run_calls vmax cs r1 = Some r2 →
  is_entity_alive r2 x = Some true → entity_id_index x ≠ entity_id_index e.
Proof.
  intros Hr Hd Hok Hrun Hx. pose proof (reg reachable_wf r Hr) as W.
  pose proof (reg destroy_entity_spec r e h W) as D. rewrite Hd in D.
  destruct D as (_ & _ & W1 & He & Hmem & Hfr & Hla).
  assert (reachable vmax r1) as Hr1.
  { apply (reachable_call vmax r (DestroyEntity e) h r1); [done|done|].
    simpl. unfold bind. by rewrite Hd. }
  assert (reachable vmax r2) as Hr2 by (by apply (reg reachable_run_calls cs r1 r2)).
  apply is_entity_alive_live in Hx; [|by apply (reg reachable_wf)].
  apply (lost_index_run cs (entity_id_index e) r1 r2); try done.
  split.
  - rewrite Hla. by apply (wf_live _ _ W).
  - intros y Hy Heq. apply elem_of_app in Hy as [Hy|Hy].
    + apply Hmem in Hy as [Hy Hne]. apply Hne. by apply (reg live_index_inj r).
    + rewrite Hfr in Hy. by apply (wf_free_live _ _ W y e).
Qed.

Lemma get_component_assign_frame (r : registry) family e v h :
  wf r →
  match get_component_assign family e v r h with
  | Normal _ r' h' =>
      is_Some (comp_at r family e) ∧
      ∀ family' e', comp_at r' family' e' =
        if decide (family' = family ∧ e' = e) then Some v else comp_at r family' e'
  | Raised _ _ _ => comp_at r family e = None
  | Undefined => False
  end.
Proof.
  intros W. unfold get_component_assign, bind, get, defined.
  rewrite (reg find_component_spec) by done. unfold ret at 1.
  destruct (sparse_map.lookup (storages_ r) family) as [st|] eqn:Hst; simpl; [|done].
  destruct (storage_of_lookup r family st W Hst) as [Wc Hk].
  pose proof Hst as (i & Hi & Hsti)%(tbl lookup_Some_position).
  destruct (clookup st e) as [c|] eqn:Hc; [|done].
  assert (e ∈ ckeys st) as Hin.
  { apply (ent lookup_is_Some); [done|]. by rewrite Hc. }
  apply list_elem_of_lookup in Hin as [j Hj].
  rewrite (reg on_storage_spec r family _ h i st) by done.
  unfold on_member.
  rewrite (ent map_get_value_assign_spec _ e v h j) by done.
  split; [done|]. intros family' e'.
  rewrite (comp_at_update_storage r i family st) by done. simpl.
  destruct (decide (family' = family)) as [->|Hne].
  - rewrite (ent lookup_set_values _ e j v e') by done. rewrite Hst. simpl.
    destruct (decide (e' = e)) as [->|Hne'].
    + by rewrite decide_True.
    + by rewrite decide_False by tauto.
  - by rewrite decide_False by tauto.
Qed.

(** X14.  The reference that [get_component<T>(e)] returns is the
    stored component: a value written through it is what
    [find_component<T>(e)] and [get_component<T>(e)] give afterwards,
    and every other component of every entity is as it was, and so is
    the set of entities alive.  When the entity has no component of
    type [T] the call throws and the registry is as it was. *)
Theorem get_component_reference_writes (r : registry) (family e : Z) (v : Comp)
    (h : heap) :
  reachable vmax r → is_family_id family →
  match get_component_assign family e v r h with
  | Normal _ r' h' =>
      h' = h ∧ exists_component r family e = Some true ∧
      find_component r' family e = Some (Some v) ∧
      get_component family e r' h = Normal v r' h ∧
      (∀ e', is_entity_alive r' e' = is_entity_alive r e') ∧
      (∀ family' e', (family', e') ≠ (family, e) →
         find_component r' family' e' = find_component r family' e')
  | Raised err r' h' =>
      err = logic_error ∧ r' = r ∧ h' = h ∧
      exists_component r family e = Some false
  | Undefined => False
  end.
Proof.
  intros Hr Hfam. pose proof (reg reachable_wf r Hr) as W.
  pose proof (reg get_component_assign_spec r family e v h W Hfam) as S.
  pose proof (get_component_assign_frame r family e v h W) as F.
  destruct (get_component_assign family e v r h) as [[] r' h'|err r' h'|]; [| |done].
  - destruct S as (-> & W' & E1 & _). destruct F as (Hsome & F). split_and!; try done.
    + rewrite comp_at_is_Some by done. by rewrite bool_decide_eq_true_2.
    + unfold find_component. rewrite (reg find_component_spec) by done.
      by rewrite F, decide_True.
    + rewrite get_component_comp_at by done. by rewrite F, decide_True.
    + intros e'. by apply is_entity_alive_frame.
    + intros family' e' Hne. apply find_component_frame; try done.
      rewrite F, decide_False; [done|]. intros [-> ->]. done.
  - destruct S as (-> & -> & ->). split_and!; try done.
    rewrite comp_at_is_Some by done. rewrite F. done.
Qed.

(** The entities of the storage of [family], in dense order. *)
Local Abbreviation fkeys r family :=
  (match sparse_map.lookup (storages_ r) family with
   | Some st => ckeys st
   | None => []
   end) (only parsing).

Lemma fkeys_update_storage (r : registry) (i : nat) family st st' family' :
  wf r → sparse_map.keys (storages_ r) !! i = Some family →
  sparse_map.values_ (storages_ r) !! i = Some st →
  fkeys (update_storage i st' r) family' =
    if decide (family' = family) then ckeys st' else fkeys r family'.
Proof.
  intros W Hi Hst. rewrite (reg table_lookup_update r i family) by done.
  by destruct (decide (family' = family)).
Qed.

Lemma get_or_create_storage_order (r : registry) family h :
  wf r → is_family_id family →
  match get_or_create_storage_ vmax family r h with
  | Normal _ r' _ => ∀ family', fkeys r' family' = fkeys r family'
  | Raised _ _ _ => True
  | Undefined => True
  end.
Proof.
  intros W Hfam. pose proof (reg get_or_create_storage_spec r family h W Hfam) as G.
  destruct (get_or_create_storage_ vmax family r h) as [[] r' h'|err r' h'|]; [|done|done].
  destruct G as (W' & _ & _ & _ & _ & G). intros family'.
  destruct (sparse_map.lookup (storages_ r) family) as [st|] eqn:Hst.
  { by destruct G as [-> _]. }
  destruct G as [Hks Hvs].
  assert (family ∉ sparse_map.keys (storages_ r)) as Hnin.
  { intros Hin%(tbl lookup_is_Some); [|apply W]. rewrite Hst in Hin. by destruct Hin. }
  rewrite (tbl lookup_snoc (storages_ r) (storages_ r') family component_storage.empty family')
    by (done || apply W || apply W').
  destruct (decide (family' = family)) as [->|Hne]; [|done].
  by rewrite Hst.
Qed.

Lemma assign_component_order (r : registry) family e args h :
  wf r → is_family_id family →
  match assign_component vmax family e args r h with
  | Normal b r' _ =>
      b = true →
      ∀ family', fkeys r' family' =
        if decide (family' = family)
        then (if decide (e ∈ fkeys r family) then fkeys r family else fkeys r family ++ [e])
        else fkeys r family'
  | Raised _ r' _ => ∀ family', fkeys r' family' = fkeys r family'
  | Undefined => True
  end.
Proof.
  intros W Hfam. unfold assign_component, bind, get, defined.
  rewrite (reg is_entity_alive_spec) by done. unfold ret at 1.
  case_bool_decide as He; simpl; [|by unfold ret].
  pose proof (reg get_or_create_storage_spec r family h W Hfam) as G.
  pose proof (get_or_create_storage_order r family h W Hfam) as F.
  destruct (get_or_create_storage_ vmax family r h) as [[] r1 h1|err r1 h1|]; [| |done].
  2:{ by destruct G as (-> & _). }
  destruct G as (W1 & G1 & E1 & E2 & E3 & G).
  assert (e ∈ live r1) as He1 by (unfold live; by rewrite E1).
  assert (∃ (i : nat) st1,
            sparse_map.keys (storages_ r1) !! i = Some family ∧
            sparse_map.values_ (storages_ r1) !! i = Some st1)
    as (i & st1 & Hi & Hst1).
  { destruct (sparse_map.lookup (storages_ r) family) as [st|] eqn:Hst.
    - destruct G as (-> & ->).
      apply (tbl lookup_Some_position) in Hst as (i & Hi & Hst). eauto.
    - destruct G as (Hks & Hvs).
      pose proof (tbl length_keys (storages_ r) (wf_storages _ _ W)) as Hl.
      exists (length (sparse_map.keys (storages_ r))), component_storage.empty.
      split.
      + rewrite Hks. by apply list_lookup_middle.
      + rewrite Hvs. by apply list_lookup_middle. }
  assert (storage_ok r1 st1) as Hok1.
  { apply (wf_components _ _ W1). by eapply list_elem_of_lookup_2. }
  pose proof (lookup_at_position r1 i family st1 W1 Hi Hst1) as Hlk1.
  assert (ckeys st1 = fkeys r family) as Hks1 by (by rewrite <- F, Hlk1).
  rewrite (reg on_storage_spec r1 family _ h1 i st1) by done.
  pose proof (reg storage_assign_spec r1 st1 e args h1 W1 Hok1 He1) as A.
  destruct (component_storage.assign vmax e args st1 h1) as [[] st' h2|err st' h2|]; [| |done].
  - destruct A as (_ & _ & _ & Hks & _).
    unfold ret. intros _ family'.
    rewrite (fkeys_update_storage r1 i family st1) by done.
    destruct (decide (family' = family)) as [->|Hne]; [|apply F].
    by rewrite Hks, Hks1.
  - destruct A as (-> & _). rewrite (reg update_storage_id) by done. apply F.
Qed.

(** X15.  [assign_component<T>] on an entity that is alive keeps the
    order in which [for_each_component] walks the entities of every
    type: an entity that gets its first component of type [T] comes last
    in the order of [T], an entity whose component is overwritten keeps
    its place, and the orders of the other types are as they were.  A
    call that throws changes no order. *)
Theorem assign_component_dense_order (r : registry) (family e : Z) (args : Comp)
    (h : heap) :
  reachable vmax r → is_family_id family → is_entity_alive r e = Some true →
  match assign_component vmax family e args r h with
  | Normal _ r' _ =>
      dense_order r' family =
        (if decide (exists_component r family e = Some true)
         then dense_order r family else dense_order r family ++ [e]) ∧
      (∀ family', family' ≠ family → dense_order r' family' = dense_order r family')
  | Raised _ r' _ => ∀ family', dense_order r' family' = dense_order r family'
  | Undefined => False
  end.
Proof.
  intros Hr Hfam Ha. pose proof (reg reachable_wf r Hr) as W.
  apply is_entity_alive_live in Ha; [|done].
  pose proof (reg assign_component_spec r family e args h W Hfam) as S.
  pose proof (assign_component_order r family e args h W Hfam) as F.
  destruct (assign_component vmax family e args r h) as [b r' h'|err r' h'|]; [| |done].
  - destruct S as (W' & _ & Hb & _). rewrite bool_decide_eq_true_2 in Hb by done.
    specialize (F Hb). split.
    + rewrite !(reg dense_order_spec) by done. rewrite F, decide_True by done.
      rewrite (reg exists_component_spec) by done.
      rewrite bool_decide_eq_true_2 by done. simpl.
      destruct (sparse_map.lookup (storages_ r) family) as [st|].
      * destruct (decide (e ∈ ckeys st)) as [Hin|Hnin].
        -- by rewrite bool_decide_eq_true_2, decide_True by done.
        -- by rewrite bool_decide_eq_false_2, decide_False by done.
      * rewrite decide_False by (by intros ?%elem_of_nil). by rewrite decide_False.
    + intros family' Hne. rewrite !(reg dense_order_spec) by done.
      by rewrite F, decide_False.
  - destruct S as (W' & _). intros family'. rewrite !(reg dense_order_spec) by done.
    apply F.
Qed.

Lemma remove_all_components_loop_order e (ids : list Z) :
  ∀ (n : nat) (r : registry) cnt h,
    wf r → drop n (sparse_map.keys (storages_ r)) = ids →
    match remove_all_components_loop_ ids e cnt r h with
    | Normal _ r' _ =>
        ∀ family,
          (family ∈ ids →
             (e ∉ fkeys r family → fkeys r' family = fkeys r family) ∧
             (∀ i : nat, fkeys r family !! i = Some e →
                fkeys r' family = swap_pop i (fkeys r family))) ∧
          (family ∉ ids → fkeys r' family = fkeys r family)
    | Raised _ _ _ => True
    | Undefined => True
    end.
Proof.
  induction ids as [|id ids IH]; intros n r cnt h W Hd.
  - simpl. unfold ret. intros family. split; [by intros ?%elem_of_nil|done].
  - simpl. unfold bind.
    assert (sparse_map.keys (storages_ r) !! n = Some id) as Hn.
    { rewrite <- (Nat.add_0_r n), <- lookup_drop, Hd. done. }
    assert (id ∉ ids) as Hfresh.
    { pose proof (tbl keys_NoDup (storages_ r) (wf_storages _ _ W)) as Hnd.
      rewrite <- (take_drop n (sparse_map.keys (storages_ r))), Hd in Hnd.
      apply NoDup_app in Hnd as (_ & _ & Hnd). by apply NoDup_cons in Hnd as [? _]. }
    pose proof (tbl length_keys (storages_ r) (wf_storages _ _ W)) as Hl.
    destruct (lookup_lt_is_Some_2 (sparse_map.values_ (storages_ r)) n) as [st Hst].
    { apply lookup_lt_Some in Hn. lia. }
    rewrite (reg on_storage_spec r id _ h n st) by done.
    assert (storage_ok r st) as Hok.
    { apply (wf_components _ _ W). by eapply list_elem_of_lookup_2. }
    pose proof Hok as [Wc _].
    pose proof (reg storage_remove_spec r st e h Hok) as R.
    pose proof (ent map_unordered_erase_spec (component_storage.components_ st) e h Wc) as E.
    unfold component_storage.remove, on_member in *.
    destruct (sparse_map.unordered_erase _ _ _ _) as [b c h1|err c h1|]; [|done|done].
    destruct R as (-> & Hok' & _). destruct E as (_ & _ & _ & E).
    set (st' := component_storage.set_components c st) in *.
    assert ((e ∉ ckeys st → ckeys st' = ckeys st) ∧
            (∀ i : nat, ckeys st !! i = Some e → ckeys st' = swap_pop i (ckeys st)))
      as Hmoved.
    { destruct b.
      - destruct E as (j & Hj & Hks & _). split.
        + intros Hnin. exfalso. apply Hnin. by eapply list_elem_of_lookup_2.
        + intros i Hi. assert (i = j) as ->; [|done].
          eapply NoDup_lookup; [apply (ent keys_NoDup _ Wc)|done|done].
      - destruct E as (Hnin & ->). split; [done|].
        intros i Hi. exfalso. apply Hnin. by eapply list_elem_of_lookup_2. }
    set (r2 := update_storage n st' r).
    specialize (IH (S n) r2 (if b then wrap_size_t (cnt + 1) else cnt) h).
    lapply IH; [clear IH; intros IH|by apply (reg wf_update_storage)].
    lapply IH; [clear IH; intros IH|].
    2:{ change (drop (S n) (sparse_map.keys (storages_ r)) = ids).
        by rewrite <- (Nat.add_1_r n), <- drop_drop, Hd. }
    destruct (remove_all_components_loop_ _ _ _ _ _) as [k r' h'|err r' h'|]; [|done|done].
    assert (∀ family, fkeys r2 family =
              if decide (family = id) then ckeys st' else fkeys r family) as H2.
    { intros family. unfold r2. by apply (fkeys_update_storage r n id st). }
    pose proof (lookup_at_position r n id st W Hn Hst) as Hlk.
    intros family. destruct (IH family) as [IH1 IH2]. split.
    + intros [->|Hin]%elem_of_cons.
      * rewrite (IH2 Hfresh), H2, decide_True by done. by rewrite Hlk.
      * assert (family ≠ id) as Hne by (by intros ->).
        specialize (IH1 Hin). by rewrite H2, decide_False in IH1.
    + intros Hnin. apply not_elem_of_cons in Hnin as [Hne Hnin].
      by rewrite (IH2 Hnin), H2, decide_False.
Qed.

Lemma remove_all_components_order (r : registry) e h :
  wf r →
  match remove_all_components_impl_ e r h with
  | Normal _ r' _ =>
      ∀ family,
        (e ∉ fkeys r family → fkeys r' family = fkeys r family) ∧
        (∀ i : nat, fkeys r family !! i = Some e →
           fkeys r' family = swap_pop i (fkeys r family))
  | Raised _ _ _ => True
  | Undefined => True
  end.
Proof.
  intros W. unfold remove_all_components_impl_, bind, get, defined.
  rewrite (reg is_entity_alive_spec) by done. unfold ret at 1.
  case_bool_decide as Hin; simpl.
  - pose proof (remove_all_components_loop_order e _ 0 r 0 h W eq_refl) as L.
    destruct (remove_all_components_loop_ _ _ _ _ _) as [c r' h'|err r' h'|]; [|done|done].
    intros family. destruct (L family) as [L1 L2]. rewrite drop_0 in L1, L2.
    destruct (decide (family ∈ sparse_map.keys (storages_ r))) as [Hf|Hf]; [by apply L1|].
    rewrite (L2 Hf). rewrite (tbl lookup_absent) by done.
    split; [done|]. by intros i ?.
  - unfold ret. intros family. split; [done|].
    intros i Hi. exfalso. apply Hin.
    destruct (sparse_map.lookup (storages_ r) family) as [st|] eqn:Hst; [|done].
    apply (storage_of_lookup r family st W Hst). by eapply list_elem_of_lookup_2.
Qed.

Lemma destroy_entity_storages (r : registry) e h :
  wf r →
  match remove_all_components_impl_ e r h with
  | Normal _ r1 _ =>
      match destroy_entity e r h with
      | Normal _ r' _ => storages_ r' = storages_ r1
      | Raised _ r' _ => storages_ r' = storages_ r1
      | Undefined => False
      end
  | Raised _ _ _ => False
  | Undefined => False
  end.
Proof.
  intros W. unfold destroy_entity, bind.
  pose proof (reg remove_all_components_spec r e h W) as S.
  destruct (remove_all_components_impl_ e r h) as [c r1 h1|err r1 h1|]; [|done|done].
  destruct S as (_ & W1 & _). unfold on_member at 1.
  pose proof (ent unordered_erase_spec (entity_ids_ r1) e h1 (wf_entity_ids _ _ W1)) as U.
  destruct (sparse_set.unordered_erase _ _ _ _) as [b s' h2|err s' h2|]; [|done|done].
  destruct b; [|by unfold ret].
  unfold on_member, push_back, bind, get, put. simpl.
  pose proof (allocate_spec (free_entity_ids_ r1) h2) as A.
  destruct (allocate _ _) as [[] l h3|err l h3|]; [by unfold ret|done|done].
Qed.

(** X16.  [remove_all_components] and [destroy_entity] change the order
    in which [for_each_component] walks the entities of a type by one
    swap at most: where the entity had a component, the entity that
    was last in the order takes its place and the others keep theirs;
    where it had none, the order is as it was.  This holds for a
    [destroy_entity] that throws as well. *)
Theorem remove_all_components_dense_order (r : registry) (e : Z) (h : heap) :
  reachable vmax r →
  match remove_all_components e r h with
  | Normal _ r' _ =>
      ∀ family,
        (e ∉ dense_order r family → dense_order r' family = dense_order r family) ∧
        (∀ i : nat, dense_order r family !! i = Some e →
           dense_order r' family = swap_pop i (dense_order r family))
  | Raised _ _ _ => False
  | Undefined => False
  end ∧
  match destroy_entity e r h with
  | Normal _ r' _ =>
      ∀ family,
        (e ∉ dense_order r family → dense_order r' family = dense_order r family) ∧
        (∀ i : nat, dense_order r family !! i = Some e →
           dense_order r' family = swap_pop i (dense_order r family))
  | Raised _ r' _ =>
      ∀ family,
        (e ∉ dense_order r family → dense_order r' family = dense_order r family) ∧
        (∀ i : nat, dense_order r family !! i = Some e →
           dense_order r' family = swap_pop i (dense_order r family))
  | Undefined => False
  end.
Proof.
  intros Hr. pose proof (reg reachable_wf r Hr) as W.
  pose proof (reg remove_all_components_spec r e h W) as S.
  pose proof (remove_all_components_order r e h W) as O.
  pose proof (destroy_entity_storages r e h W) as D.
  pose proof (reg destroy_entity_spec r e h W) as DS.
  unfold remove_all_components.
  destruct (remove_all_components_impl_ e r h) as [c r1 h1|err r1 h1|]; [|done|done].
  destruct S as (_ & W1 & _).
  assert (∀ r', wf r' → storages_ r' = storages_ r1 →
            ∀ family,
              (e ∉ dense_order r family → dense_order r' family = dense_order r family) ∧
              (∀ i : nat, dense_order r family !! i = Some e →
                 dense_order r' family = swap_pop i (dense_order r family))) as Hpost.
  { intros r' W' Hs family. rewrite !(reg dense_order_spec) by done. rewrite Hs.
    apply O. }
  split; [by apply Hpost|].
  destruct (destroy_entity e r h) as [b r' h'|err r' h'|]; [| |done].
  - apply Hpost; [apply DS|done].
  - apply Hpost; [apply DS|done].
Qed.

Lemma assign_component_no_length_error (r : registry) family e args h :
  wf r → is_family_id family → entity_id_index_mask < vmax →
  match assign_component vmax family e args r h with
  | Raised err _ _ => err ≠ length_error
  | _ => True
  end.
Proof.
  intros W Hfam Hmax. rewrite entity_id_index_mask_val in Hmax.
  unfold assign_component, bind, get, defined.
  rewrite (reg is_entity_alive_spec) by done. unfold ret at 1.
  case_bool_decide as He; simpl; [|by unfold ret].
  pose proof (reg get_or_create_storage_spec r family h W Hfam) as G.
  destruct (get_or_create_storage_ vmax family r h) as [[] r1 h1|err r1 h1|]; [| |done].
  2:{ destruct G as (_ & _ & [[-> Hv]|[-> _]]); [|done].
      unfold is_family_id, family_id_modulus in Hfam. lia. }
  destruct G as (W1 & G1 & E1 & E2 & E3 & G).
  assert (e ∈ live r1) as He1 by (unfold live; by rewrite E1).
  assert (∃ (i : nat) st1,
            sparse_map.keys (storages_ r1) !! i = Some family ∧
            sparse_map.values_ (storages_ r1) !! i = Some st1)
    as (i & st1 & Hi & Hst1).
  { destruct (sparse_map.lookup (storages_ r) family) as [st|] eqn:Hst.
    - destruct G as (-> & ->).
      apply (tbl lookup_Some_position) in Hst as (i & Hi & Hst). eauto.
    - destruct G as (Hks & Hvs).
      pose proof (tbl length_keys (storages_ r) (wf_storages _ _ W)) as Hl.
      exists (length (sparse_map.keys (storages_ r))), component_storage.empty.
      split.
      + rewrite Hks. by apply list_lookup_middle.
      + rewrite Hvs. by apply list_lookup_middle. }
  assert (storage_ok r1 st1) as Hok1.
  { apply (wf_components _ _ W1). by eapply list_elem_of_lookup_2. }
  rewrite (reg on_storage_spec r1 family _ h1 i st1) by done.
  pose proof (reg storage_assign_spec r1 st1 e args h1 W1 Hok1 He1) as A.
  destruct (component_storage.assign vmax e args st1 h1) as [[] st' h2|err st' h2|]; [done| |done].
  destruct A as (_ & _ & [[-> Hv]|[-> _]]); [|done].
  pose proof (entity_id_index_range e) as Hx. rewrite entity_id_index_mask_val in Hx. lia.
Qed.

(** X17.  Where a vector can hold [2^22] elements and the allocator
    grants every request, the calls on a registry throw nothing but
    [std::logic_error], and only [create_entity], when the index space
    is used up, and [get_component], when the component is missing,
    throw it; the registry is then as it was before the call. *)
Theorem registry_calls_throw_only_logic_error (r : registry) (c : call) (h : heap) :
  reachable vmax r → call_family_ok c → entity_id_index_mask < vmax → granted h →
  match run_call vmax c r h with
  | Normal _ _ h' => granted h'
  | Raised err r' h' =>
      err = logic_error ∧ r' = r ∧ h' = h ∧
      match c with
      | CreateEntity =>
          free_entity_ids_ r = [] ∧ last_entity_id_ r = entity_id_index_mask
      | GetComponentAssign family e _ => exists_component r family e = Some false
      | _ => False
      end
  | Undefined => False
  end.
Proof.
  intros Hr Hfam Hmax Hg. pose proof (reg reachable_wf r Hr) as W.
  destruct c as [|e|family e args|family e|e|family e v]; simpl in *; unfold bind.
  - pose proof (reg create_entity_spec r h W) as S.
    destruct (create_entity vmax r h) as [e r' h'|err r' h'|]; [| |done].
    + unfold ret. by apply S.
    + destruct S as (_ & Hnil & [(-> & -> & -> & Hl)|(Hlt & _ & [(_ & Hv & _)|(_ & G)])]).
      * done.
      * lia.
      * done.
  - pose proof (reg destroy_entity_spec r e h W) as S.
    destruct (destroy_entity e r h) as [b r' h'|err r' h'|]; [| |done].
    + unfold ret. by apply S.
    + by destruct S as (_ & G & _).
  - pose proof (reg assign_component_spec r family e args h W Hfam) as S.
    pose proof (assign_component_no_length_error r family e args h W Hfam Hmax) as N.
    destruct (assign_component vmax family e args r h) as [b r' h'|err r' h'|]; [| |done].
    + unfold ret. by apply S.
    + destruct S as (_ & _ & _ & _ & _ & _ & [->|[_ G]]); done.
  - pose proof (reg remove_component_spec r family e h W Hfam) as S.
    destruct (remove_component family e r h) as [b r' h'|err r' h'|]; [|done|done].
    unfold ret. by destruct S as (-> & _).
  - pose proof (reg remove_all_components_spec r e h W) as S.
    unfold remove_all_components.
    destruct (remove_all_components_impl_ e r h) as [b r' h'|err r' h'|]; [|done|done].
    unfold ret. by destruct S as (-> & _).
  - pose proof (reg get_component_assign_spec r family e v h W Hfam) as S.
    pose proof (get_component_assign_frame r family e v h W) as F.
    destruct (get_component_assign family e v r h) as [[] r' h'|err r' h'|]; [| |done].
    + by destruct S as (-> & _).
    + destruct S as (-> & -> & ->). split_and!; try done.
      rewrite comp_at_is_Some by done. by rewrite F.
Qed.

End registry_frames.

(** ** Entity ids and type families *)

(** X18.  Taking an id apart and joining the parts gives the id back. *)
Theorem entity_id_join_index_version (id : Z) :
  0 ≤ id < entity_id_modulus →
  entity_id_join (entity_id_index id) (entity_id_version id) = id.
Proof.
  intros Hid. pose proof (entity_id_index_range id) as Hi.
  rewrite entity_id_index_mask_val in Hi.
  assert (0 ≤ entity_id_join (entity_id_index id) (entity_id_version id)
          < entity_id_modulus) as Hj.
  { rewrite entity_id_join_sum by lia.
    pose proof (Z.mod_pos_bound (entity_id_version id) (2 ^ 10)).
    unfold entity_id_modulus. lia. }
  apply entity_id_eq; try done.
  - apply entity_id_index_join. lia.
  - rewrite entity_id_version_join by lia.
    apply Z.mod_small, entity_id_version_range.
Qed.

(** X19.  Joining an index below [2^22] with a version gives an id with
    that index and with the version modulo [2^10]: the bits of the
    version above the tenth are lost. *)
Theorem entity_id_index_version_join (index version : Z) :
  0 ≤ index < 2 ^ 22 →
  entity_id_index (entity_id_join index version) = index ∧
  entity_id_version (entity_id_join index version) = version mod 2 ^ 10 ∧
  0 ≤ entity_id_join index version < entity_id_modulus.
Proof.
  intros Hi. split; [by apply entity_id_index_join|].
  split; [by apply entity_id_version_join|].
  rewrite entity_id_join_sum by done.
  pose proof (Z.mod_pos_bound version (2 ^ 10)).
  unfold entity_id_modulus. lia.
Qed.

Section type_family_facts.
Import type_family.

Local Set Warnings "-clear-no-such-hyp".

(** The statics are as calls of [id()] leave them: [last_id_] counts
    the types that have an id, and the ids are the numbers from 1 to
    [last_id_], one for each type. *)
Local Abbreviation ids_ok s :=
  (last_id_ s = Z.of_nat (size (dom (self_ids s))) ∧
   (∀ T x, self_ids s !! T = Some x → 1 ≤ x ≤ last_id_ s) ∧
   (∀ T T' x, self_ids s !! T = Some x → self_ids s !! T' = Some x → T = T'))
  (only parsing).

Lemma id_spec (T : nat) (s : statics) :
  ids_ok s → Z.of_nat (size (dom (self_ids s) ∪ {[T]})) < family_id_modulus →
  ∃ x s', id T s = Some (x, s') ∧ ids_ok s' ∧
    self_ids s' !! T = Some x ∧
    dom (self_ids s') = dom (self_ids s) ∪ {[T]} ∧
    (∀ T' y, self_ids s !! T' = Some y → self_ids s' !! T' = Some y).
Proof.
  intros (Hlast & Hrange & Hinj) Hsize. unfold id.
  destruct (self_ids s !! T) as [x|] eqn:HT.
  - rewrite HT. simpl. destruct (Hrange T x HT) as [Hx _].
    rewrite bool_decide_eq_true_2 by lia.
    exists x, s. split_and!; try done.
    apply elem_of_dom_2 in HT. set_solver.
  - assert (T ∉ dom (self_ids s)) as Hnin by (by apply not_elem_of_dom).
    rewrite size_union, size_singleton in Hsize by set_solver.
    assert ((last_id_ s + 1) mod family_id_modulus = last_id_ s + 1) as Hmod.
    { apply Z.mod_small. lia. }
    simpl. rewrite lookup_insert_eq. simpl. rewrite Hmod.
    rewrite bool_decide_eq_true_2 by lia.
    eexists _, _. split; [done|]. simpl. split_and!.
    + rewrite dom_insert_L, size_union, size_singleton by set_solver. lia.
    + intros T' x. destruct (decide (T' = T)) as [->|Hne].
      * rewrite lookup_insert_eq. intros [= <-]. lia.
      * rewrite lookup_insert_ne by done. intros H. pose proof (Hrange T' x H). lia.
    + intros T1 T2 x. destruct (decide (T1 = T)) as [->|H1], (decide (T2 = T)) as [->|H2];
        rewrite ?lookup_insert_eq, ?lookup_insert_ne by done; try done.
      * intros [= <-] H. pose proof (Hrange T2 _ H). lia.
      * intros H [= <-]. pose proof (Hrange T1 _ H). lia.
      * apply Hinj.
    + by rewrite lookup_insert_eq.
    + rewrite dom_insert_L. set_solver.
    + intros T' y Hy. rewrite lookup_insert_ne; [done|]. intros ->. congruence.
Qed.

Lemma ids_spec (Ts : list nat) :
  ∀ s, ids_ok s →
    Z.of_nat (size (dom (self_ids s) ∪ list_to_set Ts)) < family_id_modulus →
    ∃ xs s', ids Ts s = Some (xs, s') ∧ ids_ok s' ∧
      Forall2 (λ T x, self_ids s' !! T = Some x) Ts xs ∧
      dom (self_ids s') = dom (self_ids s) ∪ list_to_set Ts ∧
      (∀ T' y, self_ids s !! T' = Some y → self_ids s' !! T' = Some y).
Proof.
  induction Ts as [|T Ts IH]; intros s Hok Hsize.
  - exists [], s. simpl. split; [done|]. split; [done|]. split; [constructor|].
    split; [set_solver|done].
  - destruct (id_spec T s Hok) as (x & s1 & Hid & Hok1 & Hx & Hdom & Hmono).
    { eapply Z.le_lt_trans; [|exact Hsize]. apply Nat2Z.inj_le, subseteq_size.
      set_solver. }
    destruct (IH s1 Hok1) as (xs & s2 & Hids & Hok2 & HF & Hdom2 & Hmono2).
    { rewrite Hdom. eapply Z.le_lt_trans; [|exact Hsize]. apply Nat2Z.inj_le, subseteq_size.
      set_solver. }
    exists (x :: xs), s2. simpl. rewrite Hid. simpl. rewrite Hids. simpl.
    split; [done|]. split; [exact Hok2|]. split; [|split].
    + constructor; [by apply Hmono2|done].
    + rewrite Hdom2, Hdom. set_solver.
    + intros T' y Hy. by apply Hmono2, Hmono.
Qed.

(** X20.  In a program with fewer than [2^16] component types the calls
    of [type_family<T>::id()] all return, each with a family id that is
    not 0; calls for one type return one id, and calls for two types
    return two. *)
Theorem type_family_ids_distinct (Ts : list nat) :
  Z.of_nat (size (list_to_set Ts : gset nat)) < family_id_modulus →
  ∃ xs s,
    ids Ts initial = Some (xs, s) ∧
    length xs = length Ts ∧
    Forall registry.is_family_id xs ∧
    ∀ (i j : nat) T T' x x',
      Ts !! i = Some T → Ts !! j = Some T' →
      xs !! i = Some x → xs !! j = Some x' →
      x = x' ↔ T = T'.
Proof.
  intros Hsize.
  destruct (ids_spec Ts initial)
    as (xs & s & Hids & (Hlast & Hrange & Hinj) & HF & Hdom & _).
  { simpl. split; [by rewrite dom_empty_L, size_empty|].
    split; intros *; by rewrite lookup_empty. }
  { unfold initial. simpl. by rewrite dom_empty_L, (left_id_L ∅ (∪)). }
  unfold initial in Hdom. simpl in Hdom. rewrite dom_empty_L, (left_id_L ∅ (∪)) in Hdom.
  exists xs, s. split_and!; try done.
  - symmetry. by eapply Forall2_length.
  - apply Forall_forall. intros x [i Hi]%list_elem_of_lookup.
    destruct (Forall2_lookup_r _ _ _ _ _ HF Hi) as (T & _ & HT).
    destruct (Hrange T x HT) as [H1 H2]. unfold registry.is_family_id.
    rewrite Hlast, Hdom in H2. lia.
  - intros i j T T' x x' Hi Hj Hxi Hxj.
    pose proof (Forall2_lookup_lr _ _ _ _ _ _ HF Hi Hxi) as H1.
    pose proof (Forall2_lookup_lr _ _ _ _ _ _ HF Hj Hxj) as H2. simpl in *.
    split; [intros <-; by eapply Hinj|intros <-; congruence].
Qed.

End type_family_facts.

(** ** Sparse sets and maps: what one call does *)

Section container_calls.
Variable vmax : Z.
Hypothesis vmax_range : 0 ≤ vmax < size_t_modulus.

Set Default Proof Using "All".

Local Abbreviation key X :=
  (X sparse_unsigned_indexer vmax sparse_unsigned_indexer_range vmax_range) (only parsing).
Local Abbreviation cont X := (X vmax vmax_range) (only parsing).
Local Abbreviation set_wf := (sparse_set.wf sparse_unsigned_indexer vmax).
Local Abbreviation has := (sparse_set.has sparse_unsigned_indexer).
Local Abbreviation elements := sparse_set.elements.
Local Abbreviation run_set := (run_set_calls sparse_unsigned_indexer vmax).

Lemma run_set_calls_wf (cs : list (set_call * heap)) :
  Forall (λ c, set_call_ok c.1) cs →
  ∃ s, run_set cs sparse_set.empty = Some s ∧ set_wf s ∧ Forall is_key (elements s).
Proof.
  intros Hcs.
  assert (∀ s, set_wf s → Forall is_key (elements s) →
    ∃ s', run_set cs s = Some s' ∧ set_wf s' ∧ Forall is_key (elements s')) as Hrun.
  { induction cs as [|[c h] cs IH]; intros s W Hk; simpl.
    - by exists s.
    - apply Forall_cons in Hcs as [Hc Hcs].
      destruct (cont run_set_call_invariant s c h W Hk Hc) as (s1 & -> & W1 & Hk1).
      simpl. by apply IH. }
  apply Hrun; [by apply (key wf_empty)|constructor].
Qed.

Lemma size_elements s : set_wf s → sparse_set.size s = Z.of_nat (length (elements s)).
Proof.
  intros W. rewrite (key length_elements) by done.
  pose proof (sparse_set.wf_size _ _ _ W). unfold sparse_set.size. lia.
Qed.

Lemma has_frame s s' u :
  set_wf s → set_wf s' → (u ∈ elements s' ↔ u ∈ elements s) → has s' u = has s u.
Proof.
  intros W W' H. rewrite !(key has_spec) by done. f_equal. by apply bool_decide_ext.
Qed.

(** X21.  [insert(v)] on a sparse set returns false and changes nothing
    when the set has [v]; otherwise it returns true, [v] is the last
    value of the dense range and the set has one value more, or it
    throws and the set is as it was: [std::length_error] when the index
    of [v] is [max_size()] or more, [std::bad_alloc] when the allocator
    refuses.  It throws only when the index of [v] is not below the
    capacity, and below the capacity it asks nothing of the allocator.
    The other values are in the set or not as before. *)
Theorem sparse_set_insert_cases (cs : list (set_call * heap)) :
  Forall (λ c, set_call_ok c.1) cs →
  ∃ s,
    run_set cs sparse_set.empty = Some s ∧
    ∀ v h, is_key v →
      match sparse_set.insert sparse_unsigned_indexer vmax v s h with
      | Normal b s' h' =>
          has s v = Some (negb b) ∧ has s' v = Some true ∧
          (∀ u, u ≠ v → has s' u = has s u) ∧
          sparse_set.size s' = sparse_set.size s + (if b then 1 else 0) ∧
          (b = true → elements s' = elements s ++ [v]) ∧
          (b = false → s' = s ∧ h' = h) ∧
          (v < sparse_set.capacity s → h' = h)
      | Raised e s' h' =>
          s' = s ∧ has s v = Some false ∧ sparse_set.capacity s ≤ v ∧
          ((e = length_error ∧ vmax ≤ v) ∨ (e = bad_alloc ∧ ¬ granted h))
      | Undefined => False
      end.
Proof.
  intros Hcs. destruct (run_set_calls_wf cs Hcs) as (s & Hs & W & Hk).
  exists s. split; [done|]. intros v h Hv.
  pose proof (key insert_spec s v h W (cont key_slot_free s v Hk Hv)) as I.
  rewrite (cont sparse_unsigned_indexer_key) in I by done.
  lapply I; [clear I; intros I|unfold is_key in Hv; lia].
  destruct (sparse_set.insert _ _ _ _ _) as [b s' h'|e s' h'|]; [| |done].
  - destruct I as (W' & _ & _ & I). destruct b.
    + destruct I as (Hnin & Hel & Hh). split_and!; try done.
      * rewrite (key has_spec) by done. by rewrite bool_decide_eq_false_2.
      * rewrite (key has_spec) by done. rewrite bool_decide_eq_true_2; [done|].
        rewrite Hel. apply elem_of_app. right. by left.
      * intros u Hne. apply has_frame; try done.
        rewrite Hel, elem_of_app, list_elem_of_singleton. tauto.
      * rewrite !size_elements by done. rewrite Hel, length_app. simpl. lia.
    + destruct I as (Hin & -> & ->). split_and!; try done.
      * rewrite (key has_spec) by done. by rewrite bool_decide_eq_true_2.
      * rewrite (key has_spec) by done. by rewrite bool_decide_eq_true_2.
      * lia.
  - destruct I as (-> & Hnin & Hcap & I). split_and!; try done.
    + rewrite (key has_spec) by done. by rewrite bool_decide_eq_false_2.
    + destruct I as [(-> & ? & _)|(-> & ?)]; [by left|by right].
Qed.

(** X22.  [unordered_erase(v)] never throws and asks nothing of the
    allocator.  It returns whether the set had [v]; afterwards the set
    has not, the other values are in the set or not as before, and the
    capacity is as it was.  When it returns true the last value of the
    dense range has taken the place of [v] and the others have kept
    theirs; when it returns false the set is as it was. *)
Theorem sparse_set_unordered_erase_cases (cs : list (set_call * heap)) :
  Forall (λ c, set_call_ok c.1) cs →
  ∃ s,
    run_set cs sparse_set.empty = Some s ∧
    ∀ v h,
      ∃ b s',
        sparse_set.unordered_erase sparse_unsigned_indexer v s h = Normal b s' h ∧
        has s v = Some b ∧ has s' v = Some false ∧
        (∀ u, u ≠ v → has s' u = has s u) ∧
        sparse_set.size s' = sparse_set.size s - (if b then 1 else 0) ∧
        sparse_set.capacity s' = sparse_set.capacity s ∧
        (b = true →
           ∃ i : nat, elements s !! i = Some v ∧
             elements s' = swap_pop i (elements s)) ∧
        (b = false → s' = s).
Proof.
  intros Hcs. destruct (run_set_calls_wf cs Hcs) as (s & Hs & W & Hk).
  exists s. split; [done|]. intros v h.
  pose proof (key unordered_erase_spec s v h W) as E.
  pose proof (key unordered_erase_elem_of s v h) as Em.
  destruct (sparse_set.unordered_erase _ _ _ _) as [b s' h'|e s' h'|]; [|done|done].
  destruct E as (-> & W' & Hcap & E). exists b, s'. split; [done|]. destruct b.
  - destruct E as (i & Hi & Hel & Hsz).
    specialize (Em s' h). split_and!; try done.
    + rewrite (key has_spec) by done. rewrite bool_decide_eq_true_2; [done|].
      by eapply list_elem_of_lookup_2.
    + rewrite (key has_spec) by done. rewrite bool_decide_eq_false_2; [done|].
      rewrite (Em v W eq_refl). tauto.
    + intros u Hne. apply has_frame; try done. rewrite (Em u W eq_refl). tauto.
    + by exists i.
  - destruct E as (Hnin & ->). split_and!; try done.
    + rewrite (key has_spec) by done. by rewrite bool_decide_eq_false_2.
    + rewrite (key has_spec) by done. by rewrite bool_decide_eq_false_2.
    + lia.
Qed.

(** X23.  [find_index], [find], [get_index] and [has] agree.  For a
    value of the set [find_index] returns its place in the dense range
    and true, [find] an iterator to that place and [get_index] the
    place; for any other value [find_index] returns [size_t(-1)] and
    false, [find] returns [end()] and [get_index] throws
    [std::logic_error].  None changes the set. *)
Theorem sparse_set_find_index_cases (cs : list (set_call * heap)) :
  Forall (λ c, set_call_ok c.1) cs →
  ∃ s,
    run_set cs sparse_set.empty = Some s ∧
    ∀ v,
      ∃ p b,
        sparse_set.find_index sparse_unsigned_indexer s v = Some (p, b) ∧
        has s v = Some b ∧
        match b with
        | true =>
            0 ≤ p < sparse_set.size s ∧ vec_at (sparse_set.dense_ s) p = Some v ∧
            sparse_set.find sparse_unsigned_indexer s v = Some p ∧
            ∀ h, sparse_set.get_index sparse_unsigned_indexer v s h = Normal p s h
        | false =>
            p = size_t_modulus - 1 ∧
            sparse_set.find sparse_unsigned_indexer s v = Some (sparse_set.size s) ∧
            ∀ h, sparse_set.get_index sparse_unsigned_indexer v s h =
                   Raised logic_error s h
        end.
Proof.
  intros Hcs. destruct (run_set_calls_wf cs Hcs) as (s & Hs & W & Hk).
  exists s. split; [done|]. intros v.
  destruct (decide (v ∈ elements s)) as [Hin|Hnin].
  - pose proof Hin as [i Hi]%list_elem_of_lookup.
    exists (Z.of_nat i), true.
    pose proof (key find_index_present s v i W Hi) as Hf.
    pose proof Hi as [Hi1 Hi2]%(key elements_lookup); [|done].
    split_and!; try done.
    + rewrite (key has_spec) by done. by rewrite bool_decide_eq_true_2.
    + lia.
    + rewrite vec_at_lookup by lia. by rewrite Nat2Z.id.
    + unfold sparse_set.find. rewrite (key has_spec) by done.
      rewrite bool_decide_eq_true_2 by done. simpl.
      destruct (sparse_set.wf_slot _ _ _ W i v Hi) as [_ Hsl].
      pose proof (sparse_unsigned_indexer_range v).
      rewrite vec_at_lookup by lia. done.
    + intros h. by apply (key get_index_present).
  - exists (size_t_modulus - 1), false.
    split_and!; try done.
    + by rewrite (key find_index_absent).
    + rewrite (key has_spec) by done. by rewrite bool_decide_eq_false_2.
    + unfold sparse_set.find. rewrite (key has_spec) by done.
      by rewrite bool_decide_eq_false_2.
    + intros h. by apply (key get_index_absent).
Qed.

(** X24.  [reserve(n)] with [n] not above [max_size()] does nothing
    when [n] is not above the capacity.  Otherwise the capacity becomes
    [n] and the values of the set and their order are as they were, or
    the call throws [std::bad_alloc], which it does only when the
    allocator refuses, and the set is as it was. *)
Theorem sparse_set_reserve_cases (cs : list (set_call * heap)) :
  Forall (λ c, set_call_ok c.1) cs →
  ∃ s,
    run_set cs sparse_set.empty = Some s ∧
    ∀ n h, n ≤ sparse_set.max_size vmax →
      match sparse_set.reserve vmax n s h with
      | Normal _ s' h' =>
          sparse_set.capacity s' = Z.max (sparse_set.capacity s) n ∧
          elements s' = elements s ∧ (∀ u, has s' u = has s u) ∧
          (n ≤ sparse_set.capacity s → s' = s ∧ h' = h)
      | Raised e s' h' =>
          e = bad_alloc ∧ ¬ granted h ∧ s' = s ∧ sparse_set.capacity s < n
      | Undefined => False
      end.
Proof.
  intros Hcs. destruct (run_set_calls_wf cs Hcs) as (s & Hs & W & Hk).
  exists s. split; [done|]. intros n h Hn. unfold sparse_set.max_size in Hn.
  pose proof (sparse_set.wf_capacity _ _ _ W) as Hc.
  destruct (decide (n ≤ sparse_set.capacity_ s)) as [Hle|Hgt].
  { unfold sparse_set.reserve, bind, get, ret.
    rewrite bool_decide_eq_false_2 by lia. unfold sparse_set.capacity.
    split_and!; try done; lia. }
  pose proof (key reserve_spec s n h W ltac:(lia)) as R.
  destruct (sparse_set.reserve vmax n s h) as [[] s' h'|e s' h'|]; [| |done].
  - destruct R as (-> & _). unfold sparse_set.capacity. simpl.
    split_and!; try done; try lia.
    + by apply (key elements_grown).
    + intros u. apply has_frame; try done.
      * apply (key wf_grown); [done|lia].
      * by rewrite (key elements_grown).
  - destruct R as (-> & -> & G). unfold sparse_set.capacity.
    split_and!; try done. lia.
Qed.

(** X25.  [clear()] leaves a set with no value and with the capacity it
    had, and asks nothing of the allocator.  What it leaves in the
    vectors does no harm: a value whose index is below the capacity,
    whether the set had it before or not, is inserted again without a
    request to the allocator and is then the only value of the set. *)
Theorem sparse_set_clear_cases (cs : list (set_call * heap)) :
  Forall (λ c, set_call_ok c.1) cs →
  ∃ s,
    run_set cs sparse_set.empty = Some s ∧
    ∀ h,
      ∃ s',
        sparse_set.clear s h = Normal tt s' h ∧
        sparse_set.size s' = 0 ∧ elements s' = [] ∧
        (∀ u, has s' u = Some false) ∧
        sparse_set.capacity s' = sparse_set.capacity s ∧
        ∀ v h1, is_key v → v < sparse_set.capacity s →
          ∃ s'',
            sparse_set.insert sparse_unsigned_indexer vmax v s' h1 = Normal true s'' h1 ∧
            elements s'' = [v].
Proof.
  intros Hcs. destruct (run_set_calls_wf cs Hcs) as (s & Hs & W & Hk).
  exists s. split; [done|]. intros h.
  destruct (key clear_spec s h W) as (s' & Hcl & W' & Hel & Hcap).
  exists s'. split_and!; try done.
  - rewrite size_elements by done. by rewrite Hel.
  - intros u. rewrite (key has_spec) by done. rewrite Hel.
    rewrite bool_decide_eq_false_2; [done|]. by intros ?%elem_of_nil.
  - intros v h1 Hv Hlt. unfold sparse_set.capacity in Hlt.
    assert (Forall is_key (elements s')) as Hk' by (rewrite Hel; constructor).
    pose proof (key insert_spec s' v h1 W' (cont key_slot_free s' v Hk' Hv)) as I.
    rewrite (cont sparse_unsigned_indexer_key) in I by done.
    lapply I; [clear I; intros I|unfold is_key in Hv; lia].
    destruct (sparse_set.insert _ _ _ _ _) as [b s2 h2|e s2 h2|]; [| |done].
    + destruct I as (_ & _ & _ & I). destruct b.
      * destruct I as (_ & Hel2 & Hh). exists s2. rewrite Hh by lia.
        split; [done|]. by rewrite Hel2, Hel.
      * destruct I as (Hin & _). rewrite Hel in Hin. by apply elem_of_nil in Hin.
    + destruct I as (_ & _ & Hc & _). lia.
Qed.

(** X26.  Erasing a value right after it was inserted gives the dense
    range back as it was before the insert, in the same order. *)
Theorem sparse_set_insert_erase_round_trip (cs : list (set_call * heap)) :
  Forall (λ c, set_call_ok c.1) cs →
  ∃ s,
    run_set cs sparse_set.empty = Some s ∧
    ∀ v h h2, is_key v →
      match sparse_set.insert sparse_unsigned_indexer vmax v s h with
      | Normal true s1 _ =>
          ∃ s2,
            sparse_set.unordered_erase sparse_unsigned_indexer v s1 h2
              = Normal true s2 h2 ∧
            elements s2 = elements s
      | _ => True
      end.
Proof.
  intros Hcs. destruct (run_set_calls_wf cs Hcs) as (s & Hs & W & Hk).
  exists s. split; [done|]. intros v h h2 Hv.
  pose proof (key insert_spec s v h W (cont key_slot_free s v Hk Hv)) as I.
  rewrite (cont sparse_unsigned_indexer_key) in I by done.
  lapply I; [clear I; intros I|unfold is_key in Hv; lia].
  destruct (sparse_set.insert _ _ _ _ _) as [[] s1 h1|e s1 h1|]; try done.
  destruct I as (W1 & _ & _ & Hnin & Hel & _).
  pose proof (key unordered_erase_spec s1 v h2 W1) as E.
  destruct (sparse_set.unordered_erase _ _ _ _) as [b s2 h3|e s2 h3|]; [|done|done].
  destruct E as (-> & W2 & _ & E). destruct b.
  - destruct E as (i & Hi & Hel2 & _). exists s2. split; [done|].
    assert (i = length (elements s)) as ->.
    { eapply NoDup_lookup; [by apply (key elements_NoDup s1)|done|].
      rewrite Hel. by apply list_lookup_middle. }
    rewrite Hel2, Hel.
    replace (length (elements s)) with (length (elements s ++ [v]) - 1)%nat
      by (rewrite length_app; simpl; lia).
    rewrite swap_pop_last, length_app. simpl.
    replace (length (elements s) + 1 - 1)%nat with (length (elements s)) by lia.
    by rewrite take_app_length.
  - destruct E as (Hnin1 & _). exfalso. apply Hnin1. rewrite Hel.
    apply elem_of_app. right. by left.
Qed.

Lemma insert_capacity s v h :
  set_wf s → Forall is_key (elements s) → is_key v →
  match sparse_set.insert sparse_unsigned_indexer vmax v s h with
  | Normal _ s' _ =>
      sparse_set.capacity_ s' =
        if bool_decide (v < sparse_set.capacity_ s) then sparse_set.capacity_ s
        else if bool_decide (vmax `div` 2 ≤ sparse_set.capacity_ s) then vmax
        else Z.max (sparse_set.capacity_ s * 2) (v + 1)
  | Raised _ _ _ => True
  | Undefined => True
  end.
Proof.
  intros W Hk Hv. pose proof W as [W1 W2 W3 W4 W5 W6]. pose proof vmax_range as Hvm.
  unfold sparse_set.insert, bind, get, put, ret, defined. simpl.
  rewrite (key has_spec) by done.
  rewrite (cont sparse_unsigned_indexer_key) by done.
  case_bool_decide as Hin; simpl.
  { apply list_elem_of_lookup in Hin as [i Hi]. destruct (W6 i v Hi) as [Hlt _].
    rewrite (cont sparse_unsigned_indexer_key) in Hlt by done.
    by rewrite bool_decide_eq_true_2. }
  case_bool_decide as Hcap.
  2:{ rewrite bool_decide_eq_true_2 by lia.
      destruct (vec_store (sparse_set.dense_ s) _ _); simpl; [|done].
      destruct (vec_store (sparse_set.sparse_ s) _ _); simpl; done. }
  rewrite bool_decide_eq_false_2 by lia.
  rewrite wrap_size_t_small by (unfold is_key in Hv; lia).
  unfold sparse_set.new_capacity_for_, sparse_set.max_size, bind, get, ret, throw.
  case_bool_decide as Hms; [done|].
  assert (∀ nc, sparse_set.capacity_ s < nc ≤ vmax →
    match
      match sparse_set.reserve vmax nc s h with
      | Normal _ s' h' =>
          match
            match vec_store (sparse_set.dense_ s') (sparse_set.size_ s') v with
            | Some a => λ s0 h0, Normal a s0 h0
            | None => undefined
            end s' h'
          with
          | Normal a0 _ h'0 =>
              match
                match
                  vec_store (sparse_set.sparse_ (sparse_set.set_dense a0 s')) v
                    (sparse_set.size_ (sparse_set.set_dense a0 s'))
                with
                | Some a => λ s0 h0, Normal a s0 h0
                | None => undefined
                end (sparse_set.set_dense a0 s') h'0
              with
              | Normal a1 _ h'1 =>
                  Normal true
                    (sparse_set.set_size
                       (wrap_size_t
                          (sparse_set.size_
                             (sparse_set.set_sparse a1 (sparse_set.set_dense a0 s')) + 1))
                       (sparse_set.set_sparse a1 (sparse_set.set_dense a0 s')))
                    h'1
              | Raised e s'1 h'1 => Raised e s'1 h'1
              | Undefined => Undefined
              end
          | Raised e s'0 h'0 => Raised e s'0 h'0
          | Undefined => Undefined
          end
      | Raised e s' h' => Raised e s' h'
      | Undefined => Undefined
      end
    with
    | Normal _ s' _ => sparse_set.capacity_ s' = nc
    | Raised _ _ _ => True
    | Undefined => True
    end) as Hgrow.
  { intros nc Hnc. pose proof (key reserve_spec s nc h W Hnc) as R.
    destruct (sparse_set.reserve vmax nc s h) as [[] s2 h2|e s2 h2|]; [|done|done].
    destruct R as (-> & _).
    destruct (vec_store (sparse_set.dense_ _) _ _); simpl; [|done].
    destruct (vec_store _ _ _); simpl; done. }
  case_bool_decide as Hhalf.
  - rewrite bool_decide_eq_true_2 by lia. apply Hgrow. lia.
  - rewrite bool_decide_eq_false_2 by lia.
    assert (0 ≤ sparse_set.capacity_ s * 2 < size_t_modulus) as Hw.
    { unfold size_t_modulus in *. Z.div_mod_to_equations. lia. }
    rewrite wrap_size_t_small by done. apply Hgrow.
    Z.div_mod_to_equations. lia.
Qed.

(** X27.  The capacity of a sparse set is never above [max_size()],
    and [insert(v)] grows it only when the index of [v] is not below
    it: to [max_size()] when the capacity is half of [max_size()] or
    more, and otherwise to twice the capacity or to the index of [v]
    plus one, whichever is more. *)
Theorem sparse_set_insert_growth (cs : list (set_call * heap)) :
  Forall (λ c, set_call_ok c.1) cs →
  ∃ s,
    run_set cs sparse_set.empty = Some s ∧
    sparse_set.size s ≤ sparse_set.capacity s ≤ sparse_set.max_size vmax ∧
    ∀ v h, is_key v →
      match sparse_set.insert sparse_unsigned_indexer vmax v s h with
      | Normal _ s' _ =>
          sparse_set.capacity s' =
            if bool_decide (v < sparse_set.capacity s) then sparse_set.capacity s
            else if bool_decide (sparse_set.max_size vmax `div` 2 ≤ sparse_set.capacity s)
                 then sparse_set.max_size vmax
                 else Z.max (sparse_set.capacity s * 2) (v + 1)
      | Raised _ s' _ => sparse_set.capacity s' = sparse_set.capacity s
      | Undefined => False
      end.
Proof.
  intros Hcs. destruct (run_set_calls_wf cs Hcs) as (s & Hs & W & Hk).
  exists s. split; [done|]. split.
  { pose proof (sparse_set.wf_size _ _ _ W). pose proof (sparse_set.wf_capacity _ _ _ W).
    unfold sparse_set.size, sparse_set.capacity, sparse_set.max_size. lia. }
  intros v h Hv.
  pose proof (insert_capacity s v h W Hk Hv) as C.
  pose proof (key insert_spec s v h W (cont key_slot_free s v Hk Hv)) as I.
  rewrite (cont sparse_unsigned_indexer_key) in I by done.
  lapply I; [clear I; intros I|unfold is_key in Hv; lia].
  destruct (sparse_set.insert _ _ _ _ _) as [b s' h'|e s' h'|]; [done| |done].
  by destruct I as (-> & _).
Qed.

Section with_value.
Context {T : Type}.

Local Abbreviation map_invariant := (map_invariant (T:=T) vmax).
Local Abbreviation run_map := (run_map_calls (T:=T) sparse_unsigned_indexer vmax).
Local Abbreviation mhas := (sparse_map.has (T:=T) sparse_unsigned_indexer).
Local Abbreviation find_value := (sparse_map.find_value (T:=T) sparse_unsigned_indexer).

Lemma run_map_calls_invariant (cs : list (map_call T * heap)) :
  Forall (λ c, map_call_ok c.1) cs →
  ∃ m g, run_map cs sparse_map.empty ∅ = Some (m, g) ∧ map_invariant m g.
Proof.
  intros Hcs.
  assert (∀ m g, map_invariant m g →
    ∃ m' g', run_map cs m g = Some (m', g') ∧ map_invariant m' g') as Hrun.
  { induction cs as [|[c h] cs IH]; intros m g Hinv; simpl.
    - by exists m, g.
    - apply Forall_cons in Hcs as [Hc Hcs].
      destruct (cont run_map_call_invariant m g c h Hinv Hc) as (m1 & -> & Hinv1).
      simpl. by apply IH. }
  apply Hrun. split_and!.
  - by apply (key map_wf_empty).
  - constructor.
  - intros k. by rewrite lookup_empty.
Qed.

Lemma find_value_frame (m m' : sparse_map.t T) k :
  sparse_map.wf sparse_unsigned_indexer vmax m →
  sparse_map.wf sparse_unsigned_indexer vmax m' →
  sparse_map.lookup m' k = sparse_map.lookup m k →
  find_value m' k = find_value m k.
Proof. intros W W' H. rewrite !(key find_value_spec) by done. by rewrite H. Qed.

(** X28.  [insert(k, v)] on a sparse map returns false when the map
    has [k] and changes nothing: the value stored with [k] stays.
    Otherwise it returns true and the map stores [v] with [k] and has
    one entry more, or it throws and the map is as it was.  The values
    stored with the other keys are as before. *)
Theorem sparse_map_insert_cases (cs : list (map_call T * heap)) :
  Forall (λ c, map_call_ok c.1) cs →
  ∃ m g,
    run_map cs sparse_map.empty ∅ = Some (m, g) ∧
    ∀ k v h, is_key k →
      match sparse_map.insert sparse_unsigned_indexer vmax k v m h with
      | Normal b m' h' =>
          mhas m k = Some (negb b) ∧ mhas m' k = Some true ∧
          (b = true →
             find_value m' k = Some (Some v) ∧
             sparse_map.size m' = sparse_map.size m + 1) ∧
          (b = false → m' = m ∧ h' = h) ∧
          (∀ k', k' ≠ k → find_value m' k' = find_value m k')
      | Raised e m' h' =>
          m' = m ∧ mhas m k = Some false ∧
          ((e = length_error ∧ vmax ≤ k) ∨ (e = bad_alloc ∧ ¬ granted h))
      | Undefined => False
      end.
Proof.
  intros Hcs. destruct (run_map_calls_invariant cs Hcs) as (m & g & Hm & W & Hk & Hg).
  exists m, g. split; [done|]. intros k v h Hkey.
  pose proof (key map_insert_spec m k v h W (cont key_slot_free _ k Hk Hkey)) as I.
  rewrite (cont sparse_unsigned_indexer_key) in I by done.
  lapply I; [clear I; intros I|unfold is_key in Hkey; lia].
  destruct (sparse_map.insert _ _ _ _ _ _) as [b m' h'|e m' h'|]; [| |done].
  - destruct I as (W' & _ & _ & I). destruct b.
    + destruct I as (Hnin & Hks & Hvs).
      pose proof (key lookup_snoc m m' k v) as Hl.
      split_and!; try done.
      * rewrite (key map_has_spec) by done. by rewrite bool_decide_eq_false_2.
      * rewrite (key map_has_spec) by done. rewrite bool_decide_eq_true_2; [done|].
        rewrite Hks. apply elem_of_app. right. by left.
      * intros _. split.
        -- rewrite (key find_value_spec) by done. rewrite (Hl k) by done.
           by rewrite decide_True.
        -- unfold sparse_map.size. rewrite Hvs, length_app. simpl. lia.
      * intros k' Hne. apply find_value_frame; try done. rewrite (Hl k') by done.
        by rewrite decide_False.
    + destruct I as (Hin & -> & ->). split_and!; try done.
      * rewrite (key map_has_spec) by done. by rewrite bool_decide_eq_true_2.
      * rewrite (key map_has_spec) by done. by rewrite bool_decide_eq_true_2.
  - destruct I as (-> & Hnin & I). split_and!; try done.
    rewrite (key map_has_spec) by done. by rewrite bool_decide_eq_false_2.
Qed.

(** X29.  [has], [find_value] and [get_value] of a sparse map agree:
    [has(k)] is true exactly when [find_value(k)] is not null;
    [get_value(k)] then returns the value [find_value(k)] points to,
    the one the last call that stored a value with [k] stored, and
    throws [std::logic_error] otherwise.  None changes the map. *)
Theorem sparse_map_get_value_cases (cs : list (map_call T * heap)) :
  Forall (λ c, map_call_ok c.1) cs →
  ∃ m g,
    run_map cs sparse_map.empty ∅ = Some (m, g) ∧
    ∀ k h,
      find_value m k = Some (g !! k) ∧
      mhas m k = Some (bool_decide (is_Some (g !! k))) ∧
      sparse_map.get_value sparse_unsigned_indexer k m h =
        match g !! k with
        | Some x => Normal x m h
        | None => Raised logic_error m h
        end.
Proof.
  intros Hcs. destruct (run_map_calls_invariant cs Hcs) as (m & g & Hm & W & Hk & Hg).
  exists m, g. split; [done|]. intros k h. split_and!.
  - rewrite (key find_value_spec) by done. by rewrite Hg.
  - rewrite (key map_has_spec) by done. f_equal. apply bool_decide_ext.
    rewrite <- Hg. symmetry. by apply (key lookup_is_Some).
  - pose proof (key map_get_value_spec m k h W) as G. rewrite <- Hg.
    destruct (sparse_map.get_value _ _ _ _) as [x m' h'|e m' h'|]; [| |done].
    + destruct G as (-> & -> & ->). done.
    + destruct G as (-> & -> & -> & Hnin). by rewrite (key lookup_absent).
Qed.

(** X30.  [unordered_erase(k)] on a sparse map never throws and asks
    nothing of the allocator.  It returns whether the map had [k];
    afterwards the map has no value for [k] and one entry less when it
    had one, and the values stored with the other keys are as before.
    When it returns false the map is as it was. *)
Theorem sparse_map_unordered_erase_cases (cs : list (map_call T * heap)) :
  Forall (λ c, map_call_ok c.1) cs →
  ∃ m g,
    run_map cs sparse_map.empty ∅ = Some (m, g) ∧
    ∀ k h,
      ∃ b m',
        sparse_map.unordered_erase sparse_unsigned_indexer k m h = Normal b m' h ∧
        mhas m k = Some b ∧ mhas m' k = Some false ∧
        find_value m' k = Some None ∧
        (∀ k', k' ≠ k → find_value m' k' = find_value m k') ∧
        sparse_map.size m' = sparse_map.size m - (if b then 1 else 0) ∧
        (b = false → m' = m).
Proof.
  intros Hcs. destruct (run_map_calls_invariant cs Hcs) as (m & g & Hm & W & Hk & Hg).
  exists m, g. split; [done|]. intros k h.
  pose proof (key map_unordered_erase_spec m k h W) as E.
  destruct (sparse_map.unordered_erase _ _ _ _) as [b m' h'|e m' h'|]; [|done|done].
  destruct E as (-> & W' & _ & E). exists b, m'. split; [done|]. destruct b.
  - destruct E as (i & Hi & Hks & Hvs).
    pose proof (key lookup_swap_pop m m' k i) as Hl.
    assert (sparse_map.lookup m' k = None) as Hnone.
    { rewrite (Hl k) by done. by rewrite decide_True. }
    split_and!; try done.
    + rewrite (key map_has_spec) by done. rewrite bool_decide_eq_true_2; [done|].
      by eapply list_elem_of_lookup_2.
    + rewrite (key map_has_spec) by done. rewrite bool_decide_eq_false_2; [done|].
      intros Hin%(key lookup_is_Some); [|done]. rewrite Hnone in Hin. by destruct Hin.
    + rewrite (key find_value_spec) by done. by rewrite Hnone.
    + intros k' Hne. apply find_value_frame; try done. rewrite (Hl k') by done.
      by rewrite decide_False.
    + unfold sparse_map.size. rewrite Hvs, swap_pop_length.
      assert (i < length (sparse_map.values_ m))%nat; [|lia].
      rewrite <- (key length_keys) by done. by eapply lookup_lt_Some.
  - destruct E as (Hnin & ->). split_and!; try done.
    + rewrite (key map_has_spec) by done. by rewrite bool_decide_eq_false_2.
    + rewrite (key map_has_spec) by done. by rewrite bool_decide_eq_false_2.
    + rewrite (key find_value_spec) by done. by rewrite (key lookup_absent).
    + lia.
Qed.

End with_value.

End container_calls.

(** ** The properties on small inputs *)

Lemma create_entity_fresh_entity_witness :
  match registry.create_entity platform_max_size one_destroyed [] with
  | Normal e r' _ =>
      registry.is_entity_alive one_destroyed e = Some false
      ∧ registry.is_entity_alive r' e = Some true
        ∧ (∀ family : Z,
             registry.find_component r' family e = Some None
             ∧ registry.exists_component r' family e = Some false)
          ∧ (∀ e' : Z,
               e' ≠ e
               → registry.is_entity_alive r' e' =
                 registry.is_entity_alive one_destroyed e')
            ∧ ∀ family e' : Z,
                registry.find_component r' family e' =
                registry.find_component one_destroyed family e'
  | Raised _ r' _ =>
      (∀ e' : Z,
         registry.is_entity_alive r' e' = registry.is_entity_alive one_destroyed e')
      ∧ ∀ family e' : Z,
          registry.find_component r' family e' =
          registry.find_component one_destroyed family e'
  | Undefined => False
  end.
Proof.
  apply (create_entity_fresh_entity platform_max_size platform_max_size_range
           one_destroyed []).
  - apply one_destroyed_reachable.
Defined.

Lemma destroy_entity_alive_cases_witness :
  match registry.destroy_entity 4194305 index_reused [] with
  | Normal b r' _ =>
      b = true
      ∧ registry.free_entity_ids_ r' = registry.free_entity_ids_ index_reused ++ [4194305]
        ∧ registry.is_entity_alive r' 4194305 = Some false
          ∧ (∀ family : Z, registry.find_component r' family 4194305 = Some None)
            ∧ (∀ e' : Z,
                 e' ≠ 4194305
                 → registry.is_entity_alive r' e' =
                   registry.is_entity_alive index_reused e')
              ∧ ∀ family e' : Z,
                  e' ≠ 4194305
                  → registry.find_component r' family e' =
                    registry.find_component index_reused family e'
  | Raised err r' _ =>
      err = bad_alloc
      ∧ ¬ granted []
        ∧ registry.free_entity_ids_ r' = registry.free_entity_ids_ index_reused
          ∧ registry.is_entity_alive r' 4194305 = Some false
            ∧ (∀ family : Z, registry.find_component r' family 4194305 = Some None)
              ∧ (∀ e' : Z,
                   e' ≠ 4194305
                   → registry.is_entity_alive r' e' =
                     registry.is_entity_alive index_reused e')
                ∧ ∀ family e' : Z,
                    e' ≠ 4194305
                    → registry.find_component r' family e' =
                      registry.find_component index_reused family e'
  | Undefined => False
  end.
Proof.
  apply (destroy_entity_alive_cases platform_max_size platform_max_size_range
           index_reused 4194305 []).
  - apply index_reused_reachable.
  - by vm_compute.
Defined.

Lemma remove_all_components_counts_witness :
  ∃ (n : Z) (r' : registry.t Z),
    registry.remove_all_components 4194305 index_reused [] = Normal n r' []
    ∧ n =
      Z.of_nat
        (length
           (filter
              (λ family : Z,
                 registry.exists_component index_reused family 4194305 = Some true)
              (sparse_map.keys (registry.storages_ index_reused))))
      ∧ (∀ family : Z, registry.find_component r' family 4194305 = Some None)
        ∧ (∀ e' : Z,
             registry.is_entity_alive r' e' = registry.is_entity_alive index_reused e')
          ∧ (∀ family e' : Z,
               e' ≠ 4194305
               → registry.find_component r' family e' =
                 registry.find_component index_reused family e')
            ∧ (registry.is_entity_alive index_reused 4194305 = Some false
               → n = 0 ∧ r' = index_reused).
Proof.
  apply (remove_all_components_counts platform_max_size platform_max_size_range
           index_reused 4194305 []).
  - apply index_reused_reachable.
Defined.

Lemma component_storage_remove_cases_witness :
  ∃ (b : bool) (st' : component_storage.t Z),
    component_storage.remove 1 one_assigned_storage [] = Normal b st' []
    ∧ component_storage.exists_ one_assigned_storage 1 = Some b
      ∧ component_storage.exists_ st' 1 = Some false
        ∧ component_storage.find st' 1 = Some None
          ∧ (∀ e' : Z,
               e' ≠ 1
               → component_storage.exists_ st' e' =
                 component_storage.exists_ one_assigned_storage e'
                 ∧ component_storage.find st' e' =
                   component_storage.find one_assigned_storage e')
            ∧ (b = true
               → ∃ i : nat,
                   sparse_map.keys (component_storage.components_ one_assigned_storage)
                   !! i = Some 1
                   ∧ sparse_map.keys (component_storage.components_ st') =
                     swap_pop i
                       (sparse_map.keys
                          (component_storage.components_ one_assigned_storage)))
              ∧ (b = false → st' = one_assigned_storage).
Proof.
  apply (component_storage_remove_cases platform_max_size platform_max_size_range
           one_assigned 1 1 one_assigned_storage []).
  - apply one_assigned_reachable.
  - by vm_compute.
Defined.

Lemma assign_component_alive_cases_witness :
  match registry.assign_component platform_max_size 1 1 7 one_entity [] with
  | Normal b r' _ =>
      b = true
      ∧ registry.find_component r' 1 1 = Some (Some 7)
        ∧ registry.exists_component r' 1 1 = Some true
          ∧ (∀ e' : Z,
               registry.is_entity_alive r' e' = registry.is_entity_alive one_entity e')
            ∧ ∀ family' e' : Z,
                (family', e') ≠ (1, 1)
                → registry.find_component r' family' e' =
                  registry.find_component one_entity family' e'
  | Raised err r' _ =>
      (err = length_error ∨ err = bad_alloc ∧ ¬ granted [])
      ∧ registry.exists_component one_entity 1 1 = Some false
        ∧ (∀ e' : Z,
             registry.is_entity_alive r' e' = registry.is_entity_alive one_entity e')
          ∧ ∀ family' e' : Z,
              registry.find_component r' family' e' =
              registry.find_component one_entity family' e'
  | Undefined => False
  end.
Proof.
  apply (assign_component_alive_cases platform_max_size platform_max_size_range
           one_entity 1 1 7 []).
  - apply one_entity_reachable.
  - by vm_compute.
  - by vm_compute.
Defined.

Lemma exists_find_get_component_agree_witness :
  ∃ c : option Z,
    registry.find_component one_assigned 1 1 = Some c
    ∧ registry.exists_component one_assigned 1 1 = Some (bool_decide (is_Some c))
      ∧ registry.get_component 1 1 one_assigned [] =
        match c with
        | Some x => Normal x one_assigned []
        | None => Raised logic_error one_assigned []
        end ∧ (is_Some c → registry.is_entity_alive one_assigned 1 = Some true).
Proof.
  apply (exists_find_get_component_agree platform_max_size platform_max_size_range
           one_assigned 1 1 []).
  - apply one_assigned_reachable.
Defined.

Lemma get_components_cases_witness :
  ∃ ps : list (option Z),
    registry.find_components one_assigned [1] 1 = Some ps
    ∧ Forall2
        (λ (family : Z) (p : option Z),
           registry.find_component one_assigned family 1 = Some p)
        [1] ps
      ∧ registry.get_components [1] 1 one_assigned [] =
        match mapM (λ p : option Z, p) ps with
        | Some cs => Normal cs one_assigned []
        | None => Raised logic_error one_assigned []
        end.
Proof.
  apply (get_components_cases platform_max_size platform_max_size_range one_assigned [1]
           1 []).
  - apply one_assigned_reachable.
Defined.

Lemma for_each_component_visits_witness :
  ∃ visits : list (Z * Z),
    (∀ (A : Type) (f : A → Z → Z → A) (a : A),
       registry.for_each_component 1 f one_assigned a =
       Some (foldl (λ (acc : A) (v : Z * Z), f acc v.1 v.2) a visits))
    ∧ visits.*1 = registry.dense_order one_assigned 1
      ∧ NoDup visits.*1
        ∧ (∀ e : Z, e ∈ visits.*1 ↔ registry.exists_component one_assigned 1 e = Some true)
          ∧ (∀ e c : Z,
               (e, c) ∈ visits → registry.find_component one_assigned 1 e = Some (Some c))
            ∧ (registry.find_storage_ one_assigned 1 = Some None → visits = []).
Proof.
  apply (for_each_component_visits platform_max_size platform_max_size_range
           one_assigned 1).
  - apply one_assigned_reachable.
Defined.

Lemma recycle_wraps_generation_witness :
  ∃ (e' : Z) (r' : registry.t Z) (h' : heap),
    registry.recycle platform_max_size 1024 1 one_entity [] = Normal e' r' h'
    ∧ registry.is_entity_alive r' e' = Some true
      ∧ entity_id_index e' = entity_id_index 1
        ∧ entity_id_version e' = (entity_id_version 1 + Z.of_nat 1024) `mod` 2 ^ 10
          ∧ (Z.of_nat 1024 `mod` 1024 = 0 → e' = 1)
            ∧ (Z.of_nat 1024 `mod` 1024 ≠ 0 → registry.is_entity_alive r' 1 = Some false).
Proof.
  apply (recycle_wraps_generation platform_max_size platform_max_size_range one_entity 1
           1024%nat []).
  - apply one_entity_reachable.
  - by vm_compute.
  - apply granted_nil.
Defined.

Lemma index_zero_never_alive_witness :
  registry.is_entity_alive one_entity 0 = Some false.
Proof.
  apply (index_zero_never_alive platform_max_size platform_max_size_range one_entity 0).
  - apply one_entity_reachable.
  - reflexivity.
Defined.

Lemma alive_entities_distinct_indices_witness :
  registry.is_entity_alive index_reused 4194305 = Some true ∧ 4194305 = 4194305.
Proof.
  split; [by vm_compute|].
  apply (alive_entities_distinct_indices platform_max_size platform_max_size_range
           index_reused 4194305 4194305).
  - apply index_reused_reachable.
  - by vm_compute.
  - by vm_compute.
  - reflexivity.
Defined.

Lemma entity_count_bounded_witness :
  sparse_set.size (registry.entity_ids_ one_destroyed) +
  Z.of_nat (length (registry.free_entity_ids_ one_destroyed))
  ≤ registry.last_entity_id_ one_destroyed ≤ 2 ^ 22 - 1.
Proof.
  apply (entity_count_bounded platform_max_size platform_max_size_range one_destroyed).
  - apply one_destroyed_reachable.
Defined.

Lemma destroy_entity_throw_loses_index_witness :
  registry.destroy_entity 1 one_entity [false] = Raised bad_alloc destroy_failed [] ∧
  registry.run_calls platform_max_size [(registry.CreateEntity, [])] destroy_failed
    = Some after_destroy_failed ∧
  registry.is_entity_alive after_destroy_failed 2 = Some true ∧
  entity_id_index 2 ≠ entity_id_index 1.
Proof.
  split; [by vm_compute|]. split; [by vm_compute|]. split; [by vm_compute|].
  apply (destroy_entity_throw_loses_index platform_max_size platform_max_size_range
           one_entity destroy_failed after_destroy_failed 1 2 [false] [] bad_alloc
           [(registry.CreateEntity, [])]).
  - apply one_entity_reachable.
  - by vm_compute.
  - repeat constructor.
  - by vm_compute.
  - by vm_compute.
Defined.

Lemma get_component_reference_writes_witness :
  match registry.get_component_assign 1 1 9 one_assigned [] with
  | Normal _ r' h' =>
      h' = []
      ∧ registry.exists_component one_assigned 1 1 = Some true
        ∧ registry.find_component r' 1 1 = Some (Some 9)
          ∧ registry.get_component 1 1 r' [] = Normal 9 r' []
            ∧ (∀ e' : Z,
                 registry.is_entity_alive r' e' = registry.is_entity_alive one_assigned e')
              ∧ ∀ family' e' : Z,
                  (family', e') ≠ (1, 1)
                  → registry.find_component r' family' e' =
                    registry.find_component one_assigned family' e'
  | Raised err r' h' =>
      err = logic_error
      ∧ r' = one_assigned
        ∧ h' = [] ∧ registry.exists_component one_assigned 1 1 = Some false
  | Undefined => False
  end.
Proof.
  apply (get_component_reference_writes platform_max_size platform_max_size_range
           one_assigned 1 1 9 []).
  - apply one_assigned_reachable.
  - by vm_compute.
Defined.

Lemma assign_component_dense_order_witness :
  match registry.assign_component platform_max_size 1 1 7 one_entity [] with
  | Normal _ r' _ =>
      registry.dense_order r' 1 =
      (if decide (registry.exists_component one_entity 1 1 = Some true) is left _
       then registry.dense_order one_entity 1
       else registry.dense_order one_entity 1 ++ [1])
      ∧ ∀ family' : Z,
          family' ≠ 1
          → registry.dense_order r' family' = registry.dense_order one_entity family'
  | Raised _ r' _ =>
      ∀ family' : Z,
        registry.dense_order r' family' = registry.dense_order one_entity family'
  | Undefined => False
  end.
Proof.
  apply (assign_component_dense_order platform_max_size platform_max_size_range
           one_entity 1 1 7 []).
  - apply one_entity_reachable.
  - by vm_compute.
  - by vm_compute.
Defined.

Lemma remove_all_components_dense_order_witness :
  match registry.remove_all_components 4194305 index_reused [] with
  | Normal _ r' _ =>
      ∀ family : Z,
        (4194305 ∉ registry.dense_order index_reused family
         → registry.dense_order r' family = registry.dense_order index_reused family)
        ∧ ∀ i : nat,
            registry.dense_order index_reused family !! i = Some 4194305
            → registry.dense_order r' family =
              swap_pop i (registry.dense_order index_reused family)
  | _ => False
  end
  ∧ match registry.destroy_entity 4194305 index_reused [] with
    | Normal _ r' _ | Raised _ r' _ =>
        ∀ family : Z,
          (4194305 ∉ registry.dense_order index_reused family
           → registry.dense_order r' family = registry.dense_order index_reused family)
          ∧ ∀ i : nat,
              registry.dense_order index_reused family !! i = Some 4194305
              → registry.dense_order r' family =
                swap_pop i (registry.dense_order index_reused family)
    | Undefined => False
    end.
Proof.
  apply (remove_all_components_dense_order platform_max_size platform_max_size_range
           index_reused 4194305 []).
  - apply index_reused_reachable.
Defined.

Lemma registry_calls_throw_only_logic_error_witness :
  match
    registry.run_call platform_max_size (registry.AssignComponent 1 1 7) one_entity []
  with
  | Normal _ _ h' => granted h'
  | Raised err r' h' => err = logic_error ∧ r' = one_entity ∧ h' = [] ∧ False
  | Undefined => False
  end.
Proof.
  apply (registry_calls_throw_only_logic_error platform_max_size platform_max_size_range
           one_entity (registry.AssignComponent 1 1 7) []).
  - apply one_entity_reachable.
  - by vm_compute.
  - by vm_compute.
  - apply granted_nil.
Defined.

Lemma entity_id_join_index_version_witness :
  entity_id_join (entity_id_index 4194305) (entity_id_version 4194305) = 4194305.
Proof.
  apply (entity_id_join_index_version 4194305).
  - by vm_compute.
Defined.

Lemma entity_id_index_version_join_witness :
  entity_id_index (entity_id_join 1 1025) = 1
  ∧ entity_id_version (entity_id_join 1 1025) = 1025 `mod` 2 ^ 10
    ∧ 0 ≤ entity_id_join 1 1025 < entity_id_modulus.
Proof.
  apply (entity_id_index_version_join 1 1025).
  - by vm_compute.
Defined.

Lemma type_family_ids_distinct_witness :
  ∃ (xs : list Z) (s : type_family.statics),
    type_family.ids [0%nat; 1%nat; 0%nat] type_family.initial = Some (xs, s)
    ∧ length xs = length [0%nat; 1%nat; 0%nat]
      ∧ Forall registry.is_family_id xs
        ∧ ∀ (i j T T' : nat) (x x' : Z),
            [0%nat; 1%nat; 0%nat] !! i = Some T
            → [0%nat; 1%nat; 0%nat] !! j = Some T'
              → xs !! i = Some x → xs !! j = Some x' → x = x' ↔ T = T'.
Proof.
  apply (type_family_ids_distinct [0; 1; 0]%nat).
  - by vm_compute.
Defined.

Lemma sparse_set_insert_cases_witness :
  ∃ s : sparse_set.t,
    run_set_calls sparse_unsigned_indexer platform_max_size some_set_calls
      sparse_set.empty =
    Some s
    ∧ ∀ (v : Z) (h : heap),
        is_key v
        → match sparse_set.insert sparse_unsigned_indexer platform_max_size v s h with
          | Normal b s' h' =>
              sparse_set.has sparse_unsigned_indexer s v = Some (negb b)
              ∧ sparse_set.has sparse_unsigned_indexer s' v = Some true
                ∧ (∀ u : Z,
                     u ≠ v
                     → sparse_set.has sparse_unsigned_indexer s' u =
                       sparse_set.has sparse_unsigned_indexer s u)
                  ∧ sparse_set.size s' = sparse_set.size s + (if b then 1 else 0)
                    ∧ (b = true → sparse_set.elements s' = sparse_set.elements s ++ [v])
                      ∧ (b = false → s' = s ∧ h' = h)
                        ∧ (v < sparse_set.capacity s → h' = h)
          | Raised e s' _ =>
              s' = s
              ∧ sparse_set.has sparse_unsigned_indexer s v = Some false
                ∧ sparse_set.capacity s ≤ v
                  ∧ (e = length_error ∧ platform_max_size ≤ v
                     ∨ e = bad_alloc ∧ ¬ granted h)
          | Undefined => False
          end.
Proof.
  apply (sparse_set_insert_cases platform_max_size platform_max_size_range
           some_set_calls).
  - repeat constructor; by vm_compute.
Defined.

Lemma sparse_set_unordered_erase_cases_witness :
  ∃ s : sparse_set.t,
    run_set_calls sparse_unsigned_indexer platform_max_size some_set_calls
      sparse_set.empty =
    Some s
    ∧ ∀ (v : Z) (h : heap),
        ∃ (b : bool) (s' : sparse_set.t),
          sparse_set.unordered_erase sparse_unsigned_indexer v s h = Normal b s' h
          ∧ sparse_set.has sparse_unsigned_indexer s v = Some b
            ∧ sparse_set.has sparse_unsigned_indexer s' v = Some false
              ∧ (∀ u : Z,
                   u ≠ v
                   → sparse_set.has sparse_unsigned_indexer s' u =
                     sparse_set.has sparse_unsigned_indexer s u)
                ∧ sparse_set.size s' = sparse_set.size s - (if b then 1 else 0)
                  ∧ sparse_set.capacity s' = sparse_set.capacity s
                    ∧ (b = true
                       → ∃ i : nat,
                           sparse_set.elements s !! i = Some v
                           ∧ sparse_set.elements s' = swap_pop i (sparse_set.elements s))
                      ∧ (b = false → s' = s).
Proof.
  apply (sparse_set_unordered_erase_cases platform_max_size platform_max_size_range
           some_set_calls).
  - repeat constructor; by vm_compute.
Defined.

Lemma sparse_set_find_index_cases_witness :
  ∃ s : sparse_set.t,
    run_set_calls sparse_unsigned_indexer platform_max_size some_set_calls
      sparse_set.empty =
    Some s
    ∧ ∀ v : Z,
        ∃ (p : Z) (b : bool),
          sparse_set.find_index sparse_unsigned_indexer s v = Some (p, b)
          ∧ sparse_set.has sparse_unsigned_indexer s v = Some b
            ∧ (if b
               then
                0 ≤ p < sparse_set.size s
                ∧ vec_at (sparse_set.dense_ s) p = Some v
                  ∧ sparse_set.find sparse_unsigned_indexer s v = Some p
                    ∧ ∀ h : heap,
                        sparse_set.get_index sparse_unsigned_indexer v s h = Normal p s h
               else
                p = size_t_modulus - 1
                ∧ sparse_set.find sparse_unsigned_indexer s v = Some (sparse_set.size s)
                  ∧ ∀ h : heap,
                      sparse_set.get_index sparse_unsigned_indexer v s h =
                      Raised logic_error s h).
Proof.
  apply (sparse_set_find_index_cases platform_max_size platform_max_size_range
           some_set_calls).
  - repeat constructor; by vm_compute.
Defined.

Lemma sparse_set_reserve_cases_witness :
  ∃ s : sparse_set.t,
    run_set_calls sparse_unsigned_indexer platform_max_size some_set_calls
      sparse_set.empty =
    Some s
    ∧ ∀ (n : Z) (h : heap),
        n ≤ sparse_set.max_size platform_max_size
        → match sparse_set.reserve platform_max_size n s h with
          | Normal _ s' h' =>
              sparse_set.capacity s' = sparse_set.capacity s `max` n
              ∧ sparse_set.elements s' = sparse_set.elements s
                ∧ (∀ u : Z,
                     sparse_set.has sparse_unsigned_indexer s' u =
                     sparse_set.has sparse_unsigned_indexer s u)
                  ∧ (n ≤ sparse_set.capacity s → s' = s ∧ h' = h)
          | Raised e s' _ =>
              e = bad_alloc ∧ ¬ granted h ∧ s' = s ∧ sparse_set.capacity s < n
          | Undefined => False
          end.
Proof.
  apply (sparse_set_reserve_cases platform_max_size platform_max_size_range
           some_set_calls).
  - repeat constructor; by vm_compute.
Defined.

Lemma sparse_set_clear_cases_witness :
  ∃ s : sparse_set.t,
    run_set_calls sparse_unsigned_indexer platform_max_size some_set_calls
      sparse_set.empty =
    Some s
    ∧ ∀ h : heap,
        ∃ s' : sparse_set.t,
          sparse_set.clear s h = Normal () s' h
          ∧ sparse_set.size s' = 0
            ∧ sparse_set.elements s' = []
              ∧ (∀ u : Z, sparse_set.has sparse_unsigned_indexer s' u = Some false)
                ∧ sparse_set.capacity s' = sparse_set.capacity s
                  ∧ ∀ (v : Z) (h1 : heap),
                      is_key v
                      → v < sparse_set.capacity s
                        → ∃ s'' : sparse_set.t,
                            sparse_set.insert sparse_unsigned_indexer platform_max_size v
                              s' h1 =
                            Normal true s'' h1 ∧ sparse_set.elements s'' = [v].
Proof.
  apply (sparse_set_clear_cases platform_max_size platform_max_size_range some_set_calls).
  - repeat constructor; by vm_compute.
Defined.

Lemma sparse_set_insert_erase_round_trip_witness :
  ∃ s : sparse_set.t,
    run_set_calls sparse_unsigned_indexer platform_max_size some_set_calls
      sparse_set.empty =
    Some s
    ∧ ∀ (v : Z) (h h2 : heap),
        is_key v
        → match sparse_set.insert sparse_unsigned_indexer platform_max_size v s h with
          | Normal true s1 _ =>
              ∃ s2 : sparse_set.t,
                sparse_set.unordered_erase sparse_unsigned_indexer v s1 h2 =
                Normal true s2 h2 ∧ sparse_set.elements s2 = sparse_set.elements s
          | _ => True
          end.
Proof.
  apply (sparse_set_insert_erase_round_trip platform_max_size platform_max_size_range
           some_set_calls).
  - repeat constructor; by vm_compute.
Defined.

Lemma sparse_set_insert_growth_witness :
  ∃ s : sparse_set.t,
    run_set_calls sparse_unsigned_indexer platform_max_size some_set_calls
      sparse_set.empty =
    Some s
    ∧ sparse_set.size s ≤ sparse_set.capacity s ≤ sparse_set.max_size platform_max_size
      ∧ ∀ (v : Z) (h : heap),
          is_key v
          → match sparse_set.insert sparse_unsigned_indexer platform_max_size v s h with
            | Normal _ s' _ =>
                sparse_set.capacity s' =
                (if bool_decide (v < sparse_set.capacity s)
                 then sparse_set.capacity s
                 else
                  if
                   bool_decide
                     (sparse_set.max_size platform_max_size `div` 2
                      ≤ sparse_set.capacity s)
                  then sparse_set.max_size platform_max_size
                  else (sparse_set.capacity s * 2) `max` (v + 1))
            | Raised _ s' _ => sparse_set.capacity s' = sparse_set.capacity s
            | Undefined => False
            end.
Proof.
  apply (sparse_set_insert_growth platform_max_size platform_max_size_range
           some_set_calls).
  - repeat constructor; by vm_compute.
Defined.

Lemma sparse_map_insert_cases_witness :
  ∃ (m : sparse_map.t Z) (g : gmap Z Z),
    run_map_calls sparse_unsigned_indexer platform_max_size some_map_calls
      sparse_map.empty ∅ =
    Some (m, g)
    ∧ ∀ (k v : Z) (h : heap),
        is_key k
        → match sparse_map.insert sparse_unsigned_indexer platform_max_size k v m h with
          | Normal b m' h' =>
              sparse_map.has sparse_unsigned_indexer m k = Some (negb b)
              ∧ sparse_map.has sparse_unsigned_indexer m' k = Some true
                ∧ (b = true
                   → sparse_map.find_value sparse_unsigned_indexer m' k = Some (Some v)
                     ∧ sparse_map.size m' = sparse_map.size m + 1)
                  ∧ (b = false → m' = m ∧ h' = h)
                    ∧ ∀ k' : Z,
                        k' ≠ k
                        → sparse_map.find_value sparse_unsigned_indexer m' k' =
                          sparse_map.find_value sparse_unsigned_indexer m k'
          | Raised e m' _ =>
              m' = m
              ∧ sparse_map.has sparse_unsigned_indexer m k = Some false
                ∧ (e = length_error ∧ platform_max_size ≤ k ∨ e = bad_alloc ∧ ¬ granted h)
          | Undefined => False
          end.
Proof.
  apply (sparse_map_insert_cases platform_max_size platform_max_size_range
           some_map_calls).
  - repeat constructor; by vm_compute.
Defined.

Lemma sparse_map_get_value_cases_witness :
  ∃ (m : sparse_map.t Z) (g : gmap Z Z),
    run_map_calls sparse_unsigned_indexer platform_max_size some_map_calls
      sparse_map.empty ∅ =
    Some (m, g)
    ∧ ∀ (k : Z) (h : heap),
        sparse_map.find_value sparse_unsigned_indexer m k = Some (g !! k)
        ∧ sparse_map.has sparse_unsigned_indexer m k =
          Some (bool_decide (is_Some (g !! k)))
          ∧ sparse_map.get_value sparse_unsigned_indexer k m h =
            match g !! k with
            | Some x => Normal x m h
            | None => Raised logic_error m h
            end.
Proof.
  apply (sparse_map_get_value_cases platform_max_size platform_max_size_range
           some_map_calls).
  - repeat constructor; by vm_compute.
Defined.

Lemma sparse_map_unordered_erase_cases_witness :
  ∃ (m : sparse_map.t Z) (g : gmap Z Z),
    run_map_calls sparse_unsigned_indexer platform_max_size some_map_calls
      sparse_map.empty ∅ =
    Some (m, g)
    ∧ ∀ (k : Z) (h : heap),
        ∃ (b : bool) (m' : sparse_map.t Z),
          sparse_map.unordered_erase sparse_unsigned_indexer k m h = Normal b m' h
          ∧ sparse_map.has sparse_unsigned_indexer m k = Some b
            ∧ sparse_map.has sparse_unsigned_indexer m' k = Some false
              ∧ sparse_map.find_value sparse_unsigned_indexer m' k = Some None
                ∧ (∀ k' : Z,
                     k' ≠ k
                     → sparse_map.find_value sparse_unsigned_indexer m' k' =
                       sparse_map.find_value sparse_unsigned_indexer m k')
                  ∧ sparse_map.size m' = sparse_map.size m - (if b then 1 else 0)
                    ∧ (b = false → m' = m).
Proof.
  apply (sparse_map_unordered_erase_cases platform_max_size platform_max_size_range
           some_map_calls).
  - repeat constructor; by vm_compute.
Defined.
